(* ===================================================================== *)
(* k8s-ingress-meta-sync: a shallow embedding of the reconciliation      *)
(* engine (pkg/model, pkg/providers/github, pkg/ingress/cloudflare,      *)
(* pkg/ingress/istio, pkg/controller) and the properties proved of it.   *)
(* ===================================================================== *)

From Stdlib Require Import ZArith String Ascii List Lia.
From stdpp Require Import base gmap strings list fin_maps sorting pretty.

Open Scope string_scope.
Open Scope Z_scope.

(* --------------------------------------------------------------------- *)
(* Go values that every package shares                                    *)
(* --------------------------------------------------------------------- *)

(** A Go [error] is carried by its message, [nil] is the absence of one. *)
Definition error := string.

Inductive result (A : Type) : Type :=
| Ok (a : A)
| Err (e : error).
Arguments Ok {A} a.
Arguments Err {A} e.

Definition is_ok {A} (r : result A) : bool :=
  match r with Ok _ => true | Err _ => false end.

(** IPRange represents an IP range (CIDR); pkg/model. *)
Record IPRange := mkIPRange {
  CIDR : string;          (* CIDR notation, e.g. 192.168.1.0/24 *)
  Labels : list string    (* labels/tags associated with this range *)
}.

(** IPRangeSet is a set of IP ranges: the slice [Ranges], in order. *)
Record IPRangeSet := mkIPRangeSet {
  Ranges : list IPRange
}.

#[global] Instance IPRange_eq_dec : EqDecision IPRange.
Proof. solve_decision. Defined.

#[global] Instance IPRangeSet_eq_dec : EqDecision IPRangeSet.
Proof. solve_decision. Defined.

(** What the embedding takes from the Go runtime and standard library:
    - [ParseCIDR_ok s]: net.ParseCIDR(s) returns a nil error;
    - [rank]: the order in which a [range] statement visits the keys of a
      map. Go leaves it unspecified; a map is visited by increasing rank
      of its keys, and the rank is arbitrary;
    - [Errorf0 msg]: the message of fmt.Errorf(msg), a call without
      operands whose format string is [msg];
    - [url_error u]: the error of url.Parse(u), which is the only error
      http.NewRequestWithContext can return for a literal method and a
      live context; [None] when the URL parses;
    - [ParseDuration s]: time.ParseDuration(s), in nanoseconds;
    - [Marshal_strings], [Unmarshal_strings]: encoding/json on a []string. *)
Class GoLib := {
  ParseCIDR_ok : string -> bool;
  rank : string -> nat;
  Errorf0 : string -> string;
  url_error : string -> option error;
  ParseDuration : string -> result Z;
  Marshal_strings : list string -> string;
  Unmarshal_strings : string -> result (list string)
}.

(* --------------------------------------------------------------------- *)
(* pkg/model: the address-range set algebra                               *)
(* --------------------------------------------------------------------- *)

Module model.
Section Model.
Context {lib : GoLib}.

(** NewIPRangeSet creates a new empty set of IP ranges. *)
Definition NewIPRangeSet : IPRangeSet := {| Ranges := [] |}.

(** Add validates the CIDR and appends; the set is returned together
    with the error, unchanged when the error is not nil. *)
Definition Add (s : IPRangeSet) (cidr : string) (labels : list string)
  : IPRangeSet * option error :=
  if ParseCIDR_ok cidr
  then ({| Ranges := Ranges s ++ [ {| CIDR := cidr; Labels := labels |} ] |}, None)
  else (s, Some ("invalid CIDR format '" ++ cidr ++ "': invalid CIDR address: " ++ cidr)).

Definition AddIPRange (s : IPRangeSet) (ipRange : IPRange) : IPRangeSet * option error :=
  Add s (CIDR ipRange) (Labels ipRange).

(** The loop that the providers and targets run over decoded CIDRs,
    [for _, cidr := range cidrs { if err := set.Add(cidr, labels); err !=
    nil { log.Error(...) } }]: a CIDR that Add refuses is logged and
    skipped. *)
Definition add_each (labels : list string) (cidrs : list string) (set : IPRangeSet)
  : IPRangeSet :=
  fold_left (fun set cidr => (Add set cidr labels).1) cidrs set.

(** The inner loop of Filter: [for _, label := range ipRange.Labels]
    assigns [v] to [include] at the first label equal to [needle] and
    breaks. *)
Fixpoint scan_labels (needle : string) (labels : list string) (v include : bool) : bool :=
  match labels with
  | [] => include
  | label :: rest =>
      if String.eqb needle label then v else scan_labels needle rest v include
  end.

(** [for _, includeLabel := range includeLabels { ...; if include { break } }] *)
Fixpoint include_loop (includeLabels labels : list string) (include : bool) : bool :=
  match includeLabels with
  | [] => include
  | includeLabel :: rest =>
      let include := scan_labels includeLabel labels true include in
      if include then include else include_loop rest labels include
  end.

(** [for _, excludeLabel := range excludeLabels { ...; if !include { break } }] *)
Fixpoint exclude_loop (excludeLabels labels : list string) (include : bool) : bool :=
  match excludeLabels with
  | [] => include
  | excludeLabel :: rest =>
      let include := scan_labels excludeLabel labels false include in
      if negb include then include else exclude_loop rest labels include
  end.

(** The body of Filter's outer loop: the final value of [include]. *)
Definition keeps (includeLabels excludeLabels : list string) (ipRange : IPRange) : bool :=
  let include := Nat.eqb (length includeLabels) 0 in
  let include := include_loop includeLabels (Labels ipRange) include in
  exclude_loop excludeLabels (Labels ipRange) include.

(** Filter returns a new IPRangeSet with only ranges that have the
    specified labels. *)
Definition Filter (s : IPRangeSet) (includeLabels excludeLabels : list string) : IPRangeSet :=
  fold_left
    (fun result ipRange =>
       if keeps includeLabels excludeLabels ipRange
       then {| Ranges := Ranges result ++ [ipRange] |}
       else result)
    (Ranges s) NewIPRangeSet.

(** Merge combines this IPRangeSet with another, returning a new set. *)
Definition Merge (s other : IPRangeSet) : IPRangeSet :=
  let result := NewIPRangeSet in
  let result := {| Ranges := Ranges result ++ Ranges s |} in
  {| Ranges := Ranges result ++ Ranges other |}.

(** [m := make(map[string]IPRange); for _, r := range rs { m[r.CIDR] = r }] *)
Definition index_by_cidr (rs : list IPRange) : gmap string IPRange :=
  fold_left (fun m ipRange => <[CIDR ipRange := ipRange]> m) rs ∅.

(** The key/value pairs of a map in the order a [range] visits them. *)
Definition visited_before (a b : string * IPRange) : Prop :=
  (rank a.1 <= rank b.1)%nat.

#[global] Instance visited_before_dec : RelDecision visited_before.
Proof. intros a b. unfold visited_before. apply _. Defined.

Definition range_map (m : gmap string IPRange) : list (string * IPRange) :=
  merge_sort visited_before (map_to_list m).

(** [for cidr, ipRange := range from { if _, exists := against[cidr];
    !exists { out.Ranges = append(out.Ranges, ipRange) } }] *)
Definition missing_from (from against : gmap string IPRange) : IPRangeSet :=
  fold_left
    (fun out kv =>
       match against !! kv.1 with
       | Some _ => out
       | None => {| Ranges := Ranges out ++ [kv.2] |}
       end)
    (range_map from) NewIPRangeSet.

(** Diff compares this IPRangeSet with another, returning added and
    removed ranges. *)
Definition Diff (s other : IPRangeSet) : IPRangeSet * IPRangeSet :=
  let otherMap := index_by_cidr (Ranges other) in
  let thisMap := index_by_cidr (Ranges s) in
  let added := missing_from otherMap thisMap in
  let removed := missing_from thisMap otherMap in
  (added, removed).

(** Count returns the number of IP ranges in the set. *)
Definition Count (s : IPRangeSet) : nat := length (Ranges s).

(** GetCIDRs returns a slice of all CIDRs in the set. *)
Definition GetCIDRs (s : IPRangeSet) : list string := map CIDR (Ranges s).

End Model.
End model.


(* --------------------------------------------------------------------- *)
(* pkg/model over a heap: who allocates, who writes                       *)
(* --------------------------------------------------------------------- *)

(** The methods of pkg/model once more, over a heap of IPRangeSet objects:
    a [*IPRangeSet] is an address and the heap gives the Ranges of the
    object at each allocated address. A method returns [None] where Go
    panics on a nil or dangling receiver. An IPRange is copied by value
    with its slice of labels, which no method writes. *)
Module heap.
Section Heap.
Context {lib : GoLib}.

Abbreviation Heap := (gmap nat (list IPRange)).

(** [&IPRangeSet{Ranges: []IPRange{}}]: a new object at an address that
    is not in use. *)
Definition NewIPRangeSet (h : Heap) : nat * Heap :=
  let p := fresh (dom h) in (p, <[p := []]> h).

(** [p.Ranges = append(p.Ranges, rs...)] *)
Definition append_to (p : nat) (rs : list IPRange) (h : Heap) : option Heap :=
  match h !! p with
  | Some old => Some (<[p := (old ++ rs)%list]> h)
  | None => None
  end.

(** A [for] loop whose body changes the heap. *)
Fixpoint for_each {A} (body : A -> Heap -> option Heap) (l : list A) (h : Heap)
  : option Heap :=
  match l with
  | [] => Some h
  | x :: rest =>
      match body x h with
      | Some h => for_each body rest h
      | None => None
      end
  end.

Definition Filter (s : nat) (includeLabels excludeLabels : list string) (h : Heap)
  : option (nat * Heap) :=
  let (result, h) := NewIPRangeSet h in
  match h !! s with
  | None => None
  | Some ranges =>
      match for_each
              (fun ipRange h =>
                 if model.keeps includeLabels excludeLabels ipRange
                 then append_to result [ipRange] h
                 else Some h)
              ranges h with
      | Some h => Some (result, h)
      | None => None
      end
  end.

Definition Merge (s other : nat) (h : Heap) : option (nat * Heap) :=
  let (result, h) := NewIPRangeSet h in
  match h !! s with
  | None => None
  | Some ranges =>
      match append_to result ranges h with
      | None => None
      | Some h =>
          match h !! other with
          | None => None
          | Some ranges =>
              match append_to result ranges h with
              | Some h => Some (result, h)
              | None => None
              end
          end
      end
  end.

(** The two loops of Diff over a map. *)
Definition append_missing (out : nat) (from against : gmap string IPRange) (h : Heap)
  : option Heap :=
  for_each
    (fun (kv : string * IPRange) h =>
       match against !! kv.1 with
       | Some _ => Some h
       | None => append_to out [kv.2] h
       end)
    (model.range_map from) h.

Definition Diff (s other : nat) (h : Heap) : option (nat * nat * Heap) :=
  let (added, h) := NewIPRangeSet h in
  let (removed, h) := NewIPRangeSet h in
  match h !! other with
  | None => None
  | Some otherRanges =>
      let otherMap := model.index_by_cidr otherRanges in
      match h !! s with
      | None => None
      | Some thisRanges =>
          let thisMap := model.index_by_cidr thisRanges in
          match append_missing added otherMap thisMap h with
          | None => None
          | Some h =>
              match append_missing removed thisMap otherMap h with
              | Some h => Some (added, removed, h)
              | None => None
              end
          end
      end
  end.

End Heap.
End heap.

(* --------------------------------------------------------------------- *)
(* pkg/apis/ingressmetasync/v1alpha1: the declared resources              *)
(* --------------------------------------------------------------------- *)

Module v1alpha1.

(** SecretReference points to the Kubernetes Secret being used. *)
Record SecretReference := mkSecretReference {
  sr_Name : string;
  sr_Namespace : string;
  sr_Key : string
}.

Record GitHubProviderConfig := mkGitHubProviderConfig {
  gh_Enterprise : bool;
  gh_API_SecretRef : SecretReference;
  gh_PollingInterval : string
}.

Record AWSProviderConfig := mkAWSProviderConfig {
  aws_API_SecretRef : SecretReference;
  aws_Services : list string;
  aws_Regions : list string;
  aws_PollingInterval : string
}.

(** ProviderConfig: metadata name and spec; [None] is a nil pointer. *)
Record ProviderConfig := mkProviderConfig {
  pc_Name : string;
  pc_Type : string;
  pc_GitHub : option GitHubProviderConfig;
  pc_AWS : option AWSProviderConfig
}.

Record CloudflareRuleConfig := mkCloudflareRuleConfig {
  rc_ZoneID : string;
  rc_RuleName : string;
  rc_Description : string;
  rc_Action : string;
  rc_Priority : Z
}.

Record CloudflareIngressConfig := mkCloudflareIngressConfig {
  cf_API_SecretRef : SecretReference;
  cf_RuleConfig : CloudflareRuleConfig;
  cf_UpdateStrategy : string
}.

Record XForwardedForConfig := mkXForwardedForConfig {
  xff_Enabled : bool;
  xff_HeaderName : string
}.

Record GatewaySelector := mkGatewaySelector {
  gw_Name : string;
  gw_Namespace : string;
  gw_Labels : gmap string string
}.

Record IstioIngressConfig := mkIstioIngressConfig {
  is_Namespace : string;
  is_XForwardedForConfig : XForwardedForConfig;
  is_GatewaySelector : GatewaySelector
}.

Record IngressConfig := mkIngressConfig {
  ic_Name : string;
  ic_Type : string;
  ic_Cloudflare : option CloudflareIngressConfig;
  ic_Istio : option IstioIngressConfig
}.

(** ProviderReference references a ProviderConfig. *)
Record ProviderReference := mkProviderReference {
  pr_Name : string;
  IncludeRanges : list string;
  ExcludeRanges : list string
}.

(** IngressReference references an IngressConfig. *)
Record IngressReference := mkIngressReference {
  ir_Name : string
}.

Record RetryConfig := mkRetryConfig {
  MaxRetries : Z;
  BackoffMultiplier : Z;
  InitialDelaySeconds : Z
}.

(** SyncPolicy defines how to handle sync failures and retries. *)
Record SyncPolicy := mkSyncPolicy {
  FailureMode : string;
  RetryConfig_ : option RetryConfig
}.

Record SyncConfigSpec := mkSyncConfigSpec {
  Providers : list ProviderReference;
  Ingress : list IngressReference;
  SyncPolicy_ : option SyncPolicy
}.

(** ProviderSyncStatus and IngressSyncStatus have the same fields; times
    are nanoseconds on the clock of the run. *)
Record ItemSyncStatus := mkItemSyncStatus {
  st_Name : string;
  st_LastSyncTime : option Z;
  st_Status : string;
  st_IPRangesCount : Z;
  st_Error : string
}.

Inductive ConditionStatus := ConditionTrue | ConditionFalse | ConditionUnknown.

(** metav1.Condition *)
Record Condition := mkCondition {
  Type_ : string;
  Status_ : ConditionStatus;
  LastTransitionTime : Z;
  Reason : string;
  Message : string
}.

Record SyncConfigStatus := mkSyncConfigStatus {
  LastSyncTime : option Z;
  LastSuccessfulSync : option Z;
  ProviderStatus : list ItemSyncStatus;
  IngressStatus : list ItemSyncStatus;
  Conditions : list Condition    (* a nil slice and an empty one agree on len, range and append *)
}.

Record SyncConfig := mkSyncConfig {
  sc_Name : string;
  Spec : SyncConfigSpec;
  Status : SyncConfigStatus
}.

#[global] Instance ConditionStatus_eq_dec : EqDecision ConditionStatus.
Proof. solve_decision. Defined.

End v1alpha1.


(* --------------------------------------------------------------------- *)
(* The external collaborators: clock, HTTP transport, Kubernetes client   *)
(* --------------------------------------------------------------------- *)

Module wire.

(** Filter represents a Cloudflare firewall filter. *)
Record Filter := mkFilter {
  ID : string;
  Expression : string;
  Paused : bool;
  Description : string
}.

(** CloudflareRule represents a Cloudflare firewall rule. *)
Record CloudflareRule := mkCloudflareRule {
  rule_ID : string;
  rule_Paused : bool;
  rule_Description : string;
  rule_Action : string;
  rule_Priority : Z;
  rule_Filter : Filter
}.

Record CloudflareError := mkCloudflareError {
  Code : Z;
  Message : string
}.

(** json.RawMessage, by what json.Unmarshal makes of it at the two types
    the package decodes it to. *)
Record RawMessage := mkRawMessage {
  Unmarshal_Filters : result (list Filter);
  Unmarshal_Filter : result Filter
}.

(** CloudflareResponse represents a response from the Cloudflare API. *)
Record CloudflareResponse := mkCloudflareResponse {
  Success : bool;
  Errors : list CloudflareError;
  Messages : list string;
  Result : RawMessage
}.

(** GitHubIPMetadata represents the structure of GitHub's IP metadata
    response. *)
Record GitHubIPMetadata := mkGitHubIPMetadata {
  Hooks : list string;
  Web : list string;
  API : list string;
  Git : list string;
  Pages : list string;
  Importer : list string;
  Actions : list string;
  Dependabot : list string
}.

(** The body of a request, before json.Marshal. *)
Inductive Payload :=
| NoBody
| FilterList (l : list Filter)
| OneFilter (f : Filter)
| RuleList (l : list CloudflareRule).

Record Request := mkRequest {
  Method : string;
  URL : string;
  Header : list (string * string);
  Body : Payload
}.

(** An HTTP response: the status code, the bytes of the body as
    io.ReadAll returns them, and what a json.Decoder makes of the body at
    the two types the packages decode it to. *)
Record Response := mkResponse {
  StatusCode : Z;
  Text : string;
  Decode_CloudflareResponse : result CloudflareResponse;
  Decode_GitHubIPMetadata : result GitHubIPMetadata
}.

(** corev1.ConfigMap and corev1.Secret, by the fields the code reads and
    writes; [cm_Data = None] is a nil map. *)
Record ConfigMap := mkConfigMap {
  cm_Name : string;
  cm_Namespace : string;
  cm_Labels : gmap string string;
  cm_Data : option (gmap string string)
}.

Record Secret := mkSecret {
  Data : gmap string string
}.

(** The unstructured EnvoyFilter object: name, namespace, labels and the
    parts of its spec that vary (workload selector labels, the header
    name and the prefix ranges that generateLuaCode prints into the
    inline Lua code). *)
Record EnvoyFilter := mkEnvoyFilter {
  ef_Name : string;
  ef_Namespace : string;
  ef_Labels : gmap string string;
  ef_selector : gmap string string;
  ef_headerName : string;
  ef_cidrMatches : list string
}.

End wire.

(** The world outside the process. [Ext] is its state; every operation
    may change it. [elapse] is the time that passes up to the next reading
    of the clock or the next external call, in nanoseconds: the clock
    never runs backwards. An operation that fails returns the error the Go
    call returns. [client_New] is client.New on the configuration of the
    cluster, [IsNotFound] is errors.IsNotFound of apimachinery. *)
Class Env := {
  Ext : Type;
  elapse : Ext -> N * Ext;
  http_Do : wire.Request -> Ext -> result wire.Response * Ext;
  Get_Secret : string -> string -> Ext -> result wire.Secret * Ext;
  Get_ConfigMap : string -> string -> Ext -> result wire.ConfigMap * Ext;
  Create_ConfigMap : wire.ConfigMap -> Ext -> option error * Ext;
  Update_ConfigMap : wire.ConfigMap -> Ext -> option error * Ext;
  Get_EnvoyFilter : string -> string -> Ext -> result wire.EnvoyFilter * Ext;
  Create_EnvoyFilter : wire.EnvoyFilter -> Ext -> option error * Ext;
  Update_EnvoyFilter : wire.EnvoyFilter -> Ext -> option error * Ext;
  Get_SyncConfig : string -> string -> Ext -> result v1alpha1.SyncConfig * Ext;
  Get_ProviderConfig : string -> Ext -> result v1alpha1.ProviderConfig * Ext;
  Get_IngressConfig : string -> Ext -> result v1alpha1.IngressConfig * Ext;
  Status_Update : v1alpha1.SyncConfig -> Ext -> option error * Ext;
  client_New : Ext -> option error * Ext;
  IsNotFound : error -> bool
}.

(** What the process does to the world, in order. *)
Inductive Event :=
| EvHttp (req : wire.Request)
| EvGet (kind namespace name : string)
| EvCreateConfigMap (cm : wire.ConfigMap)
| EvUpdateConfigMap (cm : wire.ConfigMap)
| EvCreateEnvoyFilter (ef : wire.EnvoyFilter)
| EvUpdateEnvoyFilter (ef : wire.EnvoyFilter)
| EvStatusUpdate (sc : v1alpha1.SyncConfig).

(** An external write call: an HTTP request that is not a GET, or a
    create or update through the Kubernetes client of a target. *)
Definition is_write (ev : Event) : bool :=
  match ev with
  | EvHttp req => negb (String.eqb (wire.Method req) "GET")
  | EvCreateConfigMap _ | EvUpdateConfigMap _
  | EvCreateEnvoyFilter _ | EvUpdateEnvoyFilter _ => true
  | _ => false
  end.

Definition writes (tr : list Event) : list Event := List.filter is_write tr.

(** An upstream request of a source or target: any HTTP request. *)
Definition is_http (ev : Event) : bool :=
  match ev with EvHttp _ => true | _ => false end.

Module rt.

(** A computation that changes a state of type [S] and returns a value. *)
Definition St (S A : Type) : Type := S -> A * S.

Definition ret {S A} (a : A) : St S A := fun s => (a, s).

Definition bind {S A B} (m : St S A) (k : A -> St S B) : St S B :=
  fun s => let (a, s1) := m s in k a s1.

Section Runtime.
Context {env : Env}.

(** The process sees the world as a clock, the state of the
    collaborators and the trace of what it did to them so far. *)
Record World := mkWorld {
  now : Z;
  ext : Ext;
  trace : list Event
}.

(** The computations of the providers and targets. *)
Definition M (A : Type) : Type := St World A.

(** Time passes, by as much as the world decides. *)
Definition pass : M unit :=
  fun w =>
    let (dt, e) := elapse (ext w) in
    (tt, {| now := now w + Z.of_N dt; ext := e; trace := trace w |}).

(** time.Now() *)
Definition time_Now : M Z :=
  bind pass (fun _ w => (now w, w)).

(** time.Since(t) *)
Definition time_Since (t : Z) : M Z :=
  bind time_Now (fun n => ret (n - t)).

(** An external call: time passes, the call is recorded, the world
    answers. *)
Definition call {A} (ev : Event) (op : Ext -> A * Ext) : M A :=
  bind pass (fun _ w =>
    let (a, e) := op (ext w) in
    (a, {| now := now w; ext := e; trace := trace w ++ [ev] |})).

(** [if data != nil && time.Since(lastFetch) < cacheTTL]: the memo when it
    is fresh. The clock is read only when there is a memo. Durations are
    integers without the saturation of time.Duration. *)
Definition cache_hit (cachedData : option IPRangeSet) (lastFetch cacheTTL : Z)
  : M (option IPRangeSet) :=
  match cachedData with
  | None => ret None
  | Some data =>
      bind (time_Since lastFetch) (fun age =>
        ret (if age <? cacheTTL then Some data else None))
  end.

End Runtime.
End rt.

Notation "'let*' p ':=' m 'in' k" := (rt.bind m (fun p => k))
  (at level 10, p pattern, m at level 100, k at level 200).

(** The dynamically typed values of an options map
    (map[string]interface{}), by the types the controller stores. *)
Inductive Value :=
| VString (s : string)
| VBool (b : bool)
| VInt32 (z : Z)
| VStrings (l : list string)
| VLabels (m : gmap string string)
| VXff (enabled : bool) (headerName : string)
| VGateway (name namespace : string) (labels : gmap string string).

Abbreviation Options := (gmap string Value).

(** [v, ok := options[key].(string)] and its like. *)
Definition as_string (o : option Value) : option string :=
  match o with Some (VString s) => Some s | _ => None end.
Definition as_bool (o : option Value) : option bool :=
  match o with Some (VBool b) => Some b | _ => None end.
Definition as_int32 (o : option Value) : option Z :=
  match o with Some (VInt32 z) => Some z | _ => None end.

Definition minute : Z := 60 * 1000000000.
Definition hour : Z := 60 * minute.

(* --------------------------------------------------------------------- *)
(* pkg/providers/github                                                   *)
(* --------------------------------------------------------------------- *)

Module github.
Section GitHub.
Context {lib : GoLib} {env : Env}.
Import rt wire.

(** GitHubProvider implements the Provider interface for GitHub IP
    ranges. The mutex and the HTTP client are not fields of the model:
    calls are sequential and the client is the world's [http_Do]. *)
Record GitHubProvider := mkGitHubProvider {
  name : string;
  enterprise : bool;
  apiToken : string;
  cacheTTL : Z;
  lastFetch : Z;
  cachedData : option IPRangeSet;
  githubAPIURL : string
}.

(** The zero value that the registered factory returns. *)
Definition zero : GitHubProvider :=
  {| name := ""; enterprise := false; apiToken := ""; cacheTTL := 0;
     lastFetch := 0; cachedData := None; githubAPIURL := "" |}.

(** Init initializes the GitHub provider with options. *)
Definition Init (p : GitHubProvider) (options : Options) : GitHubProvider * option error :=
  let name := match as_string (options !! "name") with
              | Some name => name | None => "github" end in
  let enterprise := match as_bool (options !! "enterprise") with
                    | Some enterprise => enterprise | None => true end in
  let apiToken := match as_string (options !! "apiToken") with
                  | Some apiToken => apiToken | None => apiToken p end in
  let p1 := {| name := name; enterprise := enterprise; apiToken := apiToken;
               cacheTTL := 15 * minute; lastFetch := lastFetch p;
               cachedData := cachedData p;
               githubAPIURL := "https://api.github.com/meta" |} in
  let with_url (p : GitHubProvider) :=
    match as_string (options !! "apiURL") with
    | Some apiURL =>
        if String.eqb apiURL "" then p
        else {| name := name; enterprise := enterprise; apiToken := apiToken;
                cacheTTL := cacheTTL p; lastFetch := lastFetch p;
                cachedData := cachedData p; githubAPIURL := apiURL |}
    | None => p
    end in
  match as_string (options !! "cacheTTL") with
  | Some cacheTTL =>
      match ParseDuration cacheTTL with
      | Err err => (p1, Some ("invalid cacheTTL format: " ++ err))
      | Ok duration =>
          (with_url {| name := name; enterprise := enterprise; apiToken := apiToken;
                       cacheTTL := duration; lastFetch := lastFetch p;
                       cachedData := cachedData p;
                       githubAPIURL := "https://api.github.com/meta" |}, None)
      end
  | None => (with_url p1, None)
  end.

(** Convert to our model. *)
Definition convert (metadata : GitHubIPMetadata) : IPRangeSet :=
  let ipRangeSet := model.NewIPRangeSet in
  let ipRangeSet := model.add_each ["hooks"] (Hooks metadata) ipRangeSet in
  let ipRangeSet := model.add_each ["web"] (Web metadata) ipRangeSet in
  let ipRangeSet := model.add_each ["api"] (API metadata) ipRangeSet in
  let ipRangeSet := model.add_each ["git"] (Git metadata) ipRangeSet in
  let ipRangeSet := model.add_each ["pages"] (Pages metadata) ipRangeSet in
  let ipRangeSet := model.add_each ["importer"] (Importer metadata) ipRangeSet in
  let ipRangeSet := model.add_each ["actions"] (Actions metadata) ipRangeSet in
  model.add_each ["dependabot"] (Dependabot metadata) ipRangeSet.

Definition request (p : GitHubProvider) : Request :=
  {| Method := "GET"; URL := githubAPIURL p;
     Header := ("Accept", "application/json")
               :: (if String.eqb (apiToken p) "" then []
                   else [("Authorization", "token " ++ apiToken p)]);
     Body := NoBody |}.

Definition update_cache (p : GitHubProvider) (data : IPRangeSet) (t : Z) : GitHubProvider :=
  {| name := name p; enterprise := enterprise p; apiToken := apiToken p;
     cacheTTL := cacheTTL p; lastFetch := t; cachedData := Some data;
     githubAPIURL := githubAPIURL p |}.

(** FetchIPRanges fetches IP ranges from GitHub. *)
Definition FetchIPRanges (p : GitHubProvider) : M (result IPRangeSet * GitHubProvider) :=
  (* Check if we have a valid cache *)
  let* hit := cache_hit (cachedData p) (lastFetch p) (cacheTTL p) in
  match hit with
  | Some data => ret (Ok data, p)
  | None =>
  (* Double-check cache under write lock *)
  let* hit := cache_hit (cachedData p) (lastFetch p) (cacheTTL p) in
  match hit with
  | Some data => ret (Ok data, p)
  | None =>
  (* Create the request *)
  match url_error (githubAPIURL p) with
  | Some err => ret (Err ("error creating request: " ++ err), p)
  | None =>
  (* Make the request *)
  let* r := call (EvHttp (request p)) (http_Do (request p)) in
  match r with
  | Err err => ret (Err ("error fetching GitHub IP ranges: " ++ err), p)
  | Ok resp =>
  if negb (StatusCode resp =? 200)
  then ret (Err ("GitHub API returned non-OK status: " ++ pretty (StatusCode resp)
                 ++ ", body: " ++ Text resp), p)
  else
  (* Read and parse the response *)
  match Decode_GitHubIPMetadata resp with
  | Err err => ret (Err ("error decoding GitHub IP metadata: " ++ err), p)
  | Ok metadata =>
  let ipRangeSet := convert metadata in
  (* Update cache *)
  let* t := time_Now in
  ret (Ok ipRangeSet, update_cache p ipRangeSet t)
  end end end end end.

End GitHub.
End github.

(* --------------------------------------------------------------------- *)
(* pkg/ingress/cloudflare                                                 *)
(* --------------------------------------------------------------------- *)

Module cloudflare.
Section Cloudflare.
Context {lib : GoLib} {env : Env}.
Import rt wire.

(** CloudflareIngress implements the Ingress interface for Cloudflare. *)
Record CloudflareIngress := mkCloudflareIngress {
  name : string;
  apiToken : string;
  zoneID : string;
  ruleName : string;
  description : string;
  action : string;
  priority : Z;
  updateStrategy : string;
  cacheTTL : Z;
  lastFetch : Z;
  cachedData : option IPRangeSet
}.

Definition zero : CloudflareIngress :=
  {| name := ""; apiToken := ""; zoneID := ""; ruleName := ""; description := "";
     action := ""; priority := 0; updateStrategy := ""; cacheTTL := 0;
     lastFetch := 0; cachedData := None |}.

(** Init initializes the Cloudflare ingress with options. The fields are
    assigned in the order of the source, so that an early error return
    leaves the later ones as they were. *)
Definition Init (c : CloudflareIngress) (options : Options) : CloudflareIngress * option error :=
  (* Default values *)
  let action0 := "allow" in
  let cacheTTL0 := 1 * hour in
  let updateStrategy0 := "direct" in
  let name := match as_string (options !! "name") with
              | Some name => name | None => "cloudflare" end in
  let mk apiToken zoneID ruleName description action priority updateStrategy cacheTTL :=
    {| name := name; apiToken := apiToken; zoneID := zoneID; ruleName := ruleName;
       description := description; action := action; priority := priority;
       updateStrategy := updateStrategy; cacheTTL := cacheTTL;
       lastFetch := lastFetch c; cachedData := cachedData c |} in
  (* Required options *)
  match as_string (options !! "apiToken") with
  | None => (mk (apiToken c) (zoneID c) (ruleName c) (description c) action0
                (priority c) updateStrategy0 cacheTTL0,
             Some "apiToken is required")
  | Some apiToken =>
  match as_string (options !! "zoneId") with
  | None => (mk apiToken (zoneID c) (ruleName c) (description c) action0
                (priority c) updateStrategy0 cacheTTL0,
             Some "zoneId is required")
  | Some zoneID =>
  match as_string (options !! "ruleName") with
  | None => (mk apiToken zoneID (ruleName c) (description c) action0
                (priority c) updateStrategy0 cacheTTL0,
             Some "ruleName is required")
  | Some ruleName =>
  (* Optional options *)
  let description := match as_string (options !! "description") with
                     | Some description => description
                     | None => "Auto-managed IP ranges by k8s-ingress-meta-sync" end in
  let action := match as_string (options !! "action") with
                | Some action => action | None => action0 end in
  let priority := match as_int32 (options !! "priority") with
                  | Some priority => priority | None => priority c end in
  let updateStrategy := match as_string (options !! "updateStrategy") with
                        | Some updateStrategy => updateStrategy
                        | None => updateStrategy0 end in
  match as_string (options !! "cacheTTL") with
  | Some cacheTTL =>
      match ParseDuration cacheTTL with
      | Err err => (mk apiToken zoneID ruleName description action priority
                       updateStrategy cacheTTL0,
                    Some ("invalid cacheTTL format: " ++ err))
      | Ok duration => (mk apiToken zoneID ruleName description action priority
                           updateStrategy duration, None)
      end
  | None => (mk apiToken zoneID ruleName description action priority
                updateStrategy cacheTTL0, None)
  end end end end.

Definition update_cache (c : CloudflareIngress) (data : IPRangeSet) (t : Z) : CloudflareIngress :=
  {| name := name c; apiToken := apiToken c; zoneID := zoneID c; ruleName := ruleName c;
     description := description c; action := action c; priority := priority c;
     updateStrategy := updateStrategy c; cacheTTL := cacheTTL c;
     lastFetch := t; cachedData := Some data |}.

(** [openBrace := 0; for i, char := range expression { if char == '{' {
    openBrace = i; break } }]: the byte offset of the first opening brace,
    0 when there is none. The byte 0x7B is never part of a longer UTF-8
    sequence, so the scan by runes stops where the scan by bytes does. *)
Fixpoint find_open (expression : string) (i : nat) : nat :=
  match expression with
  | EmptyString => 0%nat
  | String char rest =>
      if Ascii.eqb char "{" then i else find_open rest (S i)
  end.

(** [closeBrace := 0; for i := len(expression) - 1; i >= 0; i-- { if
    expression[i] == '}' { closeBrace = i; break } }]: the offset of the
    last closing brace, 0 when there is none; [i] is the offset of the
    first byte of [expression]. *)
Fixpoint find_close (expression : string) (i : nat) : nat :=
  match expression with
  | EmptyString => 0%nat
  | String char rest =>
      match find_close rest (S i) with
      | O => if Ascii.eqb char "}" then i else 0%nat
      | S j => S j
      end
  end.

(** The white space of bytes.Fields on ASCII input. *)
Definition isSpace (c : ascii) : bool :=
  let n := nat_of_ascii c in
  (Nat.eqb n 9 || Nat.eqb n 10 || Nat.eqb n 11 || Nat.eqb n 12
   || Nat.eqb n 13 || Nat.eqb n 32)%nat.

(** bytes.Fields: the maximal runs of bytes that are not white space.
    [field] is the run being read. The model is that of the function on
    input without a byte above 0x7F; on other input Go also splits at the
    Unicode white space. *)
Fixpoint Fields_from (s : string) (field : string) : list string :=
  match s with
  | EmptyString => if String.eqb field "" then [] else [field]
  | String c rest =>
      if isSpace c
      then (if String.eqb field "" then Fields_from rest ""
            else field :: Fields_from rest "")
      else Fields_from rest (field ++ String c "")
  end.

Definition Fields (s : string) : list string := Fields_from s "".

(** parseFilterExpression parses a Cloudflare filter expression to extract
    IP ranges. *)
Definition parseFilterExpression (expression : string) : IPRangeSet :=
  let ipRangeSet := model.NewIPRangeSet in
  let openBrace := find_open expression 0 in
  let closeBrace := find_close expression 0 in
  if (Nat.eqb openBrace 0 || Nat.eqb closeBrace 0 || Nat.leb closeBrace openBrace)%nat
  then ipRangeSet
  else
    (* Extract the CIDRs *)
    let cidrsStr := substring (openBrace + 1) (closeBrace - (openBrace + 1)) expression in
    let cidrs := Fields cidrsStr in
    (* Add to the IP range set *)
    model.add_each ["cloudflare"] cidrs ipRangeSet.

(** [cidrList := ""; for i, cidr := range cidrs { if i > 0 { cidrList += " " };
    cidrList += cidr }] *)
Fixpoint join_cidrs (cidrs : list string) (i : nat) (cidrList : string) : string :=
  match cidrs with
  | [] => cidrList
  | cidr :: rest =>
      let cidrList := if Nat.ltb 0 i then cidrList ++ " " else cidrList in
      join_cidrs rest (S i) (cidrList ++ cidr)
  end.

(** buildFilterExpression builds a Cloudflare filter expression from IP
    ranges. *)
Definition buildFilterExpression (ipRanges : IPRangeSet) : string :=
  let cidrs := model.GetCIDRs ipRanges in
  if Nat.eqb (length cidrs) 0
  then "(ip.src eq 0.0.0.0/32)"
  else "(ip.src in {" ++ join_cidrs cidrs 0 "" ++ "})".

Definition headers (c : CloudflareIngress) : list (string * string) :=
  [("Authorization", "Bearer " ++ apiToken c); ("Content-Type", "application/json")].

(** The %v of a []CloudflareError. *)
Fixpoint fmt_errors_from (errs : list CloudflareError) : string :=
  match errs with
  | [] => ""
  | [e] => "{" ++ pretty (Code e) ++ " " ++ Message e ++ "}"
  | e :: rest => "{" ++ pretty (Code e) ++ " " ++ Message e ++ "} " ++ fmt_errors_from rest
  end.
Definition fmt_errors (errs : list CloudflareError) : string :=
  "[" ++ fmt_errors_from errs ++ "]".

(** What every call of the package does with the transport: build the
    request, send it, check the status, decode the envelope and check its
    success flag. [what] is the wording of the transport error. *)
Definition exchange (what : string) (req : Request) : M (result CloudflareResponse) :=
  match url_error (URL req) with
  | Some err => ret (Err ("error creating request: " ++ err))
  | None =>
  let* r := call (EvHttp req) (http_Do req) in
  match r with
  | Err err => ret (Err (what ++ ": " ++ err))
  | Ok resp =>
  if negb (StatusCode resp =? 200)
  then ret (Err ("API returned non-OK status: " ++ pretty (StatusCode resp)
                 ++ ", body: " ++ Text resp))
  else
  match Decode_CloudflareResponse resp with
  | Err err => ret (Err ("error decoding response: " ++ err))
  | Ok response =>
  if negb (Success response)
  then ret (Err ("API request was not successful: " ++ fmt_errors (Errors response)))
  else ret (Ok response)
  end end end.

(** [for _, filter := range filters { if filter.Description == c.ruleName
    { return filter.ID, nil } }; return "", nil] *)
Fixpoint find_by_description (ruleName : string) (filters : list Filter) : string :=
  match filters with
  | [] => ""
  | filter :: rest =>
      if String.eqb (Description filter) ruleName then ID filter
      else find_by_description ruleName rest
  end.

(** findFilterID finds the filter ID for the given rule name. *)
Definition findFilterID (c : CloudflareIngress) : M (result string) :=
  let url := "https://api.cloudflare.com/client/v4/zones/" ++ zoneID c ++ "/filters" in
  let req := {| Method := "GET"; URL := url; Header := headers c; Body := NoBody |} in
  let* r := exchange "error getting filters" req in
  match r with
  | Err err => ret (Err err)
  | Ok response =>
      match Unmarshal_Filters (Result response) with
      | Err err => ret (Err ("error unmarshaling filters: " ++ err))
      | Ok filters => ret (Ok (find_by_description (ruleName c) filters))
      end
  end.

(** getFilterDetails gets the details of a filter. *)
Definition getFilterDetails (c : CloudflareIngress) (filterID : string) : M (result Filter) :=
  let url := "https://api.cloudflare.com/client/v4/zones/" ++ zoneID c
             ++ "/filters/" ++ filterID in
  let req := {| Method := "GET"; URL := url; Header := headers c; Body := NoBody |} in
  let* r := exchange "error getting filter details" req in
  match r with
  | Err err => ret (Err err)
  | Ok response =>
      match Unmarshal_Filter (Result response) with
      | Err err => ret (Err ("error unmarshaling filter: " ++ err))
      | Ok filter => ret (Ok filter)
      end
  end.

(** GetCurrentIPRanges gets the current IP ranges configured in
    Cloudflare. *)
Definition GetCurrentIPRanges (c : CloudflareIngress)
  : M (result IPRangeSet * CloudflareIngress) :=
  (* Check if we have a valid cache *)
  let* hit := cache_hit (cachedData c) (lastFetch c) (cacheTTL c) in
  match hit with
  | Some data => ret (Ok data, c)
  | None =>
  (* Double-check cache under write lock *)
  let* hit := cache_hit (cachedData c) (lastFetch c) (cacheTTL c) in
  match hit with
  | Some data => ret (Ok data, c)
  | None =>
  (* First, get all filters to find our filter *)
  let* r := findFilterID c in
  match r with
  | Err err => ret (Err err, c)
  | Ok filterID =>
  if String.eqb filterID ""
  then
    (* Filter doesn't exist yet, return empty set *)
    let emptySet := model.NewIPRangeSet in
    let* t := time_Now in
    ret (Ok emptySet, update_cache c emptySet t)
  else
  (* Get the filter details *)
  let* r := getFilterDetails c filterID in
  match r with
  | Err err => ret (Err err, c)
  | Ok filterDetails =>
  (* Parse the filter expression to extract IP ranges *)
  let ipRanges := parseFilterExpression (Expression filterDetails) in
  (* Update cache *)
  let* t := time_Now in
  ret (Ok ipRanges, update_cache c ipRanges t)
  end end end end.

(** The block under "Update cache" of createFirewallRule and updateRule:
    the CIDRs parsed from [expression] are added to a new set, which
    becomes the memo. *)
Definition refresh_cache (c : CloudflareIngress) (expression : string)
  : M CloudflareIngress :=
  let ipRangeSet := model.NewIPRangeSet in
  let ipRangeSet :=
    model.add_each ["cloudflare"] (model.GetCIDRs (parseFilterExpression expression))
      ipRangeSet in
  let* t := time_Now in
  ret (update_cache c ipRangeSet t).

(** createFirewallRule creates a new Cloudflare firewall rule. *)
Definition createFirewallRule (c : CloudflareIngress) (filterID : string)
  : M (option error * CloudflareIngress) :=
  let url := "https://api.cloudflare.com/client/v4/zones/" ++ zoneID c
             ++ "/firewall/rules" in
  let rule := {| rule_ID := ""; rule_Paused := false;
                 rule_Description := description c; rule_Action := action c;
                 rule_Priority := priority c;
                 rule_Filter := {| ID := filterID; Expression := ""; Paused := false;
                                   Description := "" |} |} in
  let req := {| Method := "POST"; URL := url; Header := headers c;
                Body := RuleList [rule] |} in
  let* r := exchange "error creating firewall rule" req in
  match r with
  | Err err => ret (Some err, c)
  | Ok _ =>
      (* Update cache *)
      let* c := refresh_cache c (Expression (rule_Filter rule)) in
      ret (None, c)
  end.

(** createRule creates a new Cloudflare firewall rule. *)
Definition createRule (c : CloudflareIngress) (expression : string)
  : M (option error * CloudflareIngress) :=
  let url := "https://api.cloudflare.com/client/v4/zones/" ++ zoneID c ++ "/filters" in
  (* Create filter first *)
  let filter := {| ID := ""; Expression := expression; Paused := false;
                   Description := ruleName c |} in
  let req := {| Method := "POST"; URL := url; Header := headers c;
                Body := FilterList [filter] |} in
  let* r := exchange "error creating filter" req in
  match r with
  | Err err => ret (Some err, c)
  | Ok response =>
      match Unmarshal_Filters (Result response) with
      | Err err => ret (Some ("error unmarshaling filters: " ++ err), c)
      | Ok [] => ret (Some "no filter was created", c)
      | Ok (first :: _) =>
          (* Now create the rule *)
          createFirewallRule c (ID first)
      end
  end.

(** updateRule updates an existing Cloudflare firewall rule. *)
Definition updateRule (c : CloudflareIngress) (filterID expression : string)
  : M (option error * CloudflareIngress) :=
  let url := "https://api.cloudflare.com/client/v4/zones/" ++ zoneID c
             ++ "/filters/" ++ filterID in
  let filter := {| ID := filterID; Expression := expression; Paused := false;
                   Description := "" |} in
  let req := {| Method := "PUT"; URL := url; Header := headers c;
                Body := OneFilter filter |} in
  let* r := exchange "error updating filter" req in
  match r with
  | Err err => ret (Some err, c)
  | Ok _ =>
      (* Update cache *)
      let* c := refresh_cache c expression in
      ret (None, c)
  end.

(** createOrUpdateRule creates or updates a Cloudflare firewall rule. *)
Definition createOrUpdateRule (c : CloudflareIngress) (ipRanges : IPRangeSet)
  : M (option error * CloudflareIngress) :=
  (* Check if rule already exists *)
  let* r := findFilterID c in
  match r with
  | Err err => ret (Some ("error finding filter ID: " ++ err), c)
  | Ok filterID =>
      (* Build the expression *)
      let expression := buildFilterExpression ipRanges in
      if String.eqb filterID ""
      then createRule c expression
      else updateRule c filterID expression
  end.

(** ApplyIPRanges applies the given IP ranges to Cloudflare. *)
Definition ApplyIPRanges (c : CloudflareIngress) (ipRanges : IPRangeSet)
  : M (option error * CloudflareIngress) :=
  (* Get current IP ranges for diff *)
  let* (r, c) := GetCurrentIPRanges c in
  match r with
  | Err err => ret (Some ("error getting current IP ranges: " ++ err), c)
  | Ok currentRanges =>
      let (added, removed) := model.Diff currentRanges ipRanges in
      (* If no changes, we're done *)
      if (Nat.eqb (model.Count added) 0 && Nat.eqb (model.Count removed) 0)%bool
      then ret (None, c)
      else
        (* Based on update strategy *)
        if (String.eqb (updateStrategy c) "direct"
            || Nat.eqb (model.Count currentRanges) 0)%bool
        then createOrUpdateRule c ipRanges
        else if String.eqb (updateStrategy c) "incremental"
        then createOrUpdateRule c ipRanges
        else ret (Some ("unknown update strategy: " ++ updateStrategy c), c)
  end.

End Cloudflare.
End cloudflare.

(* --------------------------------------------------------------------- *)
(* pkg/ingress/istio                                                      *)
(* --------------------------------------------------------------------- *)

Module istio.
Section Istio.
Context {lib : GoLib} {env : Env}.
Import rt wire.

(** IstioIngress implements the Ingress interface for Istio. *)
Record IstioIngress := mkIstioIngress {
  name : string;
  namespace : string;
  xForwardedFor : bool;
  xForwardedForName : string;
  gatewayName : string;
  gatewayNamespace : string;
  gatewayLabels : gmap string string;
  resourceName : string;
  cacheTTL : Z;
  lastFetch : Z;
  cachedData : option IPRangeSet
}.

Definition zero : IstioIngress :=
  {| name := ""; namespace := ""; xForwardedFor := false; xForwardedForName := "";
     gatewayName := ""; gatewayNamespace := ""; gatewayLabels := ∅;
     resourceName := ""; cacheTTL := 0; lastFetch := 0; cachedData := None |}.

Definition nonempty_string (o : option Value) : option string :=
  match as_string o with
  | Some s => if String.eqb s "" then None else Some s
  | None => None
  end.

(** Init initializes the Istio ingress with options. ctrl.GetConfigOrDie
    returns a configuration or ends the process; the model is of a
    process that goes on. *)
Definition Init (i : IstioIngress) (options : Options) : M (option error * IstioIngress) :=
  let name := match as_string (options !! "name") with
              | Some name => name | None => "istio" end in
  let namespace := match nonempty_string (options !! "namespace") with
                   | Some namespace => namespace | None => "istio-system" end in
  let resourceName := match nonempty_string (options !! "resourceName") with
                      | Some resourceName => resourceName | None => "ip-ranges" end in
  let '(xForwardedFor, xForwardedForName) :=
    match options !! "xForwardedForConfig" with
    | Some (VXff enabled headerName) =>
        (enabled, if String.eqb headerName "" then "X-Forwarded-For" else headerName)
    | _ => (true, "X-Forwarded-For")
    end in
  let '(gatewayName, gatewayNamespace, gatewayLabels) :=
    match options !! "gatewaySelector" with
    | Some (VGateway gwname gwnamespace labels) =>
        (if String.eqb gwname "" then "ingressgateway" else gwname,
         if String.eqb gwnamespace "" then namespace else gwnamespace,
         labels)
    | _ => ("ingressgateway", gatewayNamespace i, gatewayLabels i)
    end in
  let mk cacheTTL :=
    {| name := name; namespace := namespace; xForwardedFor := xForwardedFor;
       xForwardedForName := xForwardedForName; gatewayName := gatewayName;
       gatewayNamespace := gatewayNamespace; gatewayLabels := gatewayLabels;
       resourceName := resourceName; cacheTTL := cacheTTL;
       lastFetch := lastFetch i; cachedData := cachedData i |} in
  let connect (i : IstioIngress) : M (option error * IstioIngress) :=
    (* Get the Kubernetes client *)
    let* r := (fun w => let (r, e) := client_New (ext w) in
                        (r, {| now := now w; ext := e; trace := trace w |})) in
    match r with
    | Some err => ret (Some ("failed to create kubernetes client: " ++ err), i)
    | None => ret (None, i)
    end in
  match as_string (options !! "cacheTTL") with
  | Some cacheTTL =>
      match ParseDuration cacheTTL with
      | Err err => ret (Some ("invalid cacheTTL format: " ++ err), mk (1 * hour))
      | Ok duration => connect (mk duration)
      end
  | None => connect (mk (1 * hour))
  end.

Definition update_cache (i : IstioIngress) (data : IPRangeSet) (t : Z) : IstioIngress :=
  {| name := name i; namespace := namespace i; xForwardedFor := xForwardedFor i;
     xForwardedForName := xForwardedForName i; gatewayName := gatewayName i;
     gatewayNamespace := gatewayNamespace i; gatewayLabels := gatewayLabels i;
     resourceName := resourceName i; cacheTTL := cacheTTL i;
     lastFetch := t; cachedData := Some data |}.

(** fmt.Sprintf("%s-%s", i.name, i.resourceName) *)
Definition configMapName (i : IstioIngress) : string :=
  name i ++ "-" ++ resourceName i.

(** GetCurrentIPRanges gets the current IP ranges configured in Istio. *)
Definition GetCurrentIPRanges (i : IstioIngress) : M (result IPRangeSet * IstioIngress) :=
  (* Check if we have a valid cache *)
  let* hit := cache_hit (cachedData i) (lastFetch i) (cacheTTL i) in
  match hit with
  | Some data => ret (Ok data, i)
  | None =>
  (* Double-check cache under write lock *)
  let* hit := cache_hit (cachedData i) (lastFetch i) (cacheTTL i) in
  match hit with
  | Some data => ret (Ok data, i)
  | None =>
  (* Check if the ConfigMap exists *)
  let* r := call (EvGet "ConfigMap" (namespace i) (configMapName i))
                 (Get_ConfigMap (namespace i) (configMapName i)) in
  match r with
  | Err _ =>
      (* If the ConfigMap doesn't exist, return an empty set *)
      let emptySet := model.NewIPRangeSet in
      let* t := time_Now in
      ret (Ok emptySet, update_cache i emptySet t)
  | Ok configMap =>
      (* Parse the IP ranges from the ConfigMap *)
      let ipRanges := model.NewIPRangeSet in
      let parsed :=
        match (match cm_Data configMap with Some d => d !! "ip_ranges" | None => None end) with
        | Some rangesData =>
            match Unmarshal_strings rangesData with
            | Err err => Err ("error unmarshaling IP ranges: " ++ err)
            | Ok ranges => Ok (model.add_each ["istio"] ranges ipRanges)
            end
        | None => Ok ipRanges
        end in
      match parsed with
      | Err err => ret (Err err, i)
      | Ok ipRanges =>
          (* Update cache *)
          let* t := time_Now in
          ret (Ok ipRanges, update_cache i ipRanges t)
      end
  end end end.

Definition managedLabels (i : IstioIngress) : gmap string string :=
  <["app.kubernetes.io/managed-by" := "ingress-meta-sync-controller"]>
    (<["app.kubernetes.io/instance" := name i]>
       (<["app.kubernetes.io/name" := "ingress-meta-sync"]> ∅)).

(** updateConfigMap updates or creates a ConfigMap with the IP ranges. *)
Definition updateConfigMap (i : IstioIngress) (ipRanges : IPRangeSet)
  : M (option error * IstioIngress) :=
  let configMapName := configMapName i in
  (* Prepare the IP ranges data *)
  let ranges := model.GetCIDRs ipRanges in
  let rangesJSON := Marshal_strings ranges in
  (* Check if the ConfigMap already exists *)
  let* r := call (EvGet "ConfigMap" (namespace i) configMapName)
                 (Get_ConfigMap (namespace i) configMapName) in
  let* written :=
    match r with
    | Err _ =>
        (* Create a new ConfigMap *)
        let configMap := {| cm_Name := configMapName; cm_Namespace := namespace i;
                            cm_Labels := managedLabels i;
                            cm_Data := Some (<["ip_ranges" := rangesJSON]> ∅) |} in
        let* e := call (EvCreateConfigMap configMap) (Create_ConfigMap configMap) in
        match e with
        | Some err => ret (Some ("error creating ConfigMap: " ++ err))
        | None => ret None
        end
    | Ok configMap =>
        (* Update the existing ConfigMap *)
        let data := match cm_Data configMap with Some d => d | None => ∅ end in
        let configMap := {| cm_Name := cm_Name configMap;
                            cm_Namespace := cm_Namespace configMap;
                            cm_Labels := cm_Labels configMap;
                            cm_Data := Some (<["ip_ranges" := rangesJSON]> data) |} in
        let* e := call (EvUpdateConfigMap configMap) (Update_ConfigMap configMap) in
        match e with
        | Some err => ret (Some ("error updating ConfigMap: " ++ err))
        | None => ret None
        end
    end in
  match written with
  | Some err => ret (Some err, i)
  | None =>
      (* Update cache *)
      let* t := time_Now in
      ret (None, update_cache i ipRanges t)
  end.

(** The selector of the gateway: the label istio, then the labels of the
    configuration, which win over it. *)
Definition selectorMap (i : IstioIngress) : gmap string string :=
  gatewayLabels i ∪ {[ "istio" := gatewayName i ]}.

(** updateEnvoyFilter updates or creates an EnvoyFilter to handle
    X-Forwarded-For headers. *)
Definition updateEnvoyFilter (i : IstioIngress) (ipRanges : IPRangeSet) : M (option error) :=
  if Nat.eqb (model.Count ipRanges) 0
  then ret None
  else
    let filterName := name i ++ "-" ++ resourceName i ++ "-xff" in
    let cidrMatches := model.GetCIDRs ipRanges in
    let efObj := {| ef_Name := filterName; ef_Namespace := namespace i;
                    ef_Labels := managedLabels i; ef_selector := selectorMap i;
                    ef_headerName := xForwardedForName i;
                    ef_cidrMatches := cidrMatches |} in
    (* Check if the EnvoyFilter already exists *)
    let* r := call (EvGet "EnvoyFilter" (namespace i) filterName)
                   (Get_EnvoyFilter (namespace i) filterName) in
    match r with
    | Err _ =>
        (* Create a new EnvoyFilter *)
        let* e := call (EvCreateEnvoyFilter efObj) (Create_EnvoyFilter efObj) in
        match e with
        | Some err => ret (Some ("error creating EnvoyFilter: " ++ err))
        | None => ret None
        end
    | Ok existing =>
        (* Update the existing EnvoyFilter *)
        let existing := {| ef_Name := ef_Name existing;
                           ef_Namespace := ef_Namespace existing;
                           ef_Labels := ef_Labels existing;
                           ef_selector := selectorMap i;
                           ef_headerName := xForwardedForName i;
                           ef_cidrMatches := cidrMatches |} in
        let* e := call (EvUpdateEnvoyFilter existing) (Update_EnvoyFilter existing) in
        match e with
        | Some err => ret (Some ("error updating EnvoyFilter: " ++ err))
        | None => ret None
        end
    end.

(** ApplyIPRanges applies the given IP ranges to Istio. *)
Definition ApplyIPRanges (i : IstioIngress) (ipRanges : IPRangeSet)
  : M (option error * IstioIngress) :=
  (* Get current IP ranges for diff *)
  let* (r, i) := GetCurrentIPRanges i in
  match r with
  | Err err => ret (Some ("error getting current IP ranges: " ++ err), i)
  | Ok currentRanges =>
      let (added, removed) := model.Diff currentRanges ipRanges in
      (* If no changes, we're done *)
      if (Nat.eqb (model.Count added) 0 && Nat.eqb (model.Count removed) 0)%bool
      then ret (None, i)
      else
        (* Store the IP ranges in a ConfigMap for persistence *)
        let* (e, i) := updateConfigMap i ipRanges in
        match e with
        | Some err => ret (Some ("error updating ConfigMap: " ++ err), i)
        | None =>
            (* Apply the EnvoyFilter with x-forwarded-for header if enabled *)
            if xForwardedFor i
            then
              let* e := updateEnvoyFilter i ipRanges in
              match e with
              | Some err => ret (Some ("error updating EnvoyFilter: " ++ err), i)
              | None => ret (None, i)
              end
            else ret (None, i)
        end
  end.

End Istio.
End istio.

(* --------------------------------------------------------------------- *)
(* pkg/providers and pkg/ingress: the interfaces and their registries     *)
(* --------------------------------------------------------------------- *)

(** The Provider interface of pkg/providers over the instances [P] of the
    registered kinds; [providers_Get] is providers.Get on the default
    registry: a new instance of the type, if the type is registered. *)
Class ProviderI {env : Env} (P : Type) := {
  providers_Get : string -> option P;
  provider_Init : P -> Options -> rt.M (option error * P);
  provider_FetchIPRanges : P -> rt.M (result IPRangeSet * P)
}.

(** The Ingress interface of pkg/ingress, likewise. *)
Class IngressI {env : Env} (I : Type) := {
  ingress_Get : string -> option I;
  ingress_Init : I -> Options -> rt.M (option error * I);
  ingress_ApplyIPRanges : I -> IPRangeSet -> rt.M (option error * I);
  ingress_GetCurrentIPRanges : I -> rt.M (result IPRangeSet * I)
}.

(** The kinds that register themselves in an init function. *)
Inductive AnyProvider :=
| GitHub (p : github.GitHubProvider).

Inductive AnyIngress :=
| Cloudflare (c : cloudflare.CloudflareIngress)
| Istio (i : istio.IstioIngress).

#[global] Instance registered_providers {lib : GoLib} {env : Env} : ProviderI AnyProvider := {
  providers_Get providerType :=
    if String.eqb providerType "github" then Some (GitHub github.zero) else None;
  provider_Init p options :=
    match p with
    | GitHub p => let (p, e) := github.Init p options in rt.ret (e, GitHub p)
    end;
  provider_FetchIPRanges p :=
    match p with
    | GitHub p => let* (r, p) := github.FetchIPRanges p in rt.ret (r, GitHub p)
    end
}.

#[global] Instance registered_ingress {lib : GoLib} {env : Env} : IngressI AnyIngress := {
  ingress_Get ingressType :=
    if String.eqb ingressType "cloudflare" then Some (Cloudflare cloudflare.zero)
    else if String.eqb ingressType "istio" then Some (Istio istio.zero)
    else None;
  ingress_Init i options :=
    match i with
    | Cloudflare c => let (c, e) := cloudflare.Init c options in rt.ret (e, Cloudflare c)
    | Istio i => let* (e, i) := istio.Init i options in rt.ret (e, Istio i)
    end;
  ingress_ApplyIPRanges i ipRanges :=
    match i with
    | Cloudflare c =>
        let* (e, c) := cloudflare.ApplyIPRanges c ipRanges in rt.ret (e, Cloudflare c)
    | Istio i =>
        let* (e, i) := istio.ApplyIPRanges i ipRanges in rt.ret (e, Istio i)
    end;
  ingress_GetCurrentIPRanges i :=
    match i with
    | Cloudflare c =>
        let* (r, c) := cloudflare.GetCurrentIPRanges c in rt.ret (r, Cloudflare c)
    | Istio i =>
        let* (r, i) := istio.GetCurrentIPRanges i in rt.ret (r, Istio i)
    end
}.

(* --------------------------------------------------------------------- *)
(* pkg/controller                                                         *)
(* --------------------------------------------------------------------- *)

Module controller.
Section Controller.
Context {lib : GoLib} {env : Env} {P I : Type} `{!ProviderI P} `{!IngressI I}.
Import rt wire v1alpha1.

(** SyncReconciler reconciles a SyncConfig object: the two caches of
    instances, by configuration name. An instance is a pointer in Go; the
    entry of the cache is that instance, and a method that changes the
    instance changes the entry. The secret reader is DefaultSecretReader,
    the one SetupWithManager installs. *)
Record SyncReconciler := mkSyncReconciler {
  ProviderCache : gmap string P;
  IngressCache : gmap string I
}.

(** A method of a provider or of a target that the controller invoked. *)
Inductive Invocation :=
| FetchIPRanges_of (name : string)
| ApplyIPRanges_of (name : string) (ipRanges : IPRangeSet).

(** The state of a reconciliation: the world, and the invocations so far.
    The invocations are kept for the statements about the controller; no
    code reads them, and a method of a provider or of a target sees only
    the world. *)
Record State := mkState {
  world : World;
  invoked : list Invocation
}.

Definition CM (A : Type) : Type := St State A.

(** A computation on the world, as a step of the reconciliation. *)
Definition lift {A} (m : M A) : CM A :=
  fun s => let (a, w) := m (world s) in (a, {| world := w; invoked := invoked s |}).

Definition invoke (i : Invocation) : CM unit :=
  fun s => (tt, {| world := world s; invoked := invoked s ++ [i] |}).

(** GetSecret gets a secret value from the given secret name, namespace,
    and key. *)
Definition GetSecret (namespace name key : string) : M (result string) :=
  let* r := call (EvGet "Secret" namespace name) (Get_Secret namespace name) in
  match r with
  | Err err => ret (Err err)
  | Ok secret =>
      match Data secret !! key with
      | Some data => ret (Ok data)
      | None =>
          (* If key isn't specified or not found, try to use the data directly *)
          let notFound :=
            Err ("key " ++ key ++ " not found in secret " ++ namespace ++ "/" ++ name) in
          if Nat.eqb (size (Data secret)) 1
          then
            (* If there's only one key, use that *)
            match map_to_list (Data secret) with
            | (_, data) :: _ => ret (Ok data)
            | [] => ret notFound
            end
          else ret notFound
      end
  end.

(** The options of a provider by its type: the switch of
    getOrCreateProvider. *)
Definition providerOptions (providerConfig : ProviderConfig) : M (result Options) :=
  let options : Options := <["name" := VString (pc_Name providerConfig)]> ∅ in
  if String.eqb (pc_Type providerConfig) "github" then
    match pc_GitHub providerConfig with
    | None => ret (Ok options)
    | Some gh =>
        let options := <["enterprise" := VBool (gh_Enterprise gh)]> options in
        let options := if String.eqb (gh_PollingInterval gh) "" then options
                       else <["cacheTTL" := VString (gh_PollingInterval gh)]> options in
        (* Get API token from secret if specified *)
        if String.eqb (sr_Name (gh_API_SecretRef gh)) "" then ret (Ok options)
        else
          let* r := GetSecret (sr_Namespace (gh_API_SecretRef gh))
                              (sr_Name (gh_API_SecretRef gh))
                              (sr_Key (gh_API_SecretRef gh)) in
          match r with
          | Err err => ret (Err ("error reading GitHub API token: " ++ err))
          | Ok apiToken => ret (Ok (<["apiToken" := VString apiToken]> options))
          end
    end
  else if String.eqb (pc_Type providerConfig) "aws" then
    match pc_AWS providerConfig with
    | None => ret (Ok options)
    | Some aws =>
        let options := if Nat.ltb 0 (length (aws_Services aws))
                       then <["services" := VStrings (aws_Services aws)]> options
                       else options in
        let options := if Nat.ltb 0 (length (aws_Regions aws))
                       then <["regions" := VStrings (aws_Regions aws)]> options
                       else options in
        let options := if String.eqb (aws_PollingInterval aws) "" then options
                       else <["cacheTTL" := VString (aws_PollingInterval aws)]> options in
        (* Get API credentials from secret if specified *)
        if String.eqb (sr_Name (aws_API_SecretRef aws)) "" then ret (Ok options)
        else
          let* r := GetSecret (sr_Namespace (aws_API_SecretRef aws))
                              (sr_Name (aws_API_SecretRef aws)) "accessKey" in
          match r with
          | Err err => ret (Err ("error reading AWS access key: " ++ err))
          | Ok accessKey =>
              let options := <["accessKey" := VString accessKey]> options in
              let* r := GetSecret (sr_Namespace (aws_API_SecretRef aws))
                                  (sr_Name (aws_API_SecretRef aws)) "secretKey" in
              match r with
              | Err err => ret (Err ("error reading AWS secret key: " ++ err))
              | Ok secretKey => ret (Ok (<["secretKey" := VString secretKey]> options))
              end
          end
    end
  else ret (Ok options).

(** getOrCreateProvider gets an existing provider from cache or creates a
    new one. *)
Definition getOrCreateProvider (providerConfig : ProviderConfig) (r : SyncReconciler)
  : M (result P * SyncReconciler) :=
  (* Check if we already have this provider in the cache *)
  match ProviderCache r !! pc_Name providerConfig with
  | Some provider => ret (Ok provider, r)
  | None =>
  (* Create a new provider instance *)
  match providers_Get (pc_Type providerConfig) with
  | None => ret (Err ("provider type " ++ pc_Type providerConfig ++ " not supported"), r)
  | Some providerInstance =>
  let* o := providerOptions providerConfig in
  match o with
  | Err err => ret (Err err, r)
  | Ok options =>
  (* Initialize the provider *)
  let* (e, providerInstance) := provider_Init providerInstance options in
  match e with
  | Some err => ret (Err ("error initializing provider: " ++ err), r)
  | None =>
  (* Cache the provider for future use *)
  ret (Ok providerInstance,
       {| ProviderCache := <[pc_Name providerConfig := providerInstance]> (ProviderCache r);
          IngressCache := IngressCache r |})
  end end end end.

(** The options of an ingress by its type: the switch of
    getOrCreateIngress. *)
Definition ingressOptions (ingressConfig : IngressConfig) : M (result Options) :=
  let options : Options := <["name" := VString (ic_Name ingressConfig)]> ∅ in
  if String.eqb (ic_Type ingressConfig) "cloudflare" then
    match ic_Cloudflare ingressConfig with
    | None => ret (Ok options)
    | Some cf =>
        let rest (options : Options) : Options :=
          (* Add rule configuration *)
          let rc := cf_RuleConfig cf in
          let options := <["zoneId" := VString (rc_ZoneID rc)]> options in
          let options := <["ruleName" := VString (rc_RuleName rc)]> options in
          let options := if String.eqb (rc_Description rc) "" then options
                         else <["description" := VString (rc_Description rc)]> options in
          let options := if String.eqb (rc_Action rc) "" then options
                         else <["action" := VString (rc_Action rc)]> options in
          let options := if rc_Priority rc =? 0 then options
                         else <["priority" := VInt32 (rc_Priority rc)]> options in
          if String.eqb (cf_UpdateStrategy cf) "" then options
          else <["updateStrategy" := VString (cf_UpdateStrategy cf)]> options in
        (* Get API token from secret *)
        if String.eqb (sr_Name (cf_API_SecretRef cf)) "" then ret (Ok (rest options))
        else
          let* r := GetSecret (sr_Namespace (cf_API_SecretRef cf))
                              (sr_Name (cf_API_SecretRef cf))
                              (sr_Key (cf_API_SecretRef cf)) in
          match r with
          | Err err => ret (Err ("error reading Cloudflare API token: " ++ err))
          | Ok apiToken => ret (Ok (rest (<["apiToken" := VString apiToken]> options)))
          end
    end
  else if String.eqb (ic_Type ingressConfig) "istio" then
    match ic_Istio ingressConfig with
    | None => ret (Ok options)
    | Some cfg =>
        let options := if String.eqb (is_Namespace cfg) "" then options
                       else <["namespace" := VString (is_Namespace cfg)]> options in
        (* Add X-Forwarded-For configuration *)
        let options :=
          <["xForwardedForConfig" :=
              VXff (xff_Enabled (is_XForwardedForConfig cfg))
                   (xff_HeaderName (is_XForwardedForConfig cfg))]> options in
        (* Add gateway selector *)
        let options :=
          <["gatewaySelector" :=
              VGateway (gw_Name (is_GatewaySelector cfg))
                       (gw_Namespace (is_GatewaySelector cfg))
                       (gw_Labels (is_GatewaySelector cfg))]> options in
        ret (Ok options)
    end
  else ret (Ok options).

(** getOrCreateIngress gets an existing ingress from cache or creates a
    new one. *)
Definition getOrCreateIngress (ingressConfig : IngressConfig) (r : SyncReconciler)
  : M (result I * SyncReconciler) :=
  match IngressCache r !! ic_Name ingressConfig with
  | Some ingressInstance => ret (Ok ingressInstance, r)
  | None =>
  match ingress_Get (ic_Type ingressConfig) with
  | None => ret (Err ("ingress type " ++ ic_Type ingressConfig ++ " not supported"), r)
  | Some ingressInstance =>
  let* o := ingressOptions ingressConfig in
  match o with
  | Err err => ret (Err err, r)
  | Ok options =>
  let* (e, ingressInstance) := ingress_Init ingressInstance options in
  match e with
  | Some err => ret (Err ("error initializing ingress: " ++ err), r)
  | None =>
  ret (Ok ingressInstance,
       {| ProviderCache := ProviderCache r;
          IngressCache := <[ic_Name ingressConfig := ingressInstance]> (IngressCache r) |})
  end end end end.

(** [syncConfig.Spec.SyncPolicy != nil &&
    syncConfig.Spec.SyncPolicy.FailureMode == "fail"] *)
Definition failing (syncConfig : SyncConfig) : bool :=
  match SyncPolicy_ (Spec syncConfig) with
  | Some policy => String.eqb (FailureMode policy) "fail"
  | None => false
  end.

(** The conversion int32(n) of an int. *)
Definition int32 (n : Z) : Z := (n + 2 ^ 31) mod 2 ^ 32 - 2 ^ 31.

Definition pending (name : string) (t : Z) : ItemSyncStatus :=
  {| st_Name := name; st_LastSyncTime := Some t; st_Status := "Pending";
     st_IPRangesCount := 0; st_Error := "" |}.

(** [status.Error = errMsg; status.Status = "Error"] *)
Definition failed (status : ItemSyncStatus) (errMsg : string) : ItemSyncStatus :=
  {| st_Name := st_Name status; st_LastSyncTime := st_LastSyncTime status;
     st_Status := "Error"; st_IPRangesCount := st_IPRangesCount status;
     st_Error := errMsg |}.

(** [status.Status = "Success"; status.IPRangesCount = int32(count)] *)
Definition succeeded (status : ItemSyncStatus) (count : nat) : ItemSyncStatus :=
  {| st_Name := st_Name status; st_LastSyncTime := st_LastSyncTime status;
     st_Status := "Success"; st_IPRangesCount := int32 (Z.of_nat count);
     st_Error := st_Error status |}.

(** One round of the loop of collectProviderIPRanges up to the filter: the
    configuration is resolved, the instance is found or created, the
    ranges are fetched and filtered. The error is the errMsg of the branch
    that failed; what the round does with it is the same in the three
    branches, and is in [collect_loop]. *)
Definition provider_round (providerRef : ProviderReference) (r : SyncReconciler)
  : CM (result IPRangeSet * SyncReconciler) :=
  (* Fetch the ProviderConfig *)
  let* c := lift (call (EvGet "ProviderConfig" "" (pr_Name providerRef))
                       (Get_ProviderConfig (pr_Name providerRef))) in
  match c with
  | Err err => ret (Err ("Unable to fetch ProviderConfig: " ++ err), r)
  | Ok providerConfig =>
  (* Get the provider instance from cache or create a new one *)
  let* (p, r) := lift (getOrCreateProvider providerConfig r) in
  match p with
  | Err err => ret (Err ("Unable to create provider: " ++ err), r)
  | Ok providerInstance =>
  (* Fetch IP ranges from the provider *)
  let* _ := invoke (FetchIPRanges_of (pc_Name providerConfig)) in
  let* (f, providerInstance) := lift (provider_FetchIPRanges providerInstance) in
  let r := {| ProviderCache := <[pc_Name providerConfig := providerInstance]> (ProviderCache r);
              IngressCache := IngressCache r |} in
  match f with
  | Err err => ret (Err ("Unable to fetch IP ranges: " ++ err), r)
  | Ok providerRanges =>
  (* Filter ranges if include/exclude are specified *)
  let filteredRanges :=
    if (Nat.ltb 0 (length (IncludeRanges providerRef))
        || Nat.ltb 0 (length (ExcludeRanges providerRef)))%bool
    then model.Filter providerRanges (IncludeRanges providerRef) (ExcludeRanges providerRef)
    else providerRanges in
  ret (Ok filteredRanges, r)
  end end end.

(** The loop of collectProviderIPRanges over the provider references that
    are left, with the ranges merged and the statuses appended so far. It
    returns the merged ranges or the error of the early return, and the
    statuses as the function has them when it returns. *)
Fixpoint collect_loop (fail : bool) (refs : list ProviderReference)
    (allRanges : IPRangeSet) (updatedProviderStatus : list ItemSyncStatus)
    (r : SyncReconciler)
  : CM (result IPRangeSet * list ItemSyncStatus * SyncReconciler) :=
  match refs with
  | [] => ret (Ok allRanges, updatedProviderStatus, r)
  | providerRef :: rest =>
  let* t := lift time_Now in
  let providerStatus := pending (pr_Name providerRef) t in
  let* (res, r) := provider_round providerRef r in
  match res with
  | Err errMsg =>
      let updatedProviderStatus :=
        (updatedProviderStatus ++ [failed providerStatus errMsg])%list in
      if fail then ret (Err (Errorf0 errMsg), updatedProviderStatus, r)
      else collect_loop fail rest allRanges updatedProviderStatus r
  | Ok filteredRanges =>
      (* Merge with all ranges *)
      let allRanges := model.Merge allRanges filteredRanges in
      (* Update provider status *)
      let updatedProviderStatus :=
        (updatedProviderStatus
         ++ [succeeded providerStatus (model.Count filteredRanges)])%list in
      collect_loop fail rest allRanges updatedProviderStatus r
  end
  end.

Definition set_ProviderStatus (syncConfig : SyncConfig) (l : list ItemSyncStatus) : SyncConfig :=
  {| sc_Name := sc_Name syncConfig; Spec := Spec syncConfig;
     Status := {| LastSyncTime := LastSyncTime (Status syncConfig);
                  LastSuccessfulSync := LastSuccessfulSync (Status syncConfig);
                  ProviderStatus := l;
                  IngressStatus := IngressStatus (Status syncConfig);
                  Conditions := Conditions (Status syncConfig) |} |}.

Definition set_IngressStatus (syncConfig : SyncConfig) (l : list ItemSyncStatus) : SyncConfig :=
  {| sc_Name := sc_Name syncConfig; Spec := Spec syncConfig;
     Status := {| LastSyncTime := LastSyncTime (Status syncConfig);
                  LastSuccessfulSync := LastSuccessfulSync (Status syncConfig);
                  ProviderStatus := ProviderStatus (Status syncConfig);
                  IngressStatus := l;
                  Conditions := Conditions (Status syncConfig) |} |}.

(** collectProviderIPRanges collects IP ranges from all providers in the
    SyncConfig. The statuses are stored in the SyncConfig after the loop:
    an early return leaves the SyncConfig as it was. *)
Definition collectProviderIPRanges (syncConfig : SyncConfig) (r : SyncReconciler)
  : CM (result IPRangeSet * SyncConfig * SyncReconciler) :=
  let* (res, updatedProviderStatus, r) :=
    collect_loop (failing syncConfig) (Providers (Spec syncConfig))
      model.NewIPRangeSet [] r in
  match res with
  | Err err => ret (Err err, syncConfig, r)
  | Ok allRanges =>
      (* Update the SyncConfig status with provider status *)
      ret (Ok allRanges, set_ProviderStatus syncConfig updatedProviderStatus, r)
  end.

(** One round of the loop of applyIPRangesToIngress up to the status. *)
Definition ingress_round (ingressRef : IngressReference) (ipRanges : IPRangeSet)
    (r : SyncReconciler)
  : CM (option error * SyncReconciler) :=
  (* Fetch the IngressConfig *)
  let* c := lift (call (EvGet "IngressConfig" "" (ir_Name ingressRef))
                       (Get_IngressConfig (ir_Name ingressRef))) in
  match c with
  | Err err => ret (Some ("Unable to fetch IngressConfig: " ++ err), r)
  | Ok ingressConfig =>
  (* Get the ingress instance from cache or create a new one *)
  let* (i, r) := lift (getOrCreateIngress ingressConfig r) in
  match i with
  | Err err => ret (Some ("Unable to create ingress: " ++ err), r)
  | Ok ingressInstance =>
  (* Apply IP ranges to the ingress *)
  let* _ := invoke (ApplyIPRanges_of (ic_Name ingressConfig) ipRanges) in
  let* (e, ingressInstance) := lift (ingress_ApplyIPRanges ingressInstance ipRanges) in
  let r := {| ProviderCache := ProviderCache r;
              IngressCache := <[ic_Name ingressConfig := ingressInstance]> (IngressCache r) |} in
  match e with
  | Some err => ret (Some ("Unable to apply IP ranges: " ++ err), r)
  | None => ret (None, r)
  end end end.

(** The loop of applyIPRangesToIngress. *)
Fixpoint apply_loop (fail : bool) (refs : list IngressReference) (ipRanges : IPRangeSet)
    (updatedIngressStatus : list ItemSyncStatus) (r : SyncReconciler)
  : CM (option error * list ItemSyncStatus * SyncReconciler) :=
  match refs with
  | [] => ret (None, updatedIngressStatus, r)
  | ingressRef :: rest =>
  let* t := lift time_Now in
  let ingressStatus := pending (ir_Name ingressRef) t in
  let* (e, r) := ingress_round ingressRef ipRanges r in
  match e with
  | Some errMsg =>
      let updatedIngressStatus :=
        (updatedIngressStatus ++ [failed ingressStatus errMsg])%list in
      if fail then ret (Some (Errorf0 errMsg), updatedIngressStatus, r)
      else apply_loop fail rest ipRanges updatedIngressStatus r
  | None =>
      (* Update ingress status *)
      let updatedIngressStatus :=
        (updatedIngressStatus ++ [succeeded ingressStatus (model.Count ipRanges)])%list in
      apply_loop fail rest ipRanges updatedIngressStatus r
  end
  end.

(** applyIPRangesToIngress applies IP ranges to all ingress services. *)
Definition applyIPRangesToIngress (syncConfig : SyncConfig) (ipRanges : IPRangeSet)
    (r : SyncReconciler)
  : CM (option error * SyncConfig * SyncReconciler) :=
  let* (e, updatedIngressStatus, r) :=
    apply_loop (failing syncConfig) (Ingress (Spec syncConfig)) ipRanges [] r in
  match e with
  | Some err => ret (Some err, syncConfig, r)
  | None => ret (None, set_IngressStatus syncConfig updatedIngressStatus, r)
  end.

Definition set_Conditions (syncConfig : SyncConfig) (l : list Condition) : SyncConfig :=
  {| sc_Name := sc_Name syncConfig; Spec := Spec syncConfig;
     Status := {| LastSyncTime := LastSyncTime (Status syncConfig);
                  LastSuccessfulSync := LastSuccessfulSync (Status syncConfig);
                  ProviderStatus := ProviderStatus (Status syncConfig);
                  IngressStatus := IngressStatus (Status syncConfig);
                  Conditions := l |} |}.

(** [for i := range conditions { if conditions[i].Type == conditionType {
    existingCondition = &conditions[i]; break } }]: the index of the first
    condition of the type. *)
Fixpoint find_condition (conditionType : string) (conditions : list Condition) (i : nat)
  : option nat :=
  match conditions with
  | [] => None
  | c :: rest =>
      if String.eqb (Type_ c) conditionType then Some i
      else find_condition conditionType rest (S i)
  end.

(** setStatusCondition sets a condition in the status. *)
Definition setStatusCondition (syncConfig : SyncConfig) (conditionType : string)
    (status : ConditionStatus) (reason message : string) : M SyncConfig :=
  let conditions := Conditions (Status syncConfig) in
  match find_condition conditionType conditions 0 with
  | None =>
      (* If it doesn't exist, append a new one *)
      let* t := time_Now in
      ret (set_Conditions syncConfig
             (conditions ++ [ {| Type_ := conditionType; Status_ := status;
                                 LastTransitionTime := t; Reason := reason;
                                 Message := message |} ]))
  | Some i =>
      match conditions !! i with
      | None => ret syncConfig
      | Some existingCondition =>
          (* Update existing condition *)
          if bool_decide (Status_ existingCondition = status)
          then
            ret (set_Conditions syncConfig
                   (<[i := {| Type_ := Type_ existingCondition; Status_ := status;
                              LastTransitionTime := LastTransitionTime existingCondition;
                              Reason := reason; Message := message |}]> conditions))
          else
            let* t := time_Now in
            ret (set_Conditions syncConfig
                   (<[i := {| Type_ := Type_ existingCondition; Status_ := status;
                              LastTransitionTime := t;
                              Reason := reason; Message := message |}]> conditions))
      end
  end.

Definition set_LastSyncTime (syncConfig : SyncConfig) (t : Z) : SyncConfig :=
  {| sc_Name := sc_Name syncConfig; Spec := Spec syncConfig;
     Status := {| LastSyncTime := Some t;
                  LastSuccessfulSync := LastSuccessfulSync (Status syncConfig);
                  ProviderStatus := ProviderStatus (Status syncConfig);
                  IngressStatus := IngressStatus (Status syncConfig);
                  Conditions := Conditions (Status syncConfig) |} |}.

Definition set_LastSuccessfulSync (syncConfig : SyncConfig) (t : Z) : SyncConfig :=
  {| sc_Name := sc_Name syncConfig; Spec := Spec syncConfig;
     Status := {| LastSyncTime := LastSyncTime (Status syncConfig);
                  LastSuccessfulSync := Some t;
                  ProviderStatus := ProviderStatus (Status syncConfig);
                  IngressStatus := IngressStatus (Status syncConfig);
                  Conditions := Conditions (Status syncConfig) |} |}.

(** What Reconcile returns: ctrl.Result by its RequeueAfter, the error,
    and the SyncConfig as the cycle leaves it ([None] when the SyncConfig
    could not be read: no cycle ran). *)
Record Outcome := mkOutcome {
  RequeueAfter : Z;
  Error : option error;
  Final : option SyncConfig
}.

(** Reconcile is part of the main kubernetes reconciliation loop. *)
Definition Reconcile (namespace name : string) (r : SyncReconciler)
  : CM (Outcome * SyncReconciler) :=
  (* Fetch the SyncConfig instance *)
  let* g := lift (call (EvGet "SyncConfig" namespace name)
                       (Get_SyncConfig namespace name)) in
  match g with
  | Err err =>
      if IsNotFound err
      then ret ({| RequeueAfter := 0; Error := None; Final := None |}, r)
      else ret ({| RequeueAfter := 0; Error := Some err; Final := None |}, r)
  | Ok syncConfig =>
  (* Prepare for status updates *)
  let* t := lift time_Now in
  let syncConfig := set_LastSyncTime syncConfig t in
  (* Collect IP ranges from all providers *)
  let* (res, syncConfig, r) := collectProviderIPRanges syncConfig r in
  match res with
  | Err err =>
      let* syncConfig :=
        lift (setStatusCondition syncConfig "Ready" ConditionFalse "ProviderError" err) in
      let* _ := lift (call (EvStatusUpdate syncConfig) (Status_Update syncConfig)) in
      ret ({| RequeueAfter := 5 * minute; Error := Some err; Final := Some syncConfig |}, r)
  | Ok allRanges =>
  (* Apply IP ranges to all ingress services *)
  let* (e, syncConfig, r) := applyIPRangesToIngress syncConfig allRanges r in
  match e with
  | Some err =>
      let* syncConfig :=
        lift (setStatusCondition syncConfig "Ready" ConditionFalse "IngressError" err) in
      let* _ := lift (call (EvStatusUpdate syncConfig) (Status_Update syncConfig)) in
      ret ({| RequeueAfter := 5 * minute; Error := Some err; Final := Some syncConfig |}, r)
  | None =>
  (* Update status to show sync was successful *)
  let* t := lift time_Now in
  let syncConfig := set_LastSuccessfulSync syncConfig t in
  let* syncConfig :=
    lift (setStatusCondition syncConfig "Ready" ConditionTrue "SyncSuccessful"
            "Successfully synced IP ranges") in
  (* Update the status *)
  let* u := lift (call (EvStatusUpdate syncConfig) (Status_Update syncConfig)) in
  match u with
  | Some err => ret ({| RequeueAfter := 0; Error := Some err; Final := Some syncConfig |}, r)
  | None =>
      (* Requeue for next sync *)
      ret ({| RequeueAfter := 1 * minute; Error := None; Final := Some syncConfig |}, r)
  end end end end.

End Controller.
End controller.

(* --------------------------------------------------------------------- *)
(* A scripted world and a sample library, to run the code on inputs       *)
(* --------------------------------------------------------------------- *)

Module script.
Import wire.

(** What the world answers to one call. *)
Inductive Reply :=
| RError (e : error)
| RDone
| RResponse (resp : Response)
| RSecret (s : Secret)
| RConfigMap (cm : ConfigMap)
| REnvoyFilter (ef : EnvoyFilter)
| RSyncConfig (sc : v1alpha1.SyncConfig)
| RProviderConfig (pc : v1alpha1.ProviderConfig)
| RIngressConfig (ic : v1alpha1.IngressConfig).

(** The answers to the calls to come, in order, and the time that passes
    before each reading of the clock or call (none once the list is
    used up). *)
Record Script := mkScript {
  replies : list Reply;
  ticks : list N
}.

Definition next {A} (pick : Reply -> result A) (s : Script) : result A * Script :=
  match replies s with
  | [] => (Err "connection refused", s)
  | r :: rest => (pick r, {| replies := rest; ticks := ticks s |})
  end.

Definition done (s : Script) : option error * Script :=
  match replies s with
  | RDone :: rest => (None, {| replies := rest; ticks := ticks s |})
  | RError e :: rest => (Some e, {| replies := rest; ticks := ticks s |})
  | _ :: rest => (Some "unexpected reply", {| replies := rest; ticks := ticks s |})
  | [] => (Some "connection refused", s)
  end.

Definition unexpected {A} (r : Reply) : result A :=
  match r with RError e => Err e | _ => Err "unexpected reply" end.

#[local] Instance scripted : Env := {
  Ext := Script;
  elapse s :=
    match ticks s with
    | [] => (0%N, s)
    | dt :: rest => (dt, {| replies := replies s; ticks := rest |})
    end;
  http_Do _ := next (fun r => match r with RResponse x => Ok x | _ => unexpected r end);
  Get_Secret _ _ := next (fun r => match r with RSecret x => Ok x | _ => unexpected r end);
  Get_ConfigMap _ _ :=
    next (fun r => match r with RConfigMap x => Ok x | _ => unexpected r end);
  Create_ConfigMap _ := done;
  Update_ConfigMap _ := done;
  Get_EnvoyFilter _ _ :=
    next (fun r => match r with REnvoyFilter x => Ok x | _ => unexpected r end);
  Create_EnvoyFilter _ := done;
  Update_EnvoyFilter _ := done;
  Get_SyncConfig _ _ :=
    next (fun r => match r with RSyncConfig x => Ok x | _ => unexpected r end);
  Get_ProviderConfig _ :=
    next (fun r => match r with RProviderConfig x => Ok x | _ => unexpected r end);
  Get_IngressConfig _ :=
    next (fun r => match r with RIngressConfig x => Ok x | _ => unexpected r end);
  Status_Update _ := done;
  client_New := done;
  IsNotFound e := String.eqb e "not found"
}.

(** The world at the start of a run. *)
Definition start (replies : list Reply) (ticks : list N) : rt.World :=
  {| rt.now := 0; rt.ext := {| replies := replies; ticks := ticks |}; rt.trace := [] |}.

(** A 200 response of the Cloudflare API with a successful envelope. *)
Definition cf_ok (filters : list Filter) : Reply :=
  RResponse {| StatusCode := 200; Text := "";
               Decode_CloudflareResponse :=
                 Ok {| Success := true; Errors := []; Messages := [];
                       Result := {| Unmarshal_Filters := Ok filters;
                                    Unmarshal_Filter :=
                                      match filters with
                                      | f :: _ => Ok f
                                      | [] => Err "unexpected end of JSON input"
                                      end |} |};
               Decode_GitHubIPMetadata := Err "cannot unmarshal" |}.

(** A 200 response of the GitHub meta endpoint. *)
Definition gh_ok (metadata : GitHubIPMetadata) : Reply :=
  RResponse {| StatusCode := 200; Text := "";
               Decode_CloudflareResponse := Err "cannot unmarshal";
               Decode_GitHubIPMetadata := Ok metadata |}.

(** Decimal digits, for the sample library. *)
Definition digit (c : ascii) : option nat :=
  let n := nat_of_ascii c in
  if (Nat.leb 48 n && Nat.leb n 57)%bool then Some (n - 48)%nat else None.

Fixpoint number (s : string) (acc : nat) : option nat :=
  match s with
  | EmptyString => Some acc
  | String c rest =>
      match digit c with
      | Some d => number rest (10 * acc + d)%nat
      | None => None
      end
  end.

(** A number of one to three digits, at most [bound]. *)
Definition small_number (bound : nat) (s : string) : bool :=
  match s with
  | EmptyString => false
  | _ => (Nat.leb (String.length s) 3
          && match number s 0 with Some n => Nat.leb n bound | None => false end)%bool
  end.

(** The text before and after the first [sep]. *)
Fixpoint cut (sep : ascii) (s : string) : string * option string :=
  match s with
  | EmptyString => (EmptyString, None)
  | String c rest =>
      if Ascii.eqb c sep then (EmptyString, Some rest)
      else let (a, b) := cut sep rest in (String c a, b)
  end.

(** Dotted-quad IPv4 prefixes: a.b.c.d/n. *)
Definition ipv4_cidr (s : string) : bool :=
  match cut "/" s with
  | (addr, Some bits) =>
      match cut "." addr with
      | (a, Some r1) =>
          match cut "." r1 with
          | (b, Some r2) =>
              match cut "." r2 with
              | (c, Some d) =>
                  (small_number 255 a && small_number 255 b && small_number 255 c
                   && small_number 255 d && small_number 32 bits)%bool
              | _ => false
              end
          | _ => false
          end
      | _ => false
      end
  | _ => false
  end.

(** A sample of the library: ParseCIDR on dotted-quad IPv4 prefixes, maps
    visited in the order of their representation, every URL well formed,
    messages without formatting verbs, a []string encoded one element a
    line. *)
#[local] Instance sample : GoLib := {
  ParseCIDR_ok := ipv4_cidr;
  rank _ := 0%nat;
  Errorf0 msg := msg;
  url_error _ := None;
  ParseDuration _ := Err "time: invalid duration";
  Marshal_strings l := String.concat (String "010"%char "") l;
  Unmarshal_strings s := Ok (cloudflare.Fields s)
}.

End script.

(* --------------------------------------------------------------------- *)
(* The vocabulary of the statements                                       *)
(* --------------------------------------------------------------------- *)

Module spec.
Import rt wire v1alpha1.

(** The specification's wording of the filter condition: the labels of a
    member intersect a list of labels. *)
Definition intersects (labels wanted : list string) : bool :=
  existsb (fun l => existsb (String.eqb l) labels) wanted.

(** A member is kept if (include is empty or its labels intersect include)
    and not (exclude is not empty and its labels intersect exclude). *)
Definition spec_keeps (include exclude : list string) (r : IPRange) : bool :=
  (Nat.eqb (length include) 0 || intersects (Labels r) include)
  && negb (negb (Nat.eqb (length exclude) 0) && intersects (Labels r) exclude).

(** A range shares a label with a list of labels. *)
Definition shares_label (r : IPRange) (wanted : list string) : Prop :=
  exists l, l ∈ Labels r /\ l ∈ wanted.

(** The last member of a sequence with a CIDR. *)
Definition last_with_cidr (c : string) (rs : list IPRange) : option IPRange :=
  List.find (fun r => String.eqb (CIDR r) c) (rev rs).

(** [h'] is [h] with new objects at the addresses [new], which [h] does
    not use, and with every other address as it was. *)
Definition allocates_only (h h' : gmap nat (list IPRange)) (new : list nat) : Prop :=
  (forall p, p ∈ new -> h !! p = None)
  /\ (forall q, q ∉ new -> h' !! q = h !! q).

(** A string without the white space of bytes.Fields. *)
Fixpoint no_space (s : string) : bool :=
  match s with
  | EmptyString => true
  | String c rest => negb (cloudflare.isSpace c) && no_space rest
  end.

(** The CIDRs after the first, each behind its space. *)
Fixpoint spaced (cidrs : list string) : string :=
  match cidrs with
  | [] => ""
  | c :: rest => " " ++ c ++ spaced rest
  end.

(** The condition of a type that a reader of the status finds: the first
    one. *)
Definition condition_of (conditionType : string) (conditions : list Condition)
  : option Condition :=
  List.find (fun c => String.eqb (Type_ c) conditionType) conditions.

(** The aggregate ready condition of a SyncConfig. *)
Definition ready (syncConfig : SyncConfig) : option Condition :=
  condition_of "Ready" (Conditions (Status syncConfig)).

(** An item of the status that succeeded. *)
Definition ok (status : ItemSyncStatus) : Prop := st_Status status = "Success".

Section WithWorld.
Context {lib : GoLib} {env : Env}.

(** Diff finds nothing to add and nothing to remove. *)
Definition no_changes (current desired : IPRangeSet) : bool :=
  Nat.eqb (model.Count (model.Diff current desired).1) 0
  && Nat.eqb (model.Count (model.Diff current desired).2) 0.

(** The events that a computation appends to the trace are reads. *)
Definition only_reads {A} (m : M A) : Prop :=
  forall w, exists evs,
    trace (m w).2 = (trace w ++ evs)%list /\ writes evs = [].


End WithWorld.

Section WithController.
Context {lib : GoLib} {env : Env} {P I : Type} `{!ProviderI P} `{!IngressI I}.
Import controller.

Definition is_fetch (i : Invocation) : Prop :=
  match i with FetchIPRanges_of _ => True | ApplyIPRanges_of _ _ => False end.

Definition is_apply_of (ipRanges : IPRangeSet) (i : Invocation) : Prop :=
  match i with
  | FetchIPRanges_of _ => False
  | ApplyIPRanges_of _ applied => applied = ipRanges
  end.

(** The invocations that a step of the reconciliation appends all
    satisfy [Q]. *)
Definition appends {A} (Q : Invocation -> Prop) (m : CM A) : Prop :=
  forall s, exists l, invoked (m s).2 = (invoked s ++ l)%list /\ Forall Q l.


End WithController.
End spec.

(* --------------------------------------------------------------------- *)
(* Runs of the code in the scripted world                                 *)
(* --------------------------------------------------------------------- *)

Module scenario.
Import rt wire v1alpha1 script.

Definition web : IPRange := {| CIDR := "10.0.0.0/8"; Labels := ["web"] |}.
Definition api : IPRange := {| CIDR := "10.1.0.0/16"; Labels := ["api"] |}.

(** A heap with two sets. *)
Definition two_sets : gmap nat (list IPRange) :=
  <[1%nat := [api]]> (<[0%nat := [web; api]]> ∅).

(** A rule-based target as the controller initializes it. *)
Definition edge_options : Options :=
  <["ruleName" := VString "allow-github"]>
    (<["zoneId" := VString "zone1"]>
       (<["apiToken" := VString "token"]> (<["name" := VString "edge"]> ∅))).

Definition edge : cloudflare.CloudflareIngress :=
  (@cloudflare.Init sample cloudflare.zero edge_options).1.

Definition desired : IPRangeSet := {| Ranges := [web] |}.

(** The filter as the API holds it once it is created. *)
Definition created : Filter :=
  {| ID := "f1"; Expression := cloudflare.buildFilterExpression desired;
     Paused := false; Description := "allow-github" |}.

(** A zone without the filter, and an API that does what it is asked:
    the two listings of the first apply find no filter, the creation of
    the filter and of the rule succeed, the listing of the second apply
    finds the filter, and its update succeeds. No time passes. *)
Definition zone : World :=
  start [cf_ok []; cf_ok []; cf_ok [created]; cf_ok [];
         cf_ok [created]; cf_ok [created]] [].

Definition first_apply := @cloudflare.ApplyIPRanges sample scripted edge desired zone.

Definition second_apply :=
  @cloudflare.ApplyIPRanges sample scripted first_apply.1.2 desired first_apply.2.

Definition no_status : SyncConfigStatus :=
  {| LastSyncTime := None; LastSuccessfulSync := None; ProviderStatus := [];
     IngressStatus := []; Conditions := [] |}.

(** Two sources, the second with the include filter web, and one target. *)
Definition two_sources (policy : option SyncPolicy) : SyncConfig :=
  {| sc_Name := "sync";
     Spec := {| Providers := [ {| pr_Name := "mirror"; IncludeRanges := [];
                                  ExcludeRanges := [] |};
                               {| pr_Name := "github"; IncludeRanges := ["web"];
                                  ExcludeRanges := [] |} ];
                Ingress := [ {| ir_Name := "edge" |} ];
                SyncPolicy_ := policy |};
     Status := no_status |}.

Definition fail_policy : option SyncPolicy :=
  Some {| FailureMode := "fail"; RetryConfig_ := None |}.



(** What the metadata endpoint answers. *)
Definition meta : GitHubIPMetadata :=
  {| Hooks := []; Web := ["10.0.0.0/8"]; API := ["10.1.0.0/16"]; Git := [];
     Pages := []; Importer := []; Actions := []; Dependabot := [] |}.

Definition nothing_cached : @controller.SyncReconciler AnyProvider AnyIngress :=
  {| controller.ProviderCache := ∅; controller.IngressCache := ∅ |}.

(** The state at the start of a reconciliation; a nanosecond passes
    before the first reading of the clock. *)
Definition begin (replies : list Reply) : @controller.State scripted :=
  {| controller.world := start replies [1%N]; controller.invoked := [] |}.

(** Failure mode continue by default; no configuration can be read. *)
Definition unreachable : @controller.State scripted :=
  begin [RSyncConfig (two_sources None); RError "not found"; RError "not found";
         RError "not found"; RDone].

(** Failure mode fail; the configuration of the first source cannot be
    read. *)
Definition first_unknown : @controller.State scripted :=
  begin [RSyncConfig (two_sources fail_policy); RError "not found"; RDone].


(** Reconcile on the registered kinds, in the scripted world. *)
Definition reconcile (s : @controller.State scripted) :=
  @controller.Reconcile sample scripted AnyProvider AnyIngress
    (@registered_providers sample scripted) (@registered_ingress sample scripted)
    "" "sync" nothing_cached s.

Section Runs.
Import controller.

Definition fail_after_read : @State scripted :=
  (lift (call (EvGet "SyncConfig" "" "sync") (Get_SyncConfig "" "sync")) first_unknown).2.

Definition fail_after_round :=
  provider_round (env:=scripted) (P:=AnyProvider) (I:=AnyIngress)
    (ProviderI0:=@registered_providers sample scripted)
    {| pr_Name := "mirror"; IncludeRanges := []; ExcludeRanges := [] |}
    nothing_cached (lift time_Now (lift time_Now fail_after_read).2).2.






End Runs.

End scenario.

(* --------------------------------------------------------------------- *)
(* More vocabulary                                                        *)
(* --------------------------------------------------------------------- *)

Module terms.
Import rt wire v1alpha1.

(** The members that the loop over the CIDRs of one category makes: one
    for each CIDR that net.ParseCIDR accepts, with the labels of the
    loop. *)
Definition tagged {lib : GoLib} (labels : list string) (cidrs : list string) : list IPRange :=
  map (fun c => {| CIDR := c; Labels := labels |}) (List.filter ParseCIDR_ok cidrs).

(** A byte occurs in a string. *)
Fixpoint occurs (c : ascii) (s : string) : bool :=
  match s with
  | EmptyString => false
  | String x rest => Ascii.eqb x c || occurs c rest
  end.

(** [p] is a prefix of [s]. *)
Definition starts_with (p s : string) : Prop := exists rest, s = p ++ rest.

Section WithWorld.
Context {lib : GoLib} {env : Env}.

(** A computation appends events that all satisfy [Q] to the trace, and
    its result satisfies [R]. *)
Definition yields {A} (Q : Event -> Prop) (R : A -> Prop) (m : M A) : Prop :=
  forall w, exists evs,
    trace (m w).2 = (trace w ++ evs)%list /\ Forall Q evs /\ R (m w).1.

(** The events a computation appended to the trace of [w]. *)
Definition appended {A} (m : M A) (w : World) : list Event :=
  drop (length (trace w)) (trace (m w).2).

(** A request of the target [c] to its zone of the Cloudflare API, by one
    of the methods GET, POST and PUT, with the token of [c]. *)
Definition to_zone (c : cloudflare.CloudflareIngress) (ev : Event) : Prop :=
  exists req,
    ev = EvHttp req
    /\ Header req = [("Authorization", "Bearer " ++ cloudflare.apiToken c);
                     ("Content-Type", "application/json")]
    /\ starts_with ("https://api.cloudflare.com/client/v4/zones/"
                    ++ cloudflare.zoneID c ++ "/") (URL req)
    /\ (Method req = "GET" \/ Method req = "POST" \/ Method req = "PUT").

(** Two instances of the rule-based target that differ at most in the
    memo and its time. *)
Definition same_settings (c c' : cloudflare.CloudflareIngress) : Prop :=
  exists data t,
    c' = {| cloudflare.name := cloudflare.name c;
            cloudflare.apiToken := cloudflare.apiToken c;
            cloudflare.zoneID := cloudflare.zoneID c;
            cloudflare.ruleName := cloudflare.ruleName c;
            cloudflare.description := cloudflare.description c;
            cloudflare.action := cloudflare.action c;
            cloudflare.priority := cloudflare.priority c;
            cloudflare.updateStrategy := cloudflare.updateStrategy c;
            cloudflare.cacheTTL := cloudflare.cacheTTL c;
            cloudflare.lastFetch := t; cloudflare.cachedData := data |}.

(** An event on an EnvoyFilter. *)
Definition on_EnvoyFilter (ev : Event) : bool :=
  match ev with
  | EvGet kind _ _ => String.eqb kind "EnvoyFilter"
  | EvCreateEnvoyFilter _ | EvUpdateEnvoyFilter _ => true
  | _ => false
  end.

Definition off_EnvoyFilter (ev : Event) : Prop := on_EnvoyFilter ev = false.

(** The memo of a target of either kind is absent or as old as its
    time-to-live. *)
Definition expired (cachedData : option IPRangeSet) (lastFetch cacheTTL : Z) (w : World)
  : Prop :=
  cachedData = None \/ cacheTTL <= (time_Since lastFetch w).1.

End WithWorld.

End terms.

(* --------------------------------------------------------------------- *)
(* More runs of the code in the scripted world                            *)
(* --------------------------------------------------------------------- *)

Module cases.
Import rt wire v1alpha1 script scenario.

(** A source as Init leaves it without options, and the metadata endpoint
    answering once; no time passes. *)
Definition octocat : github.GitHubProvider := (@github.Init sample github.zero ∅).1.

Definition first_fetch :=
  @github.FetchIPRanges sample scripted octocat (start [gh_ok meta] []).

(** A document-based target without the X-Forwarded-For filter, and a
    cluster in which the ConfigMap cannot be read. *)
Definition quiet_gateway : istio.IstioIngress :=
  {| istio.name := "quiet"; istio.namespace := "istio-system";
     istio.xForwardedFor := false; istio.xForwardedForName := "X-Forwarded-For";
     istio.gatewayName := "ingressgateway"; istio.gatewayNamespace := "istio-system";
     istio.gatewayLabels := ∅; istio.resourceName := "ip-ranges";
     istio.cacheTTL := hour; istio.lastFetch := 0; istio.cachedData := None |}.

Definition forbidden : World := start [RError "forbidden"] [].

(** The first apply of the document-based target in a cluster without its
    ConfigMap: the two reads fail and the creation succeeds. *)
Definition bare_cluster : World :=
  start [RError "not found"; RError "not found"; RDone] [].

Definition stored_apply :=
  @istio.ApplyIPRanges sample scripted quiet_gateway desired bare_cluster.

(** A zone whose filter holds another range: the two reads of the first
    apply and the listing before the update find it, and the update
    succeeds. *)
Definition outdated : Filter :=
  {| ID := "f1"; Expression := "(ip.src in {10.1.0.0/16})"; Paused := false;
     Description := "allow-github" |}.

Definition outdated_zone : World :=
  start [cf_ok [outdated]; cf_ok [outdated]; cf_ok [outdated]; cf_ok [created]] [].

Definition updating_apply :=
  @cloudflare.ApplyIPRanges sample scripted edge desired outdated_zone.

End cases.

(* ===================================================================== *)
(* Properties                                                             *)
(* ===================================================================== *)

Module model_facts.
Import spec.
Import model.
Section Facts.
Context {lib : GoLib}.

Lemma scan_labels_existsb needle labels v include :
  scan_labels needle labels v include
  = if existsb (String.eqb needle) labels then v else include.
Proof.
  induction labels as [|l ls IH]; simpl; [reflexivity|].
  destruct (String.eqb needle l); simpl; [reflexivity|apply IH].
Qed.

Lemma include_loop_spec inc labels b :
  include_loop inc labels b = b || intersects labels inc.
Proof.
  revert b. induction inc as [|l ls IH]; intros b; simpl.
  - by rewrite orb_false_r.
  - rewrite scan_labels_existsb.
    destruct (existsb (String.eqb l) labels); simpl.
    + by rewrite orb_true_r.
    + destruct b; simpl; [reflexivity|]. rewrite IH. reflexivity.
Qed.

Lemma exclude_loop_spec exc labels b :
  exclude_loop exc labels b = b && negb (intersects labels exc).
Proof.
  revert b. induction exc as [|l ls IH]; intros b; simpl.
  - by rewrite andb_true_r.
  - rewrite scan_labels_existsb.
    destruct (existsb (String.eqb l) labels); simpl.
    + by rewrite andb_false_r.
    + destruct b; simpl; [|reflexivity]. rewrite IH. reflexivity.
Qed.

Lemma keeps_spec inc exc r : keeps inc exc r = spec_keeps inc exc r.
Proof.
  unfold keeps, spec_keeps. rewrite exclude_loop_spec, include_loop_spec.
  f_equal. destruct exc; simpl; reflexivity.
Qed.

Lemma Filter_fold_filter (keep : IPRange -> bool) rs acc :
  Ranges (fold_left (fun result ipRange =>
            if keep ipRange then {| Ranges := Ranges result ++ [ipRange] |} else result)
          rs acc)
  = (Ranges acc ++ List.filter keep rs)%list.
Proof.
  revert acc. induction rs as [|r rs IH]; intros acc; simpl.
  - by rewrite app_nil_r.
  - rewrite IH. destruct (keep r); simpl; [|reflexivity].
    by rewrite <- app_assoc.
Qed.

Lemma Filter_ranges s inc exc :
  Ranges (Filter s inc exc) = List.filter (keeps inc exc) (Ranges s).
Proof. unfold Filter. rewrite Filter_fold_filter. reflexivity. Qed.

Lemma intersects_elem labels wanted :
  intersects labels wanted = true <-> exists l, l ∈ labels /\ l ∈ wanted.
Proof.
  unfold intersects. rewrite existsb_exists. split.
  - intros (w & Hw & Hl). apply existsb_exists in Hl as (l & Hl & Heq).
    apply String.eqb_eq in Heq. subst. exists l.
    split; by apply list_elem_of_In.
  - intros (l & Hl & Hw). exists l. split; [by apply list_elem_of_In|].
    apply existsb_exists. exists l. split; [by apply list_elem_of_In|].
    apply String.eqb_refl.
Qed.

End Facts.
End model_facts.

Module diff_facts.
Import spec.
Import model.
Section Facts.
Context {lib : GoLib}.

Lemma find_snoc {A} (p : A -> bool) (l : list A) (x : A) :
  List.find p (l ++ [x])
  = match List.find p l with
    | Some y => Some y
    | None => if p x then Some x else None
    end.
Proof.
  induction l as [|a l IH]; simpl; [reflexivity|].
  destruct (p a); [reflexivity|exact IH].
Qed.

Lemma index_fold_lookup rs (m : gmap string IPRange) c :
  fold_left (fun m ipRange => <[CIDR ipRange := ipRange]> m) rs m !! c
  = match last_with_cidr c rs with
    | Some r => Some r
    | None => m !! c
    end.
Proof.
  revert m. induction rs as [|r rs IH]; intros m; [reflexivity|].
  cbn [fold_left]. rewrite IH. unfold last_with_cidr. cbn [rev].
  rewrite find_snoc.
  destruct (List.find _ (rev rs)); [reflexivity|].
  destruct (String.eqb_spec (CIDR r) c) as [->|Hne].
  - apply lookup_insert_eq.
  - by apply lookup_insert_ne.
Qed.

Lemma index_lookup rs c : index_by_cidr rs !! c = last_with_cidr c rs.
Proof.
  unfold index_by_cidr. rewrite index_fold_lookup.
  destruct (last_with_cidr c rs); [reflexivity|apply lookup_empty].
Qed.

Lemma last_with_cidr_Some c rs r :
  last_with_cidr c rs = Some r -> r ∈ rs /\ CIDR r = c.
Proof.
  unfold last_with_cidr. intros Hf. apply find_some in Hf as [Hin Heq].
  apply String.eqb_eq in Heq. split; [|exact Heq].
  apply list_elem_of_In. by apply in_rev.
Qed.

Lemma last_with_cidr_None c rs :
  last_with_cidr c rs = None <-> c ∉ map CIDR rs.
Proof.
  unfold last_with_cidr. split.
  - intros Hf Hin. apply list_elem_of_In, in_map_iff in Hin as (r & Hr & Hin).
    apply in_rev in Hin. apply (find_none _ _ Hf r) in Hin as Hne.
    subst c. by rewrite String.eqb_refl in Hne.
  - intros Hnot. destruct (List.find _ (rev rs)) as [r|] eqn:Hf; [|reflexivity].
    apply find_some in Hf as [Hin Heq]. apply String.eqb_eq in Heq.
    exfalso. apply Hnot. apply list_elem_of_In, in_map_iff.
    exists r. split; [exact Heq|by apply in_rev].
Qed.

Lemma last_with_cidr_is_Some c rs :
  is_Some (last_with_cidr c rs) <-> c ∈ map CIDR rs.
Proof.
  rewrite <- not_eq_None_Some, last_with_cidr_None.
  split; [|tauto]. intros Hnn. destruct (decide (c ∈ map CIDR rs)); tauto.
Qed.

Lemma range_map_perm (m : gmap string IPRange) : range_map m ≡ₚ map_to_list m.
Proof. apply merge_sort_Permutation. Qed.

Lemma missing_fold (against : gmap string IPRange) kvs acc :
  Ranges (fold_left
            (fun out (kv : string * IPRange) =>
               match against !! kv.1 with
               | Some _ => out
               | None => {| Ranges := Ranges out ++ [kv.2] |}
               end) kvs acc)
  = (Ranges acc
     ++ map snd (List.filter (fun kv => bool_decide (against !! kv.1 = None)) kvs))%list.
Proof.
  revert acc. induction kvs as [|kv kvs IH]; intros acc; simpl.
  - by rewrite app_nil_r.
  - rewrite IH. destruct (against !! kv.1); simpl; [reflexivity|].
    by rewrite <- app_assoc.
Qed.

Lemma missing_from_ranges from against :
  Ranges (missing_from from against)
  = map snd (List.filter (fun kv => bool_decide (against !! kv.1 = None)) (range_map from)).
Proof. unfold missing_from. by rewrite missing_fold. Qed.

Lemma elem_of_missing_from from against r :
  r ∈ Ranges (missing_from from against)
  <-> exists c, from !! c = Some r /\ against !! c = None.
Proof.
  rewrite missing_from_ranges. rewrite list_elem_of_In, in_map_iff. split.
  - intros ([c r'] & Heq & Hin). simpl in Heq. subst r'.
    apply filter_In in Hin as [Hin Hd]. apply bool_decide_eq_true in Hd.
    exists c. split; [|exact Hd].
    apply list_elem_of_In in Hin. rewrite range_map_perm in Hin.
    by apply elem_of_map_to_list in Hin.
  - intros (c & Hf & Ha). exists (c, r). split; [reflexivity|].
    apply filter_In. split; [|by apply bool_decide_eq_true].
    apply list_elem_of_In. rewrite range_map_perm.
    by apply elem_of_map_to_list.
Qed.

Lemma NoDup_filter_In {A} (p : A -> bool) (f : A -> string) l :
  NoDup (map f l) -> NoDup (map f (List.filter p l)).
Proof.
  induction l as [|a l IH]; simpl; [done|].
  intros Hnd. apply NoDup_cons in Hnd as [Hnin Hnd].
  destruct (p a); simpl; [|by apply IH].
  apply NoDup_cons. split; [|by apply IH].
  intros Hin. apply Hnin.
  apply list_elem_of_In, in_map_iff in Hin as (x & Hx & Hin).
  apply filter_In in Hin as [Hin _].
  apply list_elem_of_In, in_map_iff. by exists x.
Qed.

Lemma missing_from_index_cidrs rs against :
  map CIDR (Ranges (missing_from (index_by_cidr rs) against))
  = map fst (List.filter (fun kv => bool_decide (against !! kv.1 = None))
               (range_map (index_by_cidr rs))).
Proof.
  rewrite missing_from_ranges, map_map.
  apply map_ext_in. intros [c r] Hin. simpl.
  apply filter_In in Hin as [Hin _].
  apply list_elem_of_In in Hin. rewrite range_map_perm in Hin.
  apply elem_of_map_to_list in Hin. rewrite index_lookup in Hin.
  by apply last_with_cidr_Some in Hin as [_ ?].
Qed.

Lemma missing_from_NoDup rs against :
  NoDup (map CIDR (Ranges (missing_from (index_by_cidr rs) against))).
Proof.
  rewrite missing_from_index_cidrs. apply NoDup_filter_In.
  rewrite range_map_perm. apply NoDup_fst_map_to_list.
Qed.

Lemma elem_of_missing_index rs1 rs2 r :
  r ∈ Ranges (missing_from (index_by_cidr rs1) (index_by_cidr rs2))
  <-> last_with_cidr (CIDR r) rs1 = Some r /\ CIDR r ∉ map CIDR rs2.
Proof.
  rewrite elem_of_missing_from. split.
  - intros (c & Hf & Ha). rewrite index_lookup in Hf, Ha.
    apply last_with_cidr_Some in Hf as Hc. destruct Hc as [_ <-].
    split; [exact Hf|by apply last_with_cidr_None].
  - intros [Hl Hn]. exists (CIDR r). rewrite !index_lookup.
    split; [exact Hl|by apply last_with_cidr_None].
Qed.

Lemma cidr_of_missing_index rs1 rs2 c :
  c ∈ map CIDR (Ranges (missing_from (index_by_cidr rs1) (index_by_cidr rs2)))
  <-> c ∈ map CIDR rs1 /\ c ∉ map CIDR rs2.
Proof.
  split.
  - intros Hin. apply list_elem_of_In, in_map_iff in Hin as (r & <- & Hin).
    apply list_elem_of_In, elem_of_missing_index in Hin as [Hl Hn].
    split; [|exact Hn]. apply last_with_cidr_is_Some. by exists r.
  - intros [Hin Hn]. apply last_with_cidr_is_Some in Hin as [r Hr].
    apply last_with_cidr_Some in Hr as Hc. destruct Hc as [_ Hc].
    apply list_elem_of_In, in_map_iff. exists r. split; [exact Hc|].
    apply list_elem_of_In, elem_of_missing_index. rewrite Hc. by split.
Qed.

End Facts.
End diff_facts.

Module model_claims.
Import spec.
Import model model_facts diff_facts.
Section Claims.
Context {lib : GoLib}.

Lemma IPRangeSet_ext (a b : IPRangeSet) : Ranges a = Ranges b -> a = b.
Proof. destruct a, b; simpl; congruence. Qed.

Lemma spec_keeps_iff inc exc r :
  spec_keeps inc exc r = true
  <-> (inc = [] \/ shares_label r inc) /\ ~ (exc <> [] /\ shares_label r exc).
Proof.
  unfold spec_keeps, shares_label.
  rewrite andb_true_iff, orb_true_iff, negb_true_iff, andb_false_iff,
    negb_false_iff, !Nat.eqb_eq, !length_zero_iff_nil, intersects_elem.
  rewrite <- not_true_iff_false, intersects_elem.
  split.
  - intros [Hi He]. split; [exact Hi|]. intros [Hne Hs]. destruct He; tauto.
  - intros [Hi He]. split; [exact Hi|].
    destruct exc as [|e exc]; [by left|]. right. intros Hs. apply He. by split.
Qed.

Lemma Filter_no_labels (s : IPRangeSet) : Filter s [] [] = s.
Proof.
  apply IPRangeSet_ext. rewrite Filter_ranges.
  induction (Ranges s) as [|r rs IH]; [reflexivity|].
  cbn [List.filter]. unfold keeps at 1. cbn. by rewrite IH.
Qed.

(** C6. Filter keeps, in their order, exactly the members that satisfy the
    condition of the specification: (include is empty or the labels
    intersect include) and not (exclude is not empty and the labels
    intersect exclude). Filter with two empty lists returns the input, and
    a member whose only label is both included and excluded is dropped. *)
Theorem Filter_keeps_by_labels (s : IPRangeSet) (inc exc : list string) :
  Ranges (Filter s inc exc) = List.filter (spec_keeps inc exc) (Ranges s)
  /\ (forall r, r ∈ Ranges (Filter s inc exc)
        <-> r ∈ Ranges s
            /\ (inc = [] \/ shares_label r inc)
            /\ ~ (exc <> [] /\ shares_label r exc))
  /\ Filter s [] [] = s
  /\ (forall r l, r ∈ Ranges s -> Labels r = [l] -> l ∈ inc -> l ∈ exc ->
        r ∉ Ranges (Filter s inc exc)).
Proof.
  assert (Heq : Ranges (Filter s inc exc) = List.filter (spec_keeps inc exc) (Ranges s)).
  { rewrite Filter_ranges. apply filter_ext. intros r. apply keeps_spec. }
  assert (Hmem : forall r, r ∈ Ranges (Filter s inc exc)
        <-> r ∈ Ranges s
            /\ (inc = [] \/ shares_label r inc)
            /\ ~ (exc <> [] /\ shares_label r exc)).
  { intros r. rewrite Heq, list_elem_of_In, filter_In, spec_keeps_iff.
    by rewrite <- list_elem_of_In. }
  split; [exact Heq|]. split; [exact Hmem|]. split.
  - apply Filter_no_labels.
  - intros r l Hr Hl Hi He Hin. apply Hmem in Hin as (_ & _ & Hn).
    apply Hn. split.
    + intros ->. by apply not_elem_of_nil in He.
    + exists l. rewrite Hl. split; [apply list_elem_of_here|exact He].
Qed.

End Claims.
End model_claims.

Module diff_claims.
Import spec.
Import model model_facts diff_facts model_claims.
Section Claims.
Context {lib : GoLib}.

Lemma Merge_ranges (a b : IPRangeSet) : Ranges (Merge a b) = (Ranges a ++ Ranges b)%list.
Proof. reflexivity. Qed.

Lemma missing_from_empty rs1 rs2 :
  (forall c, c ∈ map CIDR rs1 -> c ∈ map CIDR rs2) ->
  missing_from (index_by_cidr rs1) (index_by_cidr rs2) = NewIPRangeSet.
Proof.
  intros Hsub. apply IPRangeSet_ext. simpl.
  destruct (Ranges (missing_from _ _)) as [|r rs] eqn:E; [reflexivity|].
  exfalso.
  assert (Hin : r ∈ Ranges (missing_from (index_by_cidr rs1) (index_by_cidr rs2))).
  { rewrite E. apply list_elem_of_here. }
  apply elem_of_missing_index in Hin as [Hl Hn]. apply Hn, Hsub.
  apply last_with_cidr_is_Some. by exists r.
Qed.

Lemma Diff_same_cidrs (A B : IPRangeSet) :
  (forall c, c ∈ GetCIDRs A <-> c ∈ GetCIDRs B) ->
  Diff A B = (NewIPRangeSet, NewIPRangeSet).
Proof.
  intros Hsame. unfold Diff. f_equal; apply missing_from_empty; intros c; apply Hsame.
Qed.

(** C5, as the code has it. Diff looks at CIDRs only. For each CIDR of the
    desired set that the receiver lacks, added holds one member: the last
    member of the desired set with that CIDR; removed likewise holds the
    last member of the receiver for each of its CIDRs that the desired set
    lacks. So the CIDRs of added are those of B that A lacks, the CIDRs of
    removed those of A that B lacks, each once; added is disjoint from A
    and removed from B by CIDR; the CIDRs of A merged with added, less
    those of removed, are the CIDRs of B; and two sets with the same CIDRs
    diff as empty whatever their labels. *)
Theorem Diff_by_cidr (A B : IPRangeSet) :
  let added := (Diff A B).1 in
  let removed := (Diff A B).2 in
  (forall r, r ∈ Ranges added
     <-> last_with_cidr (CIDR r) (Ranges B) = Some r /\ CIDR r ∉ GetCIDRs A)
  /\ (forall r, r ∈ Ranges removed
     <-> last_with_cidr (CIDR r) (Ranges A) = Some r /\ CIDR r ∉ GetCIDRs B)
  /\ NoDup (GetCIDRs added) /\ NoDup (GetCIDRs removed)
  /\ (forall c, c ∈ GetCIDRs added <-> c ∈ GetCIDRs B /\ c ∉ GetCIDRs A)
  /\ (forall c, c ∈ GetCIDRs removed <-> c ∈ GetCIDRs A /\ c ∉ GetCIDRs B)
  /\ (forall c, c ∈ GetCIDRs added -> c ∉ GetCIDRs A)
  /\ (forall c, c ∈ GetCIDRs removed -> c ∉ GetCIDRs B)
  /\ (forall c, c ∈ GetCIDRs (Merge A added) /\ c ∉ GetCIDRs removed
                <-> c ∈ GetCIDRs B)
  /\ ((forall c, c ∈ GetCIDRs A <-> c ∈ GetCIDRs B) ->
      added = NewIPRangeSet /\ removed = NewIPRangeSet).
Proof.
  cbn zeta. unfold Diff, GetCIDRs. cbn [fst snd].
  assert (Ha := cidr_of_missing_index (Ranges B) (Ranges A)).
  assert (Hr := cidr_of_missing_index (Ranges A) (Ranges B)).
  split; [intros r; apply elem_of_missing_index|].
  split; [intros r; apply elem_of_missing_index|].
  split; [apply missing_from_NoDup|].
  split; [apply missing_from_NoDup|].
  split; [exact Ha|]. split; [exact Hr|].
  split; [intros c Hin; by apply Ha in Hin as [_ ?]|].
  split; [intros c Hin; by apply Hr in Hin as [_ ?]|].
  split.
  - intros c. rewrite Merge_ranges, map_app, elem_of_app. split.
    + intros [Hin Hn].
      destruct Hin as [Hin|Hin]; [|by apply Ha in Hin as [? _]].
      destruct (decide (c ∈ map CIDR (Ranges B))) as [|Hnb]; [done|].
      exfalso. apply Hn, Hr. by split.
    + intros Hin. split.
      * destruct (decide (c ∈ map CIDR (Ranges A))) as [Hia|Hna]; [by left|].
        right. apply Ha. by split.
      * intros Hrem. by apply Hr in Hrem as [_ ?].
  - intros Hsame. fold (GetCIDRs A) in Hsame. fold (GetCIDRs B) in Hsame.
    pose proof (Diff_same_cidrs A B Hsame) as Hd. unfold Diff in Hd.
    by inversion Hd.
Qed.

End Claims.

(** C5 as stated fails where the desired set holds a CIDR twice: of the
    two members with CIDR 10.0.0.0/8, whose CIDR the receiver lacks, only
    the last is in added. *)
Lemma Diff_drops_duplicate_cidr :
  ~ (forall (L : GoLib) (A B : IPRangeSet) (r : IPRange),
       r ∈ Ranges (Diff A B).1 <-> r ∈ Ranges B /\ CIDR r ∉ GetCIDRs A).
Proof.
  intros Hall.
  pose (a := {| CIDR := "10.0.0.0/8"; Labels := ["web"] |}).
  pose (b := {| CIDR := "10.0.0.0/8"; Labels := ["api"] |}).
  destruct (Hall script.sample {| Ranges := [] |} {| Ranges := [a; b] |} a) as [_ Hback].
  assert (Hin : a ∈ Ranges (@Diff script.sample {| Ranges := [] |} {| Ranges := [a; b] |}).1).
  { apply Hback. split; [apply list_elem_of_here|]. simpl. apply not_elem_of_nil. }
  vm_compute in Hin.
  apply list_elem_of_In in Hin. destruct Hin as [Heq|[]]. discriminate Heq.
Qed.

End diff_claims.

Module heap_facts.
Import spec.
Import model_facts diff_facts model_claims.
Section Facts.
Context {lib : GoLib}.
Implicit Types h : gmap nat (list IPRange).

Lemma fresh_unused h : h !! fresh (dom h) = None.
Proof. apply not_elem_of_dom, is_fresh. Qed.

Lemma append_to_insert p acc rs h :
  h !! p = Some acc -> heap.append_to p rs h = Some (<[p := (acc ++ rs)%list]> h).
Proof. intros Hp. unfold heap.append_to. by rewrite Hp. Qed.

Lemma for_each_filter (keep : IPRange -> bool) p l acc h :
  h !! p = Some acc ->
  heap.for_each
    (fun ipRange h => if keep ipRange then heap.append_to p [ipRange] h else Some h) l h
  = Some (<[p := (acc ++ List.filter keep l)%list]> h).
Proof.
  revert acc h. induction l as [|x l IH]; intros acc h Hp; simpl.
  - rewrite app_nil_r. by rewrite insert_id.
  - destruct (keep x).
    + rewrite (append_to_insert _ _ _ _ Hp).
      rewrite (IH (acc ++ [x])%list); [|apply lookup_insert_eq].
      by rewrite insert_insert_eq, <- app_assoc.
    + by apply IH.
Qed.

Lemma for_each_missing (against : gmap string IPRange) p kvs acc h :
  h !! p = Some acc ->
  heap.for_each
    (fun (kv : string * IPRange) h =>
       match against !! kv.1 with
       | Some _ => Some h
       | None => heap.append_to p [kv.2] h
       end) kvs h
  = Some (<[p := (acc ++ map snd (List.filter
                     (fun kv => bool_decide (against !! kv.1 = None)) kvs))%list]> h).
Proof.
  revert acc h. induction kvs as [|kv kvs IH]; intros acc h Hp; simpl.
  - rewrite app_nil_r. by rewrite insert_id.
  - destruct (against !! kv.1); simpl.
    + by apply IH.
    + rewrite (append_to_insert _ _ _ _ Hp).
      rewrite (IH (acc ++ [kv.2])%list); [|apply lookup_insert_eq].
      by rewrite insert_insert_eq, <- app_assoc.
Qed.

Lemma append_missing_spec out from against h :
  h !! out = Some [] ->
  heap.append_missing out from against h
  = Some (<[out := Ranges (model.missing_from from against)]> h).
Proof.
  intros Hp. unfold heap.append_missing.
  rewrite (for_each_missing _ _ _ [] _ Hp). by rewrite missing_from_ranges.
Qed.

Lemma Filter_heap s inc exc h rs :
  h !! s = Some rs ->
  heap.Filter s inc exc h
  = Some (fresh (dom h),
          <[fresh (dom h) := Ranges (model.Filter {| Ranges := rs |} inc exc)]> h).
Proof.
  intros Hs. unfold heap.Filter, heap.NewIPRangeSet.
  assert (Hne : fresh (dom h) <> s).
  { intros Heq. by rewrite <- Heq, fresh_unused in Hs. }
  rewrite lookup_insert_ne, Hs by exact Hne.
  rewrite (for_each_filter _ _ _ []); [|apply lookup_insert_eq].
  by rewrite insert_insert_eq, Filter_ranges.
Qed.

Lemma Merge_heap s other h rs ro :
  h !! s = Some rs -> h !! other = Some ro ->
  heap.Merge s other h
  = Some (fresh (dom h),
          <[fresh (dom h) := Ranges (model.Merge {| Ranges := rs |} {| Ranges := ro |})]> h).
Proof.
  intros Hs Ho. unfold heap.Merge, heap.NewIPRangeSet.
  assert (Hns : fresh (dom h) <> s).
  { intros Heq. by rewrite <- Heq, fresh_unused in Hs. }
  assert (Hno : fresh (dom h) <> other).
  { intros Heq. by rewrite <- Heq, fresh_unused in Ho. }
  rewrite lookup_insert_ne, Hs by exact Hns.
  rewrite (append_to_insert _ [] _ _); [|apply lookup_insert_eq].
  rewrite insert_insert_eq.
  rewrite lookup_insert_ne, Ho by exact Hno.
  rewrite (append_to_insert _ ([] ++ rs)%list _ _); [|apply lookup_insert_eq].
  by rewrite insert_insert_eq.
Qed.

Lemma Diff_heap s other h rs ro :
  h !! s = Some rs -> h !! other = Some ro ->
  let added := fresh (dom h) in
  let removed := fresh (dom (<[added := []]> h)) in
  heap.Diff s other h
  = Some (added, removed,
          <[removed := Ranges (model.Diff {| Ranges := rs |} {| Ranges := ro |}).2]>
            (<[added := Ranges (model.Diff {| Ranges := rs |} {| Ranges := ro |}).1]> h))
  /\ added <> removed.
Proof.
  intros Hs Ho added removed.
  assert (Hna : h !! added = None) by apply fresh_unused.
  assert (Hnr : <[added := []]> h !! removed = None) by apply fresh_unused.
  assert (Har : added <> removed).
  { intros Heq. rewrite <- Heq, lookup_insert_eq in Hnr. discriminate Hnr. }
  assert (Hrs : removed <> s).
  { intros Heq. rewrite Heq in Hnr. rewrite lookup_insert_ne in Hnr; [congruence|].
    intros ->. congruence. }
  assert (Hro : removed <> other).
  { intros Heq. rewrite Heq in Hnr. rewrite lookup_insert_ne in Hnr; [congruence|].
    intros ->. congruence. }
  assert (Has : added <> s) by (intros ->; congruence).
  assert (Hao : added <> other) by (intros ->; congruence).
  split; [|exact Har].
  unfold heap.Diff, heap.NewIPRangeSet. fold added. fold removed.
  rewrite !lookup_insert_ne, Ho, Hs by done.
  rewrite append_missing_spec.
  2:{ rewrite lookup_insert_ne by done. apply lookup_insert_eq. }
  rewrite append_missing_spec.
  2:{ rewrite lookup_insert_ne by done. apply lookup_insert_eq. }
  unfold model.Diff. cbn [fst snd Ranges].
  do 2 f_equal.
  rewrite (insert_insert_ne _ added removed) by done.
  by rewrite !insert_insert_eq.
Qed.

End Facts.
End heap_facts.

Module heap_claims.
Import spec scenario.
Import heap_facts.

Section Claims.
Context {lib : GoLib}.
Implicit Types h : gmap nat (list IPRange).

Lemma allocates_insert h p v : h !! p = None -> allocates_only h (<[p := v]> h) [p].
Proof.
  intros Hp. split.
  - intros q Hq. apply list_elem_of_singleton in Hq. by subst.
  - intros q Hq. apply lookup_insert_ne. intros ->. apply Hq, list_elem_of_here.
Qed.

(** C10. Filter, Merge and Diff allocate their results and write nowhere
    else: on a heap where the receiver [s] and the argument [other] are
    allocated (they may be the same object), each returns objects at
    addresses that were not in use, holding what the method computes, and
    every object of the heap before the call, the receiver and the
    argument among them, has the Ranges it had. *)
Theorem operations_leave_operands h (s other : nat) (rs ro : list IPRange)
    (inc exc : list string) :
  h !! s = Some rs -> h !! other = Some ro ->
  (exists p h',
      heap.Filter s inc exc h = Some (p, h')
      /\ allocates_only h h' [p]
      /\ h' !! p = Some (Ranges (model.Filter {| Ranges := rs |} inc exc))
      /\ h' !! s = Some rs)
  /\ (exists p h',
      heap.Merge s other h = Some (p, h')
      /\ allocates_only h h' [p]
      /\ h' !! p = Some (Ranges (model.Merge {| Ranges := rs |} {| Ranges := ro |}))
      /\ h' !! s = Some rs /\ h' !! other = Some ro)
  /\ (exists added removed h',
      heap.Diff s other h = Some (added, removed, h')
      /\ allocates_only h h' [added; removed] /\ added <> removed
      /\ h' !! added
         = Some (Ranges (model.Diff {| Ranges := rs |} {| Ranges := ro |}).1)
      /\ h' !! removed
         = Some (Ranges (model.Diff {| Ranges := rs |} {| Ranges := ro |}).2)
      /\ h' !! s = Some rs /\ h' !! other = Some ro).
Proof.
  intros Hs Ho.
  assert (Hf := fresh_unused h).
  assert (Hns : fresh (dom h) <> s) by (intros Heq; congruence).
  assert (Hno : fresh (dom h) <> other) by (intros Heq; congruence).
  split; [|split].
  - eexists _, _. split; [by apply Filter_heap|].
    split; [by apply allocates_insert|].
    split; [apply lookup_insert_eq|]. by rewrite lookup_insert_ne.
  - eexists _, _. split; [by apply Merge_heap|].
    split; [by apply allocates_insert|].
    split; [apply lookup_insert_eq|]. by rewrite !lookup_insert_ne.
  - destruct (Diff_heap s other h rs ro Hs Ho) as [Hd Hne].
    set (added := fresh (dom h)) in *.
    set (removed := fresh (dom (<[added := []]> h))) in *.
    assert (Hnr : <[added := []]> h !! removed = None) by apply fresh_unused.
    assert (Hr : h !! removed = None).
    { rewrite lookup_insert_ne in Hnr; done. }
    assert (Hrs : removed <> s) by (intros Heq; congruence).
    assert (Hro : removed <> other) by (intros Heq; congruence).
    eexists _, _, _. split; [exact Hd|]. split; [|split; [exact Hne|]].
    + split.
      * intros p Hp. apply elem_of_cons in Hp as [->|Hp]; [done|].
        apply list_elem_of_singleton in Hp. by subst.
      * intros q Hq. rewrite !lookup_insert_ne; [done| |].
        -- intros ->. apply Hq. apply list_elem_of_here.
        -- intros ->. apply Hq. apply list_elem_of_further, list_elem_of_here.
    + split; [by rewrite lookup_insert_ne, lookup_insert_eq|].
      split; [apply lookup_insert_eq|].
      by rewrite !lookup_insert_ne.
Qed.

End Claims.

Lemma operations_leave_operands_witness :
  two_sets !! 0%nat = Some [web; api] /\ two_sets !! 1%nat = Some [api]
  /\ exists p h', heap.Filter 0 ["web"] [] two_sets = Some (p, h')
                  /\ h' !! 0%nat = Some [web; api].
Proof.
  split; [reflexivity|]. split; [reflexivity|].
  destruct (@operations_leave_operands script.sample two_sets 0 1 [web; api] [api]
              ["web"] [] eq_refl eq_refl) as [(p & h' & Hf & _ & _ & Hs) _].
  exists p, h'. split; [exact Hf|exact Hs].
Defined.

End heap_claims.

Module expression_facts.
Import spec.
Import cloudflare model_claims.

Lemma append_cons (x : ascii) (a b : string) : String x a ++ b = String x (a ++ b).
Proof. reflexivity. Qed.

Lemma append_nil_l (b : string) : "" ++ b = b.
Proof. reflexivity. Qed.

Lemma append_assoc (a b c : string) : (a ++ b) ++ c = a ++ (b ++ c).
Proof.
  induction a as [|x a IH]; [reflexivity|].
  rewrite !append_cons. by rewrite IH.
Qed.

Lemma append_nil_r (a : string) : a ++ "" = a.
Proof.
  induction a as [|x a IH]; [reflexivity|].
  rewrite append_cons. by rewrite IH.
Qed.

Lemma length_append (a b : string) :
  String.length (a ++ b) = (String.length a + String.length b)%nat.
Proof.
  induction a as [|x a IH]; [reflexivity|].
  rewrite append_cons. simpl. by rewrite IH.
Qed.

Lemma substring_prefix (a b : string) : substring 0 (String.length a) (a ++ b) = a.
Proof.
  induction a as [|x a IH].
  - rewrite append_nil_l. by destruct b.
  - rewrite append_cons. simpl. by rewrite IH.
Qed.

(** The closing brace that a later part of the string holds is the one
    that find_close returns. *)
Lemma find_close_later (w s : string) (i j : nat) :
  find_close s (i + String.length w) = S j -> find_close (w ++ s) i = S j.
Proof.
  revert i. induction w as [|c w IH]; intros i Hs.
  - rewrite append_nil_l. simpl in Hs. by rewrite Nat.add_0_r in Hs.
  - rewrite append_cons. cbn [find_close].
    rewrite (IH (S i)); [reflexivity|].
    rewrite <- Hs. f_equal. simpl. lia.
Qed.

Lemma find_close_end (k : nat) : find_close "})" k = k.
Proof. reflexivity. Qed.

(** The loop of buildFilterExpression after its first round. *)
Lemma join_cidrs_later (cidrs : list string) (i : nat) (acc : string) :
  (0 < i)%nat -> join_cidrs cidrs i acc = acc ++ spaced cidrs.
Proof.
  revert i acc. induction cidrs as [|c cidrs IH]; intros i acc Hi; cbn [join_cidrs spaced].
  - by rewrite append_nil_r.
  - destruct (Nat.ltb_spec 0 i) as [_|Hle]; [|lia].
    rewrite IH by lia. by rewrite !append_assoc.
Qed.

Lemma join_cidrs_first (c : string) (cidrs : list string) :
  join_cidrs (c :: cidrs) 0 "" = c ++ spaced cidrs.
Proof. cbn [join_cidrs]. simpl Nat.ltb. cbv iota. by rewrite join_cidrs_later by lia. Qed.

(** bytes.Fields reads a run without white space into the field. *)
Lemma Fields_from_word (w s field : string) :
  no_space w = true -> Fields_from (w ++ s) field = Fields_from s (field ++ w).
Proof.
  revert field. induction w as [|c w IH]; intros field Hw.
  - by rewrite append_nil_l, append_nil_r.
  - cbn [no_space] in Hw. apply andb_true_iff in Hw as [Hc Hw].
    apply negb_true_iff in Hc.
    rewrite append_cons. cbn [Fields_from]. rewrite Hc, IH by exact Hw.
    by rewrite append_assoc.
Qed.

Lemma eqb_nonempty (s : string) : s <> "" -> String.eqb s "" = false.
Proof. intros Hs. by apply String.eqb_neq. Qed.

Lemma Fields_from_spaced (cidrs : list string) (field : string) :
  field <> "" ->
  Forall (fun c => c <> "" /\ no_space c = true) cidrs ->
  Fields_from (spaced cidrs) field = field :: cidrs.
Proof.
  revert field. induction cidrs as [|c cidrs IH]; intros field Hf Hall.
  - cbn. by rewrite eqb_nonempty.
  - apply Forall_cons in Hall as [[Hc Hw] Hall].
    cbn [spaced]. change (" " ++ c ++ spaced cidrs) with (String " " (c ++ spaced cidrs)).
    cbn [Fields_from]. change (isSpace " ") with true. cbv iota.
    rewrite eqb_nonempty by exact Hf.
    rewrite Fields_from_word by exact Hw. rewrite append_nil_l.
    by rewrite IH.
Qed.

Lemma Fields_join (c : string) (cidrs : list string) :
  Forall (fun c => c <> "" /\ no_space c = true) (c :: cidrs) ->
  Fields (join_cidrs (c :: cidrs) 0 "") = c :: cidrs.
Proof.
  intros Hall. apply Forall_cons in Hall as [[Hc Hw] Hall].
  rewrite join_cidrs_first. unfold Fields.
  rewrite Fields_from_word by exact Hw. rewrite append_nil_l.
  by apply Fields_from_spaced.
Qed.

Section WithLib.
Context {lib : GoLib}.

Lemma add_each_valid (labels : list string) (cidrs : list string) (set : IPRangeSet) :
  Forall (fun c => ParseCIDR_ok c = true) cidrs ->
  model.add_each labels cidrs set
  = {| Ranges := (Ranges set
                  ++ map (fun c => {| CIDR := c; Labels := labels |}) cidrs)%list |}.
Proof.
  revert set. induction cidrs as [|c cidrs IH]; intros set Hall.
  - cbn. rewrite app_nil_r. by destruct set.
  - apply Forall_cons in Hall as [Hc Hall].
    unfold model.add_each in *. cbn [fold_left map]. unfold model.Add at 2.
    rewrite Hc. cbn [fst]. rewrite IH by exact Hall. cbn [Ranges].
    by rewrite <- app_assoc.
Qed.

Lemma parse_built (body : string) :
  parseFilterExpression ("(ip.src in {" ++ body ++ "})")
  = model.add_each ["cloudflare"] (Fields body) model.NewIPRangeSet.
Proof.
  unfold parseFilterExpression.
  assert (Hopen : find_open ("(ip.src in {" ++ body ++ "})") 0 = 11%nat) by reflexivity.
  assert (Hclose : find_close ("(ip.src in {" ++ body ++ "})") 0
                   = S (11 + String.length body)).
  { change ("(ip.src in {" ++ body ++ "})") with ("(ip.src in {" ++ (body ++ "})")).
    rewrite <- append_assoc.
    apply find_close_later. rewrite find_close_end, length_append. simpl. lia. }
  rewrite Hopen, Hclose.
  replace (Nat.eqb 11 0 || Nat.eqb (S (11 + String.length body)) 0
           || Nat.leb (S (11 + String.length body)) 11)%bool with false.
  2:{ symmetry. cbn [Nat.eqb orb]. apply Nat.leb_gt. lia. }
  replace (S (11 + String.length body) - (11 + 1))%nat with (String.length body) by lia.
  change (substring (11 + 1) (String.length body) ("(ip.src in {" ++ body ++ "})"))
    with (substring 0 (String.length body) (body ++ "})")).
  by rewrite substring_prefix.
Qed.

End WithLib.
End expression_facts.

Module sample_facts.
Import spec.
Import cloudflare expression_facts script.

Lemma no_space_append (a b : string) :
  no_space (a ++ b) = no_space a && no_space b.
Proof.
  induction a as [|x a IH]; [reflexivity|].
  rewrite append_cons. cbn [no_space]. by rewrite IH, andb_assoc.
Qed.

Lemma digit_no_space (c : ascii) (d : nat) : digit c = Some d -> isSpace c = false.
Proof.
  unfold digit, isSpace. intros Hd.
  destruct (Nat.leb_spec 48 (nat_of_ascii c)) as [Hlo|]; [|discriminate Hd].
  rewrite !orb_false_iff. repeat split; apply Nat.eqb_neq; lia.
Qed.

Lemma number_no_space (s : string) (acc n : nat) :
  number s acc = Some n -> no_space s = true.
Proof.
  revert acc. induction s as [|c s IH]; intros acc Hn; [reflexivity|].
  cbn [number] in Hn. destruct (digit c) as [d|] eqn:Hd; [|discriminate Hn].
  cbn [no_space]. rewrite (digit_no_space _ _ Hd). simpl. by eapply IH.
Qed.

Lemma small_number_no_space (bound : nat) (s : string) :
  small_number bound s = true -> no_space s = true.
Proof.
  unfold small_number. destruct s as [|c s]; [discriminate|].
  intros Hs. apply andb_true_iff in Hs as [_ Hs].
  destruct (number (String c s) 0) as [n|] eqn:Hn; [|discriminate Hs].
  by eapply number_no_space.
Qed.

Lemma cut_found (sep : ascii) (s a b : string) :
  cut sep s = (a, Some b) -> s = a ++ String sep b.
Proof.
  revert a. induction s as [|c s IH]; intros a Hc; [discriminate Hc|].
  cbn [cut] in Hc. destruct (Ascii.eqb_spec c sep) as [->|Hne].
  - by inversion Hc.
  - destruct (cut sep s) as [a' ob]. inversion Hc; subst.
    rewrite append_cons. f_equal. by apply IH.
Qed.

(** The sample ParseCIDR accepts only strings that are not empty and hold
    no white space. *)
Lemma ipv4_cidr_plain (s : string) :
  ipv4_cidr s = true -> s <> "" /\ no_space s = true.
Proof.
  unfold ipv4_cidr. intros Hs.
  destruct (cut "/" s) as [addr [bits|]] eqn:C0; [|discriminate Hs].
  destruct (cut "." addr) as [a [r1|]] eqn:C1; [|discriminate Hs].
  destruct (cut "." r1) as [b [r2|]] eqn:C2; [|discriminate Hs].
  destruct (cut "." r2) as [c [d|]] eqn:C3; [|discriminate Hs].
  repeat (apply andb_true_iff in Hs as [Hs ?]).
  apply cut_found in C0, C1, C2, C3. subst.
  split.
  - destruct a; discriminate.
  - repeat (rewrite !no_space_append; cbn [no_space]).
    repeat match goal with
           | Hn : small_number _ _ = true |- _ =>
               apply small_number_no_space in Hn; rewrite Hn; clear Hn
           end.
    reflexivity.
Qed.

End sample_facts.

Module expression_claims.
Import spec.
Import cloudflare expression_facts sample_facts.
Section Claims.
Context {lib : GoLib}.

(** C7. The expression built from the set {10.0.0.0/8, 10.1.0.0/16} is
    exactly (ip.src in {10.0.0.0/8 10.1.0.0/16}), and parsing that string
    gives the two CIDRs; for every set that is not empty and whose CIDRs
    net.ParseCIDR accepts, parsing the expression built from the set gives
    the CIDRs of the set, in their order. What is used of net.ParseCIDR is
    that it accepts no empty string and no string with white space. *)
Theorem build_parse_roundtrip
    (Hplain : forall c, ParseCIDR_ok c = true -> c <> "" /\ no_space c = true) :
  (forall l1 l2,
      buildFilterExpression
        {| Ranges := [ {| CIDR := "10.0.0.0/8"; Labels := l1 |};
                       {| CIDR := "10.1.0.0/16"; Labels := l2 |} ] |}
      = "(ip.src in {10.0.0.0/8 10.1.0.0/16})")
  /\ (ParseCIDR_ok "10.0.0.0/8" = true -> ParseCIDR_ok "10.1.0.0/16" = true ->
      model.GetCIDRs (parseFilterExpression "(ip.src in {10.0.0.0/8 10.1.0.0/16})")
      = ["10.0.0.0/8"; "10.1.0.0/16"])
  /\ (forall s : IPRangeSet,
        Ranges s <> [] ->
        Forall (fun c => ParseCIDR_ok c = true) (model.GetCIDRs s) ->
        model.GetCIDRs (parseFilterExpression (buildFilterExpression s))
        = model.GetCIDRs s).
Proof.
  assert (Hgen : forall s : IPRangeSet,
        Ranges s <> [] ->
        Forall (fun c => ParseCIDR_ok c = true) (model.GetCIDRs s) ->
        model.GetCIDRs (parseFilterExpression (buildFilterExpression s))
        = model.GetCIDRs s).
  { intros s Hne Hvalid. unfold buildFilterExpression.
    destruct (model.GetCIDRs s) as [|c cidrs] eqn:Ec.
    - unfold model.GetCIDRs in Ec. destruct (Ranges s); [done|discriminate Ec].
    - cbn [length Nat.eqb]. rewrite parse_built.
      rewrite Fields_join.
      2:{ eapply Forall_impl; [exact Hvalid|]. intros x Hx. by apply Hplain. }
      rewrite add_each_valid by exact Hvalid.
      unfold model.GetCIDRs, model.NewIPRangeSet. cbn [Ranges app].
      rewrite List.map_map. cbn [CIDR]. by rewrite List.map_id. }
  split; [reflexivity|]. split; [|exact Hgen].
  intros H1 H2.
  apply (Hgen {| Ranges := [ {| CIDR := "10.0.0.0/8"; Labels := [] |};
                             {| CIDR := "10.1.0.0/16"; Labels := [] |} ] |}).
  - discriminate.
  - repeat constructor; assumption.
Qed.

End Claims.

Lemma build_parse_roundtrip_witness :
  (forall c, script.ipv4_cidr c = true -> c <> "" /\ no_space c = true)
  /\ model.GetCIDRs
       (@parseFilterExpression script.sample "(ip.src in {10.0.0.0/8 10.1.0.0/16})")
     = ["10.0.0.0/8"; "10.1.0.0/16"].
Proof.
  split; [exact ipv4_cidr_plain|].
  apply (@build_parse_roundtrip script.sample ipv4_cidr_plain); reflexivity.
Defined.

End expression_claims.

Module secret_claims.
Import spec.
Import rt wire controller.

Lemma map_size_one (m : gmap string string) :
  size m = 1%nat -> exists k v, m = {[k := v]} /\ map_to_list m = [(k, v)].
Proof.
  intros Hsz. rewrite <- length_map_to_list in Hsz.
  destruct (map_to_list m) as [|[k v] [|kv l]] eqn:El; try discriminate Hsz.
  exists k, v. split; [|reflexivity].
  rewrite <- (list_to_map_to_list m), El. simpl. by rewrite insert_empty.
Qed.

Section Claims.
Context {env : Env}.

(** C8, as the code has it. The secret is read; an error of the read is
    the error of the lookup. If the named key is in the secret, its value
    is returned. If it is not, whether the key was left unspecified or is
    a key that the secret lacks, and the secret holds exactly one entry,
    that entry's value is returned. In every other case the lookup fails.
    The lookup makes no other call than that read. *)
Theorem GetSecret_lookup (namespace name key : string) (w : World) :
  let read := call (EvGet "Secret" namespace name) (Get_Secret namespace name) w in
  let out := GetSecret namespace name key w in
  out.2 = read.2
  /\ match read.1 with
     | Err err => out.1 = Err err
     | Ok secret =>
         match Data secret !! key with
         | Some value => out.1 = Ok value
         | None =>
             (size (Data secret) = 1%nat ->
              exists k v, Data secret = {[k := v]} /\ out.1 = Ok v)
             /\ (size (Data secret) <> 1%nat ->
                 out.1 = Err ("key " ++ key ++ " not found in secret "
                              ++ namespace ++ "/" ++ name))
         end
     end.
Proof.
  cbn zeta. unfold GetSecret, bind.
  destruct (call _ _ w) as [[secret|err] w1]; cbn [fst snd]; [|by split].
  destruct (Data secret !! key) as [value|] eqn:Hk; [by split|].
  destruct (Nat.eqb_spec (size (Data secret)) 1) as [Hone|Hmany].
  - destruct (map_size_one _ Hone) as (k & v & Hm & Hl). rewrite Hl.
    cbn [ret fst snd]. split; [reflexivity|]. split; [|done].
    intros _. by exists k, v.
  - cbn [ret fst snd]. split; [reflexivity|]. split; [done|]. by intros _.
Qed.

End Claims.

(** C8 as stated fails for a key that is specified and absent, when the
    secret holds one entry: the lookup of the key password in a secret
    whose only key is token returns the token. *)
Lemma GetSecret_absent_key_falls_back :
  ~ (forall (E : Env) (namespace name key : string) (w : World) (secret : Secret),
       (call (EvGet "Secret" namespace name) (Get_Secret namespace name) w).1 = Ok secret ->
       key <> "" -> Data secret !! key = None ->
       exists err, (GetSecret namespace name key w).1 = Err err).
Proof.
  intros Hall.
  pose (secret := {| Data := {["token" := "s3cr3t"]} |}).
  destruct (Hall script.scripted "ingress-meta-sync-system" "github-api-token" "password"
              (script.start [script.RSecret secret] []) secret)
    as [err Herr]; [reflexivity|discriminate|reflexivity|].
  vm_compute in Herr. discriminate Herr.
Qed.

End secret_claims.

Module clock_facts.
Import spec.
Import rt.
Section Facts.
Context {env : Env}.

Lemma pass_trace (w : World) : trace (pass w).2 = trace w.
Proof. unfold pass. by destruct (elapse (ext w)). Qed.

Lemma pass_now (w : World) : now w <= now (pass w).2.
Proof. unfold pass. destruct (elapse (ext w)) as [dt e]. simpl. lia. Qed.

Lemma time_Now_eq (w : World) : time_Now w = (now (pass w).2, (pass w).2).
Proof. unfold time_Now, bind. by destruct (pass w) as [[] w1]. Qed.

Lemma time_Since_eq (t : Z) (w : World) :
  time_Since t w = (now (pass w).2 - t, (pass w).2).
Proof. unfold time_Since, bind. by rewrite time_Now_eq. Qed.

Lemma time_Since_later (t : Z) (w : World) :
  (time_Since t w).1 <= (time_Since t (pass w).2).1.
Proof. rewrite !time_Since_eq. cbn [fst]. pose proof (pass_now (pass w).2). lia. Qed.

Lemma cache_hit_None (lastFetch cacheTTL : Z) (w : World) :
  cache_hit None lastFetch cacheTTL w = (None, w).
Proof. reflexivity. Qed.

Lemma cache_hit_Some (data : IPRangeSet) (lastFetch cacheTTL : Z) (w : World) :
  cache_hit (Some data) lastFetch cacheTTL w
  = (if (time_Since lastFetch w).1 <? cacheTTL then Some data else None, (pass w).2).
Proof. unfold cache_hit, bind. by rewrite time_Since_eq. Qed.

Lemma call_eq {A} (ev : Event) (op : Ext -> A * Ext) (w : World) :
  call ev op w
  = ((op (ext (pass w).2)).1,
     {| now := now (pass w).2; ext := (op (ext (pass w).2)).2;
        trace := (trace w ++ [ev])%list |}).
Proof.
  unfold call, bind. rewrite <- (pass_trace w).
  destruct (pass w) as [[] w1]. cbn [fst snd]. by destruct (op (ext w1)).
Qed.

Lemma call_trace {A} (ev : Event) (op : Ext -> A * Ext) (w : World) :
  trace (call ev op w).2 = (trace w ++ [ev])%list.
Proof. by rewrite call_eq. Qed.

Lemma time_Now_trace (w : World) : trace (time_Now w).2 = trace w.
Proof. rewrite time_Now_eq. apply pass_trace. Qed.

Lemma time_Now_now (w : World) : now (time_Now w).2 = (time_Now w).1.
Proof. by rewrite time_Now_eq. Qed.

End Facts.
End clock_facts.

Module github_claims.
Import spec.
Import rt wire github clock_facts.
Section Claims.
Context {lib : GoLib} {env : Env}.


End Claims.
End github_claims.

Module apply_facts.
Import spec.
Import rt wire clock_facts model_facts diff_facts model_claims diff_claims.
Section Facts.
Context {lib : GoLib} {env : Env}.

Lemma no_changes_cidrs (a b : IPRangeSet) :
  (forall c, c ∈ model.GetCIDRs a <-> c ∈ model.GetCIDRs b) -> no_changes a b = true.
Proof.
  intros Hsame. unfold no_changes. by rewrite (Diff_same_cidrs a b Hsame).
Qed.

Lemma no_changes_same (s : IPRangeSet) : no_changes s s = true.
Proof. by apply no_changes_cidrs. Qed.

Lemma only_reads_ret {A} (a : A) : only_reads (ret a : M A).
Proof. intros w. exists []. by rewrite app_nil_r. Qed.

Lemma only_reads_bind {A B} (m : M A) (k : A -> M B) :
  only_reads m -> (forall a, only_reads (k a)) -> only_reads (bind m k).
Proof.
  intros Hm Hk w. unfold bind.
  destruct (Hm w) as (e1 & Ht1 & Hw1). destruct (m w) as [a w1]. cbn [snd] in *.
  destruct (Hk a w1) as (e2 & Ht2 & Hw2).
  exists (e1 ++ e2)%list. rewrite Ht2, Ht1, app_assoc. split; [reflexivity|].
  unfold writes in *. by rewrite List.filter_app, Hw1, Hw2.
Qed.

Lemma only_reads_pass : only_reads pass.
Proof. intros w. exists []. by rewrite pass_trace, app_nil_r. Qed.

Lemma only_reads_time_Now : only_reads time_Now.
Proof. intros w. exists []. by rewrite time_Now_trace, app_nil_r. Qed.

Lemma only_reads_cache_hit d lf ttl : only_reads (cache_hit d lf ttl).
Proof.
  intros w. exists []. rewrite app_nil_r. split; [|reflexivity]. destruct d.
  - rewrite cache_hit_Some. apply pass_trace.
  - reflexivity.
Qed.

Lemma only_reads_call {A} ev (op : Ext -> A * Ext) :
  is_write ev = false -> only_reads (call ev op).
Proof.
  intros Hev w. exists [ev]. rewrite call_trace. split; [reflexivity|].
  unfold writes. simpl. by rewrite Hev.
Qed.

End Facts.

Ltac reads :=
  repeat first
    [ apply only_reads_ret
    | apply only_reads_time_Now
    | apply only_reads_cache_hit
    | apply only_reads_call; reflexivity
    | apply only_reads_bind; [|intros ?]
    | match goal with
      | |- only_reads (match ?x with _ => _ end) => destruct x
      | |- only_reads (if ?x then _ else _) => destruct x
      end ].

End apply_facts.

Module cloudflare_facts.
Import spec.
Import rt wire clock_facts apply_facts cloudflare.
Section Facts.
Context {lib : GoLib} {env : Env}.

Lemma exchange_reads what req : Method req = "GET" -> only_reads (exchange what req).
Proof.
  intros Hget. unfold exchange.
  assert (is_write (EvHttp req) = false) by (simpl; by rewrite Hget).
  destruct (url_error (URL req)); [apply only_reads_ret|].
  apply only_reads_bind; [by apply only_reads_call|]. intros r. reads.
Qed.

Lemma findFilterID_reads c : only_reads (findFilterID c).
Proof.
  unfold findFilterID. apply only_reads_bind; [by apply exchange_reads|].
  intros r. reads.
Qed.

Lemma getFilterDetails_reads c filterID : only_reads (getFilterDetails c filterID).
Proof.
  unfold getFilterDetails. apply only_reads_bind; [by apply exchange_reads|].
  intros r. reads.
Qed.

(** Reading the applied set sends no write call. *)
Lemma cloudflare_reads_current c : only_reads (GetCurrentIPRanges c).
Proof.
  unfold GetCurrentIPRanges.
  apply only_reads_bind; [apply only_reads_cache_hit|]. intros [data|]; [reads|].
  apply only_reads_bind; [apply only_reads_cache_hit|]. intros [data|]; [reads|].
  apply only_reads_bind; [apply findFilterID_reads|]. intros [filterID|err]; [|reads].
  destruct (String.eqb filterID ""); [reads|].
  apply only_reads_bind; [apply getFilterDetails_reads|]. intros r. reads.
Qed.

(** When the applied set and the desired set have the same CIDRs, apply
    returns success after reading the applied set, and does nothing
    else. *)
Lemma cloudflare_apply_no_changes c ipRanges w current c1 w1 :
  GetCurrentIPRanges c w = (Ok current, c1, w1) ->
  no_changes current ipRanges = true ->
  ApplyIPRanges c ipRanges w = (None, c1, w1).
Proof.
  intros Hget Hsame. unfold ApplyIPRanges, bind. rewrite Hget.
  unfold no_changes in Hsame.
  destruct (model.Diff current ipRanges) as [added removed]. cbn [fst snd] in Hsame.
  by rewrite Hsame.
Qed.

(** A successful read of the applied set leaves it as the memo. *)
Lemma cloudflare_current_memo c w current c1 w1 :
  GetCurrentIPRanges c w = (Ok current, c1, w1) ->
  cachedData c1 = Some current /\ cacheTTL c1 = cacheTTL c.
Proof.
  unfold GetCurrentIPRanges, bind.
  destruct (cachedData c) as [data|] eqn:Hd.
  - rewrite cache_hit_Some. destruct (_ <? _).
    { cbn [ret]. intros Heq. inversion Heq; subst. by split. }
    cbv beta iota. rewrite cache_hit_Some. destruct (_ <? _).
    { cbn [ret]. intros Heq. inversion Heq; subst. by split. }
    cbv beta iota.
    destruct (findFilterID c _) as [[filterID|err] w2]; [|discriminate].
    destruct (String.eqb filterID "").
    { destruct (time_Now w2) as [t w3]. cbn [ret]. intros Heq. by inversion Heq. }
    destruct (getFilterDetails c filterID w2) as [[details|err] w3]; [|discriminate].
    destruct (time_Now w3) as [t w4]. cbn [ret]. intros Heq. by inversion Heq.
  - rewrite !cache_hit_None. cbv beta iota.
    destruct (findFilterID c _) as [[filterID|err] w2]; [|discriminate].
    destruct (String.eqb filterID "").
    { destruct (time_Now w2) as [t w3]. cbn [ret]. intros Heq. by inversion Heq. }
    destruct (getFilterDetails c filterID w2) as [[details|err] w3]; [|discriminate].
    destruct (time_Now w3) as [t w4]. cbn [ret]. intros Heq. by inversion Heq.
Qed.

End Facts.
End cloudflare_facts.

Module istio_facts.
Import spec.
Import rt wire clock_facts apply_facts istio.
Section Facts.
Context {lib : GoLib} {env : Env}.

(** Reading the applied set sends no write call. *)
Lemma istio_reads_current i : only_reads (GetCurrentIPRanges i).
Proof.
  unfold GetCurrentIPRanges.
  apply only_reads_bind; [apply only_reads_cache_hit|]. intros [data|]; [reads|].
  apply only_reads_bind; [apply only_reads_cache_hit|]. intros [data|]; [reads|].
  apply only_reads_bind; [by apply only_reads_call|]. intros [configMap|err]; [|reads].
  destruct (cm_Data configMap) as [d|]; [|reads].
  destruct (d !! "ip_ranges"); [|reads].
  destruct (Unmarshal_strings _); reads.
Qed.

Lemma istio_apply_no_changes i ipRanges w current i1 w1 :
  GetCurrentIPRanges i w = (Ok current, i1, w1) ->
  no_changes current ipRanges = true ->
  ApplyIPRanges i ipRanges w = (None, i1, w1).
Proof.
  intros Hget Hsame. unfold ApplyIPRanges, bind. rewrite Hget.
  unfold no_changes in Hsame.
  destruct (model.Diff current ipRanges) as [added removed]. cbn [fst snd] in Hsame.
  by rewrite Hsame.
Qed.

(** A successful read of the applied set leaves it as the memo. *)
Lemma istio_current_memo i w current i1 w1 :
  GetCurrentIPRanges i w = (Ok current, i1, w1) ->
  cachedData i1 = Some current /\ cacheTTL i1 = cacheTTL i.
Proof.
  unfold GetCurrentIPRanges, bind.
  assert (Hmiss : forall w2,
    (let (a, s1) := call (EvGet "ConfigMap" (namespace i) (configMapName i))
                         (Get_ConfigMap (namespace i) (configMapName i)) w2 in
     match a with
     | Ok configMap =>
         match
           match
             match cm_Data configMap with
             | Some d => d !! "ip_ranges"
             | None => None
             end
           with
           | Some rangesData =>
               match Unmarshal_strings rangesData with
               | Ok ranges => Ok (model.add_each ["istio"] ranges model.NewIPRangeSet)
               | Err err => Err ("error unmarshaling IP ranges: " ++ err)
               end
           | None => Ok model.NewIPRangeSet
           end
         with
         | Ok ipRanges =>
             fun s : World => let (a0, s0) := time_Now s in
                              ret (Ok ipRanges, update_cache i ipRanges a0) s0
         | Err err => ret (Err err, i)
         end
     | Err _ =>
         fun s : World => let (a0, s0) := time_Now s in
                          ret (Ok model.NewIPRangeSet,
                               update_cache i model.NewIPRangeSet a0) s0
     end s1) = (Ok current, i1, w1) ->
    cachedData i1 = Some current /\ cacheTTL i1 = cacheTTL i).
  { intros w2. destruct (call _ _ w2) as [[configMap|err] w3].
    - destruct (match cm_Data configMap with Some d => d !! "ip_ranges" | None => None end).
      + destruct (Unmarshal_strings _); [|discriminate].
        destruct (time_Now w3). cbn [ret]. intros Heq. by inversion Heq.
      + destruct (time_Now w3). cbn [ret]. intros Heq. by inversion Heq.
    - destruct (time_Now w3). cbn [ret]. intros Heq. by inversion Heq. }
  destruct (cachedData i) as [data|] eqn:Hd.
  - rewrite cache_hit_Some. destruct (_ <? _).
    { cbn [ret]. intros Heq. inversion Heq; subst. by split. }
    cbv beta iota. rewrite cache_hit_Some. destruct (_ <? _).
    { cbn [ret]. intros Heq. inversion Heq; subst. by split. }
    cbv beta iota. apply Hmiss.
  - rewrite !cache_hit_None. cbv beta iota. apply Hmiss.
Qed.

(** A read while the memo is fresh returns the memo and leaves the
    instance and the trace as they were. *)
Lemma istio_current_hit i w data :
  cachedData i = Some data ->
  (time_Since (lastFetch i) w).1 < cacheTTL i ->
  GetCurrentIPRanges i w = (Ok data, i, (pass w).2).
Proof.
  intros Hd Hage. unfold GetCurrentIPRanges, bind. rewrite Hd, cache_hit_Some.
  destruct (Z.ltb_spec (time_Since (lastFetch i) w).1 (cacheTTL i)); [reflexivity|lia].
Qed.

(** A successful write of the ConfigMap makes the desired set the memo. *)
Lemma updateConfigMap_memo i ipRanges w i1 w1 :
  updateConfigMap i ipRanges w = (None, i1, w1) ->
  cachedData i1 = Some ipRanges /\ cacheTTL i1 = cacheTTL i
  /\ xForwardedFor i1 = xForwardedFor i.
Proof.
  unfold updateConfigMap, bind.
  destruct (call _ _ w) as [[configMap|err] w2].
  - destruct (call _ _ w2) as [[e|] w3]; cbn [ret]; [discriminate|].
    destruct (time_Now w3). intros Heq. by inversion Heq.
  - destruct (call _ _ w2) as [[e|] w3]; cbn [ret]; [discriminate|].
    destruct (time_Now w3). intros Heq. by inversion Heq.
Qed.

(** After an apply that succeeded, the memo is a set that differs from
    the desired set by no CIDR. *)
Lemma istio_apply_memo i ipRanges w i1 w1 :
  ApplyIPRanges i ipRanges w = (None, i1, w1) ->
  exists memo, cachedData i1 = Some memo /\ no_changes memo ipRanges = true.
Proof.
  unfold ApplyIPRanges, bind.
  destruct (GetCurrentIPRanges i w) as [[[current|err] i'] w'] eqn:Hget; [|discriminate].
  apply istio_current_memo in Hget as [Hmemo _].
  pose proof (eq_refl (no_changes current ipRanges)) as Hnc. unfold no_changes at 1 in Hnc.
  destruct (model.Diff current ipRanges) as [added removed]. cbn [fst snd] in Hnc.
  rewrite Hnc. destruct (no_changes current ipRanges) eqn:Hsame.
  - cbn [ret]. intros Heq. inversion Heq; subst. by exists current.
  - destruct (updateConfigMap i' ipRanges w') as [[[e|] i''] w''] eqn:Hu; [discriminate|].
    apply updateConfigMap_memo in Hu as (Hm & _ & _).
    destruct (xForwardedFor i'').
    + destruct (updateEnvoyFilter i'' ipRanges w'') as [[e|] w3]; [discriminate|].
      cbn [ret]. intros Heq. inversion Heq; subst.
      exists ipRanges. split; [exact Hm|apply no_changes_same].
    + cbn [ret]. intros Heq. inversion Heq; subst.
      exists ipRanges. split; [exact Hm|apply no_changes_same].
Qed.

(** For the document-based target: an apply that succeeded, followed
    while the memo is fresh by an apply of the same desired set, is
    followed by nothing: the second apply succeeds, changes neither the
    instance nor the trace, so that it makes no external call at all. *)
Lemma istio_apply_twice i ipRanges w i1 w1 :
  ApplyIPRanges i ipRanges w = (None, i1, w1) ->
  (time_Since (lastFetch i1) w1).1 < cacheTTL i1 ->
  ApplyIPRanges i1 ipRanges w1 = (None, i1, (pass w1).2)
  /\ trace (pass w1).2 = trace w1.
Proof.
  intros Hfirst Hfresh. split; [|apply pass_trace].
  destruct (istio_apply_memo _ _ _ _ _ Hfirst) as (memo & Hm & Hsame).
  apply (istio_apply_no_changes _ _ _ memo); [|exact Hsame].
  by apply istio_current_hit.
Qed.

End Facts.
End istio_facts.

Module cloudflare_memo.
Import spec scenario.
Import rt wire clock_facts apply_facts cloudflare cloudflare_facts expression_facts.
Section Facts.
Context {lib : GoLib} {env : Env}.

Lemma cloudflare_current_hit c w data :
  cachedData c = Some data ->
  (time_Since (lastFetch c) w).1 < cacheTTL c ->
  GetCurrentIPRanges c w = (Ok data, c, (pass w).2).
Proof.
  intros Hd Hage. unfold GetCurrentIPRanges, bind. rewrite Hd, cache_hit_Some.
  destruct (Z.ltb_spec (time_Since (lastFetch c) w).1 (cacheTTL c)); [reflexivity|lia].
Qed.

Lemma refresh_cache_memo c expression w :
  cachedData (refresh_cache c expression w).1
  = Some (model.add_each ["cloudflare"]
            (model.GetCIDRs (parseFilterExpression expression)) model.NewIPRangeSet).
Proof. unfold refresh_cache, bind. by destruct (time_Now w). Qed.

(** The memo that createFirewallRule leaves is parsed from the expression
    of the rule it sent, which is empty: the memo is the empty set,
    whatever was applied. *)
Lemma createFirewallRule_memo c filterID w c1 w1 :
  createFirewallRule c filterID w = (None, c1, w1) ->
  cachedData c1 = Some model.NewIPRangeSet.
Proof.
  unfold createFirewallRule, bind.
  destruct (exchange _ _ w) as [[response|err] w2]; [|discriminate].
  pose proof (refresh_cache_memo c "" w2) as Hm.
  cbn [rule_Filter Expression].
  destruct (refresh_cache c "" w2) as [c' w3]. cbn [ret fst] in *.
  intros Heq. inversion Heq; subst. exact Hm.
Qed.

Lemma createRule_memo c expression w c1 w1 :
  createRule c expression w = (None, c1, w1) ->
  cachedData c1 = Some model.NewIPRangeSet.
Proof.
  unfold createRule, bind.
  destruct (exchange _ _ w) as [[response|err] w2]; [|discriminate].
  destruct (Unmarshal_Filters (Result response)) as [[|first rest]|err]; try discriminate.
  apply createFirewallRule_memo.
Qed.

(** The memo that updateRule leaves is parsed from the expression sent. *)
Lemma updateRule_memo c filterID expression w c1 w1 :
  updateRule c filterID expression w = (None, c1, w1) ->
  cachedData c1
  = Some (model.add_each ["cloudflare"]
            (model.GetCIDRs (parseFilterExpression expression)) model.NewIPRangeSet).
Proof.
  unfold updateRule, bind.
  destruct (exchange _ _ w) as [[response|err] w2]; [|discriminate].
  pose proof (refresh_cache_memo c expression w2) as Hm.
  destruct (refresh_cache c expression w2) as [c' w3]. cbn [ret fst] in *.
  intros Heq. inversion Heq; subst. exact Hm.
Qed.

(** Parsing the expression built from a set of CIDRs that net.ParseCIDR
    accepts gives a set with the same CIDRs; so does adding its CIDRs to
    a new set. *)
Lemma reparsed_no_changes (ipRanges : IPRangeSet) :
  (forall c, ParseCIDR_ok c = true -> c <> "" /\ no_space c = true) ->
  Forall (fun c => ParseCIDR_ok c = true) (model.GetCIDRs ipRanges) ->
  no_changes
    (model.add_each ["cloudflare"]
       (model.GetCIDRs (parseFilterExpression (buildFilterExpression ipRanges)))
       model.NewIPRangeSet)
    ipRanges = true.
Proof.
  intros Hplain Hvalid. apply no_changes_cidrs.
  unfold buildFilterExpression.
  destruct (model.GetCIDRs ipRanges) as [|c cidrs] eqn:Ec.
  - intros x. reflexivity.
  - cbn [length Nat.eqb]. rewrite parse_built, Fields_join.
    2:{ eapply Forall_impl; [exact Hvalid|]. intros x Hx. by apply Hplain. }
    assert (Hc : model.GetCIDRs
                   {| Ranges := (Ranges model.NewIPRangeSet
                                 ++ map (fun c => {| CIDR := c; Labels := ["cloudflare"] |})
                                      (c :: cidrs))%list |} = c :: cidrs).
    { unfold model.GetCIDRs, model.NewIPRangeSet. cbn [Ranges app].
      rewrite List.map_map. cbn [CIDR]. by rewrite List.map_id. }
    rewrite (add_each_valid ["cloudflare"] (c :: cidrs) model.NewIPRangeSet Hvalid).
    rewrite Hc.
    rewrite (add_each_valid ["cloudflare"] (c :: cidrs) model.NewIPRangeSet Hvalid).
    intros x. by rewrite Hc.
Qed.

(** After an apply of the rule-based target that succeeded, the memo
    differs from the desired set by no CIDR, or it is the empty set that
    the creation of the rule leaves. *)
Lemma cloudflare_apply_memo c ipRanges w c1 w1 :
  (forall c, ParseCIDR_ok c = true -> c <> "" /\ no_space c = true) ->
  Forall (fun c => ParseCIDR_ok c = true) (model.GetCIDRs ipRanges) ->
  ApplyIPRanges c ipRanges w = (None, c1, w1) ->
  exists memo, cachedData c1 = Some memo
               /\ (no_changes memo ipRanges = true \/ memo = model.NewIPRangeSet).
Proof.
  intros Hplain Hvalid. unfold ApplyIPRanges, bind.
  destruct (GetCurrentIPRanges c w) as [[[current|err] c'] w'] eqn:Hget; [|discriminate].
  apply cloudflare_current_memo in Hget as [Hmemo _].
  pose proof (eq_refl (no_changes current ipRanges)) as Hnc. unfold no_changes at 1 in Hnc.
  destruct (model.Diff current ipRanges) as [added removed]. cbn [fst snd] in Hnc.
  rewrite Hnc. destruct (no_changes current ipRanges) eqn:Hsame.
  { cbn [ret]. intros Heq. inversion Heq; subst. exists current. by split; [|left]. }
  assert (Hrule : createOrUpdateRule c' ipRanges w' = (None, c1, w1) ->
            exists memo, cachedData c1 = Some memo
               /\ (no_changes memo ipRanges = true \/ memo = model.NewIPRangeSet)).
  { unfold createOrUpdateRule, bind.
    destruct (findFilterID c' w') as [[filterID|err] w2]; [|discriminate].
    destruct (String.eqb filterID "").
    - intros Hc. apply createRule_memo in Hc. eexists. split; [exact Hc|by right].
    - intros Hu. apply updateRule_memo in Hu. eexists. split; [exact Hu|].
      left. by apply reparsed_no_changes. }
  destruct (_ || _)%bool; [exact Hrule|].
  destruct (String.eqb (updateStrategy c') "incremental"); [exact Hrule|discriminate].
Qed.

(** For the rule-based target: an apply that finds a fresh memo with the
    CIDRs of the desired set succeeds and changes neither the instance nor
    the trace. *)
Lemma cloudflare_apply_memo_hit c ipRanges w memo :
  cachedData c = Some memo -> no_changes memo ipRanges = true ->
  (time_Since (lastFetch c) w).1 < cacheTTL c ->
  ApplyIPRanges c ipRanges w = (None, c, (pass w).2)
  /\ trace (pass w).2 = trace w.
Proof.
  intros Hm Hsame Hfresh. split; [|apply pass_trace].
  apply (cloudflare_apply_no_changes _ _ _ memo); [|exact Hsame].
  by apply cloudflare_current_hit.
Qed.

End Facts.
End cloudflare_memo.

Module apply_claims.
Import spec scenario.
Import rt wire cloudflare script.

(** C1 on the rule-based target, where the first apply creates the rule.
    The first apply succeeds and leaves the empty set as the memo; the
    second apply of the same desired set, made while the memo is fresh,
    finds a difference and sends a PUT that replaces the expression of the
    filter: one external write call, where the claim has none. *)
Theorem second_apply_after_create_writes :
  first_apply.1.1 = None
  /\ cachedData first_apply.1.2 = Some model.NewIPRangeSet
  /\ (time_Since (lastFetch first_apply.1.2) first_apply.2).1 < cacheTTL first_apply.1.2
  /\ second_apply.1.1 = None
  /\ writes (drop (length (trace first_apply.2)) (trace second_apply.2))
     = [EvHttp {| Method := "PUT";
                  URL := "https://api.cloudflare.com/client/v4/zones/zone1/filters/f1";
                  Header := [("Authorization", "Bearer token");
                             ("Content-Type", "application/json")];
                  Body := OneFilter {| ID := "f1";
                                       Expression := "(ip.src in {10.0.0.0/8})";
                                       Paused := false; Description := "" |} |}].
Proof. vm_compute. repeat split; reflexivity. Qed.

End apply_claims.

Module condition_facts.
Import spec.
Import rt wire v1alpha1 controller clock_facts.

Lemma find_condition_None ty conds k :
  find_condition ty conds k = None -> condition_of ty conds = None.
Proof.
  revert k. induction conds as [|c conds IH]; intros k; [reflexivity|].
  cbn [find_condition condition_of List.find].
  destruct (String.eqb (Type_ c) ty); [discriminate|]. apply IH.
Qed.

Lemma find_condition_Some ty conds k i :
  find_condition ty conds k = Some i ->
  exists j c, i = (k + j)%nat /\ conds !! j = Some c /\ Type_ c = ty
    /\ forall c', Type_ c' = ty -> condition_of ty (<[j := c']> conds) = Some c'.
Proof.
  revert k. induction conds as [|c conds IH]; intros k; [discriminate|].
  cbn [find_condition].
  destruct (String.eqb_spec (Type_ c) ty) as [Hty|Hne].
  - intros Heq. inversion Heq; subst i. exists 0%nat, c.
    split; [lia|]. split; [reflexivity|]. split; [exact Hty|].
    intros c' Hc'. cbn. rewrite Hc'. by rewrite String.eqb_refl.
  - intros Hf. destruct (IH _ Hf) as (j & c0 & Hi & Hl & Hty & Hupd).
    exists (S j), c0. split; [lia|]. split; [exact Hl|]. split; [exact Hty|].
    intros c' Hc'. cbn. destruct (String.eqb_spec (Type_ c) ty); [done|].
    by apply Hupd.
Qed.

Lemma condition_of_snoc ty conds c :
  condition_of ty conds = None -> Type_ c = ty ->
  condition_of ty (conds ++ [c]) = Some c.
Proof.
  intros Hn Hty. unfold condition_of in *. rewrite diff_facts.find_snoc, Hn.
  by rewrite Hty, String.eqb_refl.
Qed.

Section Facts.
Context {env : Env}.

(** What setStatusCondition leaves: the condition of the type has the
    status, the reason and the message given; the rest of the SyncConfig
    and the trace are as they were. *)
Lemma setStatusCondition_sets sc ty status reason message w :
  let out := setStatusCondition sc ty status reason message w in
  (exists c, condition_of ty (Conditions (Status out.1)) = Some c
             /\ Status_ c = status /\ Reason c = reason /\ Message c = message)
  /\ Spec out.1 = Spec sc
  /\ ProviderStatus (Status out.1) = ProviderStatus (Status sc)
  /\ IngressStatus (Status out.1) = IngressStatus (Status sc)
  /\ trace out.2 = trace w.
Proof.
  cbn zeta. unfold setStatusCondition.
  destruct (find_condition ty (Conditions (Status sc)) 0) as [i|] eqn:Hf.
  - destruct (find_condition_Some _ _ _ _ Hf) as (j & c & Hi & Hl & Hty & Hupd).
    cbn in Hi. subst i. rewrite Hl.
    destruct (bool_decide (Status_ c = status)).
    + cbn [ret fst snd set_Conditions Status Conditions Spec ProviderStatus IngressStatus].
      split; [|done]. eexists. split; [apply Hupd; exact Hty|]. done.
    + unfold bind. rewrite time_Now_eq.
      cbn [ret fst snd set_Conditions Status Conditions Spec ProviderStatus IngressStatus].
      split; [|by rewrite pass_trace]. eexists. split; [apply Hupd; exact Hty|]. done.
  - apply find_condition_None in Hf. unfold bind. rewrite time_Now_eq.
    cbn [ret fst snd set_Conditions Status Conditions Spec ProviderStatus IngressStatus].
    split; [|by rewrite pass_trace].
    eexists. split; [by apply condition_of_snoc|]. done.
Qed.

End Facts.
End condition_facts.

Module controller_facts.
Import spec.
Import rt wire v1alpha1 controller clock_facts condition_facts.

Section Facts.
Context {lib : GoLib} {env : Env} {P I : Type} `{!ProviderI P} `{!IngressI I}.
Implicit Types r : @SyncReconciler P I.
Implicit Types s : @State env.

Lemma appends_ret {A} Q (a : A) : appends Q (ret a : CM A).
Proof. intros s. exists []. by rewrite app_nil_r. Qed.

Lemma appends_bind {A B} Q (m : CM A) (k : A -> CM B) :
  appends Q m -> (forall a, appends Q (k a)) -> appends Q (bind m k).
Proof.
  intros Hm Hk s. unfold bind.
  destruct (Hm s) as (l1 & H1 & Q1). destruct (m s) as [a s1]. cbn [snd] in *.
  destruct (Hk a s1) as (l2 & H2 & Q2).
  exists (l1 ++ l2)%list. rewrite H2, H1, app_assoc. split; [reflexivity|].
  by apply Forall_app.
Qed.

Lemma lift_eq {A} (m : M A) (s : State) :
  lift m s = ((m (world s)).1, {| world := (m (world s)).2; invoked := invoked s |}).
Proof. unfold lift. by destruct (m (world s)). Qed.

Lemma appends_lift {A} Q (m : M A) : appends Q (lift m).
Proof. intros s. exists []. by rewrite lift_eq, app_nil_r. Qed.

Lemma appends_invoke (Q : Invocation -> Prop) i : Q i -> appends Q (invoke i).
Proof. intros Hi s. exists [i]. split; [reflexivity|]. by constructor. Qed.

Ltac steps :=
  repeat first
    [ apply appends_ret
    | apply appends_lift
    | apply appends_invoke; done
    | apply appends_bind; [|intros ?]
    | match goal with
      | |- appends _ (match ?x with _ => _ end) => destruct x
      | |- appends _ (if ?x then _ else _) => destruct x
      end ].

Lemma provider_round_fetches ref r : appends is_fetch (provider_round ref r).
Proof. unfold provider_round. steps. Qed.

Lemma ingress_round_applies ref ipRanges r :
  appends (is_apply_of ipRanges) (ingress_round ref ipRanges r).
Proof. unfold ingress_round. steps. Qed.

Lemma collect_loop_fetches fail refs all sts r :
  appends is_fetch (collect_loop fail refs all sts r).
Proof.
  revert all sts r. induction refs as [|ref rest IH]; intros all sts r;
    cbn [collect_loop]; [apply appends_ret|].
  apply appends_bind; [apply appends_lift|]. intros t.
  apply appends_bind; [apply provider_round_fetches|]. intros [[filtered|errMsg] r1].
  - apply IH.
  - destruct fail; [apply appends_ret|apply IH].
Qed.

Lemma apply_loop_applies fail refs ipRanges sts r :
  appends (is_apply_of ipRanges) (apply_loop fail refs ipRanges sts r).
Proof.
  revert sts r. induction refs as [|ref rest IH]; intros sts r;
    cbn [apply_loop]; [apply appends_ret|].
  apply appends_bind; [apply appends_lift|]. intros t.
  apply appends_bind; [apply ingress_round_applies|]. intros [[errMsg|] r1].
  - destruct fail; [apply appends_ret|apply IH].
  - apply IH.
Qed.

(** One round of the loop over the providers. *)
Lemma collect_loop_cons fail ref rest all sts r s :
  collect_loop fail (ref :: rest) all sts r s
  = let t := (lift time_Now s).1 in
    let round := provider_round ref r (lift time_Now s).2 in
    match round.1.1 with
    | Err errMsg =>
        let sts := (sts ++ [failed (pending (pr_Name ref) t) errMsg])%list in
        if fail then (Err (Errorf0 errMsg), sts, round.1.2, round.2)
        else collect_loop fail rest all sts round.1.2 round.2
    | Ok filtered =>
        collect_loop fail rest (model.Merge all filtered)
          (sts ++ [succeeded (pending (pr_Name ref) t) (model.Count filtered)])%list
          round.1.2 round.2
    end.
Proof.
  cbn [collect_loop]. unfold bind. destruct (lift time_Now s) as [t s1].
  cbn [fst snd]. destruct (provider_round ref r s1) as [[[filtered|errMsg] r1] s2];
    cbn [fst snd]; [reflexivity|]. by destruct fail.
Qed.

Lemma apply_loop_cons fail ref rest ipRanges sts r s :
  apply_loop fail (ref :: rest) ipRanges sts r s
  = let t := (lift time_Now s).1 in
    let round := ingress_round ref ipRanges r (lift time_Now s).2 in
    match round.1.1 with
    | Some errMsg =>
        let sts := (sts ++ [failed (pending (ir_Name ref) t) errMsg])%list in
        if fail then (Some (Errorf0 errMsg), sts, round.1.2, round.2)
        else apply_loop fail rest ipRanges sts round.1.2 round.2
    | None =>
        apply_loop fail rest ipRanges
          (sts ++ [succeeded (pending (ir_Name ref) t) (model.Count ipRanges)])%list
          round.1.2 round.2
    end.
Proof.
  cbn [apply_loop]. unfold bind. destruct (lift time_Now s) as [t s1].
  cbn [fst snd]. destruct (ingress_round ref ipRanges r s1) as [[[errMsg|] r1] s2];
    cbn [fst snd]; [|reflexivity]. by destruct fail.
Qed.

(** The loop over a list of providers that continues another. *)
Lemma collect_loop_app fail xs ys all sts r s :
  collect_loop fail (xs ++ ys) all sts r s
  = let first := collect_loop fail xs all sts r s in
    match first.1.1.1 with
    | Ok all1 => collect_loop fail ys all1 first.1.1.2 first.1.2 first.2
    | Err err => first
    end.
Proof.
  revert all sts r s. induction xs as [|x xs IH]; intros all sts r s.
  - reflexivity.
  - rewrite <- app_comm_cons, !collect_loop_cons. cbn zeta.
    destruct (provider_round x r _) as [[[filtered|errMsg] r1] s2]; cbn [fst snd].
    + apply IH.
    + destruct fail; [reflexivity|apply IH].
Qed.

(** The statuses that the loop over the providers returns: one for each
    provider it went through. Without an early return there is one for
    each reference, and under the failure mode fail each is a success; an
    early return happens only under the failure mode fail, and then the
    last status is the error whose message is returned and the ones
    before it are successes. *)
Lemma collect_loop_statuses fail refs all sts r s :
  let out := collect_loop fail refs all sts r s in
  exists new,
    out.1.1.2 = (sts ++ new)%list
    /\ match out.1.1.1 with
       | Ok _ => length new = length refs /\ (fail = true -> Forall ok new)
       | Err err =>
           fail = true
           /\ exists pre bad, new = (pre ++ [bad])%list /\ Forall ok pre
                /\ st_Status bad = "Error" /\ err = Errorf0 (st_Error bad)
       end.
Proof.
  cbn zeta. revert all sts r s. induction refs as [|ref rest IH]; intros all sts r s.
  - exists []. cbn. rewrite app_nil_r. split; [reflexivity|]. split; [reflexivity|].
    intros _. constructor.
  - rewrite collect_loop_cons. cbn zeta.
    destruct (provider_round ref r _) as [[[filtered|errMsg] r1] s2]; cbn [fst snd].
    + match goal with |- context [collect_loop fail rest ?a ?b ?c ?d] =>
        destruct (IH a b c d) as (new & Hst & Hres) end.
      eexists (_ :: new). rewrite Hst, <- app_assoc. split; [reflexivity|].
      destruct (collect_loop fail rest _ _ _ _).1.1.1 as [all1|err].
      * destruct Hres as [Hlen Hok]. split; [cbn; by rewrite Hlen|].
        intros Hf. constructor; [reflexivity|by apply Hok].
      * destruct Hres as (Hf & pre & bad & Hnew & Hpre & Hbad & Herr).
        split; [exact Hf|]. eexists (_ :: pre), bad. rewrite Hnew.
        split; [reflexivity|]. split; [|by split].
        constructor; [reflexivity|exact Hpre].
    + destruct fail.
      * cbn [fst snd]. eexists [_]. split; [reflexivity|]. split; [reflexivity|].
        exists [], (failed (pending (pr_Name ref) (lift time_Now s).1) errMsg).
        split; [reflexivity|]. split; [constructor|]. by split.
      * match goal with |- context [collect_loop false rest ?a ?b ?c ?d] =>
          destruct (IH a b c d) as (new & Hst & Hres) end.
        eexists (_ :: new). rewrite Hst, <- app_assoc. split; [reflexivity|].
        destruct (collect_loop false rest _ _ _ _).1.1.1 as [all1|err].
        -- destruct Hres as [Hlen _]. split; [cbn; by rewrite Hlen|]. discriminate.
        -- by destruct Hres as [? _].
Qed.

Lemma apply_loop_statuses fail refs ipRanges sts r s :
  let out := apply_loop fail refs ipRanges sts r s in
  exists new,
    out.1.1.2 = (sts ++ new)%list
    /\ match out.1.1.1 with
       | None => length new = length refs /\ (fail = true -> Forall ok new)
       | Some err =>
           fail = true
           /\ exists pre bad, new = (pre ++ [bad])%list /\ Forall ok pre
                /\ st_Status bad = "Error" /\ err = Errorf0 (st_Error bad)
       end.
Proof.
  cbn zeta. revert sts r s. induction refs as [|ref rest IH]; intros sts r s.
  - exists []. cbn. rewrite app_nil_r. split; [reflexivity|]. split; [reflexivity|].
    intros _. constructor.
  - rewrite apply_loop_cons. cbn zeta.
    destruct (ingress_round ref ipRanges r _) as [[[errMsg|] r1] s2]; cbn [fst snd].
    + destruct fail.
      * cbn [fst snd]. eexists [_]. split; [reflexivity|]. split; [reflexivity|].
        exists [], (failed (pending (ir_Name ref) (lift time_Now s).1) errMsg).
        split; [reflexivity|]. split; [constructor|]. by split.
      * match goal with |- context [apply_loop false rest ?a ?b ?c ?d] =>
          destruct (IH b c d) as (new & Hst & Hres) end.
        eexists (_ :: new). rewrite Hst, <- app_assoc. split; [reflexivity|].
        destruct (apply_loop false rest _ _ _ _).1.1.1 as [err|].
        -- by destruct Hres as [? _].
        -- destruct Hres as [Hlen _]. split; [cbn; by rewrite Hlen|]. discriminate.
    + match goal with |- context [apply_loop fail rest ?a ?b ?c ?d] =>
        destruct (IH b c d) as (new & Hst & Hres) end.
      eexists (_ :: new). rewrite Hst, <- app_assoc. split; [reflexivity|].
      destruct (apply_loop fail rest _ _ _ _).1.1.1 as [err|].
      * destruct Hres as (Hf & pre & bad & Hnew & Hpre & Hbad & Herr).
        split; [exact Hf|]. eexists (_ :: pre), bad. rewrite Hnew.
        split; [reflexivity|]. split; [|by split].
        constructor; [reflexivity|exact Hpre].
      * destruct Hres as [Hlen Hok]. split; [cbn; by rewrite Hlen|].
        intros Hf. constructor; [reflexivity|by apply Hok].
Qed.

Lemma lift_invoked {A} (m : M A) s : invoked (lift m s).2 = invoked s.
Proof. by rewrite lift_eq. Qed.

Lemma lift_world {A} (m : M A) s : world (lift m s).2 = (m (world s)).2.
Proof. by rewrite lift_eq. Qed.

Lemma not_ok_error (bad : ItemSyncStatus) : st_Status bad = "Error" -> ~ ok bad.
Proof. unfold ok. intros -> Heq. discriminate Heq. Qed.

Lemma Forall_ok_snoc (pre : list ItemSyncStatus) (bad : ItemSyncStatus) :
  st_Status bad = "Error" -> ~ Forall ok (pre ++ [bad]).
Proof.
  intros Hbad Hall. apply Forall_app in Hall as [_ Hb].
  apply Forall_cons in Hb as [Hb _]. by apply not_ok_error in Hb.
Qed.

Lemma Final_either (u : option error) (final : SyncConfig) :
  Final (match u with
         | Some err => {| RequeueAfter := 0; Error := Some err; Final := Some final |}
         | None => {| RequeueAfter := 1 * minute; Error := None; Final := Some final |}
         end) = Some final.
Proof. by destruct u. Qed.

(** What Reconcile does once the SyncConfig is read, by the outcome of
    the loop over the providers and of the loop over the targets. *)
Lemma Reconcile_run namespace name r s sc s0 :
  lift (call (EvGet "SyncConfig" namespace name) (Get_SyncConfig namespace name)) s
  = (Ok sc, s0) ->
  let started := lift time_Now s0 in
  let sc1 := set_LastSyncTime sc started.1 in
  let col := collect_loop (failing sc) (Providers (Spec sc)) model.NewIPRangeSet [] r
               started.2 in
  Reconcile namespace name r s
  = match col.1.1.1 with
    | Err err =>
        let set := lift (setStatusCondition sc1 "Ready" ConditionFalse
                           "ProviderError" err) col.2 in
        let upd := lift (call (EvStatusUpdate set.1) (Status_Update set.1)) set.2 in
        ({| RequeueAfter := 5 * minute; Error := Some err; Final := Some set.1 |},
         col.1.2, upd.2)
    | Ok allRanges =>
        let sc2 := set_ProviderStatus sc1 col.1.1.2 in
        let app := apply_loop (failing sc) (Ingress (Spec sc)) allRanges [] col.1.2
                     col.2 in
        match app.1.1.1 with
        | Some err =>
            let set := lift (setStatusCondition sc2 "Ready" ConditionFalse
                               "IngressError" err) app.2 in
            let upd := lift (call (EvStatusUpdate set.1) (Status_Update set.1)) set.2 in
            ({| RequeueAfter := 5 * minute; Error := Some err; Final := Some set.1 |},
             app.1.2, upd.2)
        | None =>
            let sc3 := set_IngressStatus sc2 app.1.1.2 in
            let ended := lift time_Now app.2 in
            let set := lift (setStatusCondition (set_LastSuccessfulSync sc3 ended.1)
                               "Ready" ConditionTrue "SyncSuccessful"
                               "Successfully synced IP ranges") ended.2 in
            let upd := lift (call (EvStatusUpdate set.1) (Status_Update set.1)) set.2 in
            (match upd.1 with
             | Some err => {| RequeueAfter := 0; Error := Some err; Final := Some set.1 |}
             | None => {| RequeueAfter := 1 * minute; Error := None;
                          Final := Some set.1 |}
             end, app.1.2, upd.2)
        end
    end.
Proof.
  intros Hread. cbn zeta. unfold Reconcile, bind. rewrite Hread.
  destruct (lift time_Now s0) as [t0 s1]. cbn [fst snd].
  unfold collectProviderIPRanges, bind.
  change (failing (set_LastSyncTime sc t0)) with (failing sc).
  change (Providers (Spec (set_LastSyncTime sc t0))) with (Providers (Spec sc)).
  destruct (collect_loop _ _ _ _ _ s1) as [[[[allRanges|err] psts] r1] s2];
    cbn [fst snd ret].
  - unfold applyIPRangesToIngress, bind.
    change (failing (set_ProviderStatus (set_LastSyncTime sc t0) psts)) with (failing sc).
    change (Ingress (Spec (set_ProviderStatus (set_LastSyncTime sc t0) psts)))
      with (Ingress (Spec sc)).
    destruct (apply_loop _ _ _ _ _ s2) as [[[[err|] ists] r2] s3]; cbn [fst snd ret].
    + destruct (lift (setStatusCondition _ _ _ _ _) s3) as [sc' s4]. cbn [fst snd].
      by destruct (lift (call _ _) s4).
    + destruct (lift time_Now s3) as [t1 s4]. cbn [fst snd].
      destruct (lift (setStatusCondition _ _ _ _ _) s4) as [sc' s5]. cbn [fst snd].
      destruct (lift (call _ _) s5) as [[err|] s6]; reflexivity.
  - destruct (lift (setStatusCondition _ _ _ _ _) s2) as [sc' s3]. cbn [fst snd].
    by destruct (lift (call _ _) s3).
Qed.

End Facts.
End controller_facts.

Module ready_claims.
Import spec scenario.
Import rt wire v1alpha1 controller clock_facts condition_facts controller_facts.
Section Claims.
Context {lib : GoLib} {env : Env} {P I : Type} `{!ProviderI P} `{!IngressI I}.
Implicit Types r : @SyncReconciler P I.
Implicit Types s : @State env.

(** C2, as the code has it. In a cycle that ran (the SyncConfig was
    read), the statuses of the items are those that the loop over the
    sources and, if it was reached, the loop over the targets went
    through. The ready condition is then true or false. It is true exactly
    when the failure mode is not fail or every item succeeded: without
    the failure mode fail it is true whatever the items did and however
    many sources and targets are configured. When it is false, the last
    item the cycle went through failed, the items before it succeeded,
    the message of the condition is made of the error message of that
    item and the reason is ProviderError or IngressError. *)
Theorem ready_condition namespace name r s sc s0 :
  lift (call (EvGet "SyncConfig" namespace name) (Get_SyncConfig namespace name)) s
  = (Ok sc, s0) ->
  let sources := collect_loop (failing sc) (Providers (Spec sc)) model.NewIPRangeSet []
                   r (lift time_Now s0).2 in
  let targets := match sources.1.1.1 with
                 | Ok allRanges =>
                     (apply_loop (failing sc) (Ingress (Spec sc)) allRanges []
                        sources.1.2 sources.2).1.1.2
                 | Err _ => []
                 end in
  let items := (sources.1.1.2 ++ targets)%list in
  exists final cond,
    Final (Reconcile namespace name r s).1.1 = Some final
    /\ ready final = Some cond
    /\ (Status_ cond = ConditionTrue \/ Status_ cond = ConditionFalse)
    /\ (Status_ cond = ConditionTrue <-> failing sc = false \/ Forall ok items)
    /\ (Status_ cond = ConditionFalse ->
        exists pre bad,
          items = (pre ++ [bad])%list /\ Forall ok pre /\ st_Status bad = "Error"
          /\ Message cond = Errorf0 (st_Error bad)
          /\ (Reason cond = "ProviderError" \/ Reason cond = "IngressError")).
Proof.
  intros Hread. cbn zeta. rewrite (Reconcile_run _ _ _ _ _ _ Hread). cbn zeta.
  destruct (collect_loop_statuses (failing sc) (Providers (Spec sc))
              model.NewIPRangeSet [] r (lift time_Now s0).2) as (pnew & Hp & Hpres).
  cbn [app] in Hp. rewrite Hp.
  destruct (collect_loop _ _ _ _ _ _).1.1.1 as [allRanges|err].
  - destruct Hpres as [_ Hpok].
    destruct (apply_loop_statuses (failing sc) (Ingress (Spec sc)) allRanges []
                (collect_loop (failing sc) (Providers (Spec sc)) model.NewIPRangeSet []
                   r (lift time_Now s0).2).1.2
                (collect_loop (failing sc) (Providers (Spec sc)) model.NewIPRangeSet []
                   r (lift time_Now s0).2).2) as (inew & Hi & Hires).
    cbn [app] in Hi. rewrite Hi.
    destruct (apply_loop _ _ _ _ _ _).1.1.1 as [err|].
    + destruct Hires as (Hf & pre & bad & Hnew & Hpre & Hbad & Herr).
      cbn [fst snd Final]. rewrite lift_eq. cbn [fst].
      match goal with |- context [setStatusCondition ?a ?b ?c ?d ?e ?w] =>
        destruct (setStatusCondition_sets a b c d e w)
          as ((cond & Hc & Hst & Hre & Hme) & _) end.
      eexists _, cond. split; [reflexivity|]. split; [exact Hc|].
      split; [by right|]. rewrite Hst. split.
      * split; [discriminate|]. intros [Hnf|Hall]; [congruence|].
        exfalso. rewrite Hnew, app_assoc in Hall. by apply Forall_ok_snoc in Hall.
      * intros _. exists (pnew ++ pre)%list, bad. rewrite Hnew, app_assoc.
        split; [reflexivity|]. split; [apply Forall_app; split; [by apply Hpok|done]|].
        split; [exact Hbad|]. split; [by rewrite Hme, Herr|]. by right.
    + destruct Hires as [_ Hiok].
      cbn [fst snd]. rewrite (lift_eq (setStatusCondition _ _ _ _ _)). cbn [fst].
      match goal with |- context [setStatusCondition ?a ?b ?c ?d ?e ?w] =>
        destruct (setStatusCondition_sets a b c d e w)
          as ((cond & Hc & Hst & Hre & Hme) & _) end.
      eexists _, cond. split; [apply Final_either|]. split; [exact Hc|].
      split; [by left|]. rewrite Hst. split; [|discriminate].
      split; [|done]. intros _.
      destruct (failing sc); [right|by left].
      apply Forall_app. split; [by apply Hpok|by apply Hiok].
  - destruct Hpres as (Hf & pre & bad & Hnew & Hpre & Hbad & Herr).
    cbn [fst snd Final]. rewrite lift_eq. cbn [fst]. rewrite app_nil_r.
    match goal with |- context [setStatusCondition ?a ?b ?c ?d ?e ?w] =>
      destruct (setStatusCondition_sets a b c d e w)
        as ((cond & Hc & Hst & Hre & Hme) & _) end.
    eexists _, cond. split; [reflexivity|]. split; [exact Hc|].
    split; [by right|]. rewrite Hst. split.
    + split; [discriminate|]. intros [Hnf|Hall]; [congruence|].
      exfalso. rewrite Hnew in Hall. by apply Forall_ok_snoc in Hall.
    + intros _. exists pre, bad.
      split; [exact Hnew|]. split; [exact Hpre|]. split; [exact Hbad|].
      split; [by rewrite Hme, Herr|]. by left.
Qed.

End Claims.
End ready_claims.

Module ready_runs.
Import spec scenario.
Import rt wire v1alpha1 controller script.

Lemma ready_condition_witness :
  lift (call (EvGet "SyncConfig" "" "sync") (Get_SyncConfig "" "sync")) unreachable
  = (Ok (two_sources None), (lift (call (EvGet "SyncConfig" "" "sync")
                                     (Get_SyncConfig "" "sync")) unreachable).2)
  /\ exists final cond,
       Final (reconcile unreachable).1.1 = Some final /\ ready final = Some cond.
Proof.
  split; [reflexivity|].
  destruct (@ready_claims.ready_condition sample scripted AnyProvider AnyIngress
              (@registered_providers sample scripted)
              (@registered_ingress sample scripted)
              "" "sync" nothing_cached unreachable (two_sources None) _ eq_refl)
    as (final & cond & Hfinal & Hready & _).
  exists final, cond. split; [exact Hfinal|exact Hready].
Defined.

(** C2 as stated fails when the failure mode is not fail: here the
    configuration of neither source nor of the target can be read, every
    item of the status is an error, and the ready condition is true. *)
Lemma ready_despite_failed_items :
  ~ (forall (lib : GoLib) (env : Env) (namespace name : string)
            (r : @SyncReconciler AnyProvider AnyIngress) (s : @State env)
            (final : SyncConfig) (cond : Condition),
       Final (Reconcile namespace name r s).1.1 = Some final ->
       ready final = Some cond ->
       (Status_ cond = ConditionTrue
        <-> Forall ok (ProviderStatus (Status final) ++ IngressStatus (Status final))
            /\ Providers (Spec final) <> [] /\ Ingress (Spec final) <> [])).
Proof.
  intros Hall.
  pose (out := reconcile unreachable).
  destruct (Final out.1.1) as [final|] eqn:Hfinal; [|vm_compute in Hfinal; discriminate].
  destruct (ready final) as [cond|] eqn:Hready.
  2:{ vm_compute in Hfinal. inversion Hfinal; subst final.
      vm_compute in Hready. discriminate. }
  destruct (Hall sample scripted "" "sync" nothing_cached unreachable final cond
              Hfinal Hready) as [Htrue _].
  vm_compute in Hfinal. inversion Hfinal; subst final. clear Hfinal.
  vm_compute in Hready. inversion Hready; subst cond. clear Hready.
  destruct (Htrue eq_refl) as [Hok _].
  apply Forall_cons in Hok as [Hfirst _]. unfold ok in Hfirst. cbn in Hfirst.
  discriminate Hfirst.
Qed.

End ready_runs.

Module round_facts.
Import spec.
Import rt wire v1alpha1 controller clock_facts condition_facts controller_facts model_claims.
Section Facts.
Context {lib : GoLib} {env : Env} {P I : Type} `{!ProviderI P} `{!IngressI I}.
Implicit Types r : @SyncReconciler P I.
Implicit Types s : @State env.

(** A round over a provider fails in one of three ways: the configuration
    is not resolved, the instance is not created, the fetch fails. *)
Lemma provider_round_error ref r s errMsg r' s' :
  provider_round ref r s = (Err errMsg, r', s') ->
  (exists err, errMsg = "Unable to fetch ProviderConfig: " ++ err)
  \/ (exists err, errMsg = "Unable to create provider: " ++ err)
  \/ (exists err, errMsg = "Unable to fetch IP ranges: " ++ err).
Proof.
  unfold provider_round, bind.
  destruct (lift (call _ _) s) as [[cfg|err] s1].
  2:{ cbn [ret]. intros Heq. inversion Heq. left. by eexists. }
  destruct (lift (getOrCreateProvider cfg r) s1) as [[[inst|err] r1] s2].
  2:{ cbn [ret]. intros Heq. inversion Heq. right. left. by eexists. }
  destruct (invoke _ s2) as [[] s3].
  destruct (lift (provider_FetchIPRanges inst) s3) as [[[fetched|err] inst'] s4].
  - cbn [ret]. intros Heq. inversion Heq.
  - cbn [ret]. intros Heq. inversion Heq. right. right. by eexists.
Qed.


End Facts.
End round_facts.

Module failure_claims.
Import spec.
Import rt wire v1alpha1 controller clock_facts condition_facts controller_facts round_facts.
Section Claims.
Context {lib : GoLib} {env : Env} {P I : Type} `{!ProviderI P} `{!IngressI I}.
Implicit Types r : @SyncReconciler P I.
Implicit Types s : @State env.

(** C3. Under the failure mode fail, let the sources [pre] succeed and
    the round of the source [bad] after them fail, which it does when its
    configuration is not resolved, its instance is not created or its
    fetch fails. Then the cycle returns the error of that source and asks
    to be run again in five minutes; the ready condition is false with
    the reason ProviderError and the message of that error; nothing is
    invoked after the failing round, so that no apply of a target is
    invoked in the cycle; and the only call after the failing round is
    the update of the status. The sources [post] after the failing one
    have no part in any of this: they are not processed. *)
Theorem fail_mode_aborts namespace name r s sc s0
    (pre post : list ProviderReference) (bad : ProviderReference)
    allRanges sts r1 s1 errMsg r2 s2 :
  lift (call (EvGet "SyncConfig" namespace name) (Get_SyncConfig namespace name)) s
  = (Ok sc, s0) ->
  failing sc = true ->
  Providers (Spec sc) = (pre ++ bad :: post)%list ->
  collect_loop true pre model.NewIPRangeSet [] r (lift time_Now s0).2
  = (Ok allRanges, sts, r1, s1) ->
  provider_round bad r1 (lift time_Now s1).2 = (Err errMsg, r2, s2) ->
  let out := Reconcile namespace name r s in
  ((exists err, errMsg = "Unable to fetch ProviderConfig: " ++ err)
   \/ (exists err, errMsg = "Unable to create provider: " ++ err)
   \/ (exists err, errMsg = "Unable to fetch IP ranges: " ++ err))
  /\ Error out.1.1 = Some (Errorf0 errMsg)
  /\ RequeueAfter out.1.1 = 5 * minute
  /\ out.1.2 = r2
  /\ (exists final cond,
        Final out.1.1 = Some final /\ ready final = Some cond
        /\ Status_ cond = ConditionFalse /\ Reason cond = "ProviderError"
        /\ Message cond = Errorf0 errMsg
        /\ trace (world out.2) = (trace (world s2) ++ [EvStatusUpdate final])%list)
  /\ invoked out.2 = invoked s2
  /\ (exists fetches, invoked out.2 = (invoked s ++ fetches)%list
                      /\ Forall is_fetch fetches).
Proof.
  intros Hread Hfail Hrefs Hpre Hbad. cbn zeta.
  split; [by eapply provider_round_error|].
  assert (Hcol : collect_loop (failing sc) (Providers (Spec sc)) model.NewIPRangeSet []
                   r (lift time_Now s0).2
                 = (Err (Errorf0 errMsg),
                    (sts ++ [failed (pending (pr_Name bad) (lift time_Now s1).1) errMsg])%list,
                    r2, s2)).
  { rewrite Hfail, Hrefs, collect_loop_app. cbn zeta. rewrite Hpre. cbn [fst snd].
    rewrite collect_loop_cons. cbn zeta. by rewrite Hbad. }
  assert (Hinv : exists fetches, invoked s2 = (invoked s ++ fetches)%list
                                 /\ Forall is_fetch fetches).
  { destruct (collect_loop_fetches true pre model.NewIPRangeSet [] r
                (lift time_Now s0).2) as (l1 & Hl1 & Hq1).
    rewrite Hpre in Hl1. cbn [snd] in Hl1. rewrite lift_invoked in Hl1.
    destruct (provider_round_fetches bad r1 (lift time_Now s1).2) as (l2 & Hl2 & Hq2).
    rewrite Hbad in Hl2. cbn [snd] in Hl2. rewrite lift_invoked, Hl1 in Hl2.
    assert (Hs0 : invoked s0 = invoked s).
    { rewrite lift_eq in Hread. by inversion Hread. }
    exists (l1 ++ l2)%list. rewrite Hl2, Hs0, app_assoc. split; [reflexivity|].
    by apply Forall_app. }
  rewrite (Reconcile_run _ _ _ _ _ _ Hread). cbn zeta. rewrite Hcol. cbn [fst snd].
  split; [reflexivity|]. split; [reflexivity|]. split; [reflexivity|].
  rewrite !lift_invoked. split; [|split; [reflexivity|exact Hinv]].
  rewrite (lift_eq (setStatusCondition _ _ _ _ _)). cbn [fst snd world].
  match goal with |- context [setStatusCondition ?a ?b ?c ?d ?e ?w] =>
    destruct (setStatusCondition_sets a b c d e w)
      as ((cond & Hc & Hst & Hre & Hme) & _ & _ & _ & Htr) end.
  eexists _, cond. split; [reflexivity|]. split; [exact Hc|].
  split; [exact Hst|]. split; [exact Hre|]. split; [exact Hme|].
  rewrite lift_world, call_trace. cbn [world]. by rewrite Htr.
Qed.

End Claims.
End failure_claims.

Module failure_runs.
Import spec scenario.
Import rt wire v1alpha1 controller script.

Lemma fail_mode_aborts_witness :
  failing (two_sources fail_policy) = true
  /\ Error (reconcile first_unknown).1.1
     = Some "Unable to fetch ProviderConfig: not found"
  /\ invoked (reconcile first_unknown).2 = [].
Proof.
  split; [reflexivity|].
  destruct (failure_claims.fail_mode_aborts (lib:=sample) (env:=scripted)
              (ProviderI0:=@registered_providers sample scripted)
              (IngressI0:=@registered_ingress sample scripted)
              "" "sync" nothing_cached first_unknown (two_sources fail_policy)
              fail_after_read []
              [ {| pr_Name := "github"; IncludeRanges := ["web"]; ExcludeRanges := [] |} ]
              {| pr_Name := "mirror"; IncludeRanges := []; ExcludeRanges := [] |}
              model.NewIPRangeSet [] nothing_cached (lift time_Now fail_after_read).2
              "Unable to fetch ProviderConfig: not found"
              fail_after_round.1.2 fail_after_round.2
              eq_refl eq_refl eq_refl eq_refl eq_refl)
    as (_ & Herr & _ & _ & _ & Hinv & _).
  split; [exact Herr|]. unfold reconcile. rewrite Hinv. reflexivity.
Defined.

End failure_runs.

Module target_facts.
Import spec.
Import rt wire v1alpha1 controller clock_facts condition_facts controller_facts round_facts.
Section Facts.
Context {lib : GoLib} {env : Env} {P I : Type} `{!ProviderI P} `{!IngressI I}.
Implicit Types r : @SyncReconciler P I.
Implicit Types s : @State env.




End Facts.
End target_facts.

Module continue_claims.
Import spec.
Import rt wire v1alpha1 controller clock_facts condition_facts controller_facts round_facts
  target_facts.
Section Claims.
Context {lib : GoLib} {env : Env} {P I : Type} `{!ProviderI P} `{!IngressI I}.
Implicit Types r : @SyncReconciler P I.
Implicit Types s : @State env.


End Claims.
End continue_claims.

Module continue_runs.
Import spec scenario.
Import rt wire v1alpha1 controller script.


End continue_runs.

Module set_facts.
Import spec terms.
Import model model_facts diff_facts model_claims diff_claims.
Section Facts.
Context {lib : GoLib}.

Lemma add_each_ranges (labels cidrs : list string) (set : IPRangeSet) :
  Ranges (add_each labels cidrs set) = (Ranges set ++ tagged labels cidrs)%list.
Proof.
  unfold add_each, tagged. revert set.
  induction cidrs as [|c cidrs IH]; intros set; cbn [fold_left List.filter map].
  - by rewrite app_nil_r.
  - rewrite IH. unfold Add. destruct (ParseCIDR_ok c); cbn [fst Ranges map].
    + by rewrite <- app_assoc.
    + reflexivity.
Qed.

Lemma tagged_Forall (labels cidrs : list string) :
  Forall (fun r => Labels r = labels /\ ParseCIDR_ok (CIDR r) = true) (tagged labels cidrs).
Proof.
  unfold tagged. apply Forall_forall. intros r Hr.
  apply list_elem_of_In, in_map_iff in Hr as (c & <- & Hc).
  apply filter_In in Hc as [_ Hc]. by split.
Qed.

Lemma keeps_staged inc exc r : keeps inc exc r = keeps inc [] r && keeps [] exc r.
Proof.
  rewrite !keeps_spec. unfold spec_keeps, intersects. cbn [length Nat.eqb existsb negb orb andb].
  by rewrite andb_true_r.
Qed.

Lemma keeps_exclude_app exc1 exc2 r :
  keeps [] (exc1 ++ exc2) r = keeps [] exc1 r && keeps [] exc2 r.
Proof.
  rewrite !keeps_spec. unfold spec_keeps, intersects.
  cbn [length Nat.eqb orb andb]. rewrite existsb_app, length_app.
  destruct exc1 as [|e1 exc1], exc2 as [|e2 exc2]; cbn [length Nat.add Nat.eqb negb andb app existsb orb];
    try reflexivity.
  - by rewrite orb_false_r, andb_true_r.
  - by rewrite negb_orb.
Qed.

Lemma filter_filter_and {A} (p q : A -> bool) (l : list A) :
  List.filter q (List.filter p l) = List.filter (fun x => p x && q x) l.
Proof.
  induction l as [|x l IH]; [reflexivity|]. cbn [List.filter].
  destruct (p x); cbn [List.filter andb]; [destruct (q x)|]; by rewrite IH.
Qed.

Lemma filter_sublist {A} (p : A -> bool) (l : list A) : List.filter p l `sublist_of` l.
Proof.
  induction l as [|x l IH]; [constructor|]. cbn [List.filter].
  destruct (p x); by constructor.
Qed.


End Facts.
End set_facts.

Module set_laws.
Import spec terms.
Import model model_facts diff_facts model_claims diff_claims set_facts.
Section Laws.
Context {lib : GoLib}.

(** X1. Add appends the range, with its labels, when net.ParseCIDR accepts
    the CIDR, also when the set already holds that CIDR; when it does not
    accept it, Add returns an error and the set is as it was. The loops of
    the sources and targets over decoded CIDRs go on after such an error:
    they add the accepted CIDRs, in their order and with the labels of the
    loop, behind the members the set had, and skip the others. *)
Theorem Add_appends_accepted (set : IPRangeSet) (labels cidrs : list string) :
  (forall cidr, ParseCIDR_ok cidr = true ->
     Add set cidr labels
     = ({| Ranges := Ranges set ++ [ {| CIDR := cidr; Labels := labels |} ] |}, None))
  /\ (forall cidr, ParseCIDR_ok cidr = false ->
        (Add set cidr labels).1 = set /\ (Add set cidr labels).2 <> None)
  /\ Ranges (add_each labels cidrs set) = (Ranges set ++ tagged labels cidrs)%list
  /\ GetCIDRs (add_each labels cidrs set)
     = (GetCIDRs set ++ List.filter ParseCIDR_ok cidrs)%list.
Proof.
  split; [|split; [|split]].
  - intros cidr Hok. unfold Add. by rewrite Hok.
  - intros cidr Hbad. unfold Add. by rewrite Hbad.
  - apply add_each_ranges.
  - unfold GetCIDRs. rewrite add_each_ranges, map_app. f_equal.
    unfold tagged. rewrite List.map_map. cbn [CIDR]. apply List.map_id.
Qed.

(** X2. Filter distributes over Merge: filtering a merged set is merging
    the filtered sets. *)
Theorem Filter_distributes_over_Merge (a b : IPRangeSet) (inc exc : list string) :
  Filter (Merge a b) inc exc = Merge (Filter a inc exc) (Filter b inc exc).
Proof.
  apply IPRangeSet_ext.
  rewrite Filter_ranges, !Merge_ranges, !Filter_ranges. apply List.filter_app.
Qed.

(** X3. Filter only drops members: its result is a subsequence of the
    receiver, in the receiver's order, so it has no more members; and
    filtering the result again with the same lists changes nothing. *)
Theorem Filter_shrinks_and_settles (s : IPRangeSet) (inc exc : list string) :
  Ranges (Filter s inc exc) `sublist_of` Ranges s
  /\ (Count (Filter s inc exc) <= Count s)%nat
  /\ Filter (Filter s inc exc) inc exc = Filter s inc exc.
Proof.
  split; [|split].
  - rewrite Filter_ranges. apply filter_sublist.
  - unfold Count. rewrite Filter_ranges. apply sublist_length, filter_sublist.
  - apply IPRangeSet_ext. rewrite !Filter_ranges, filter_filter_and.
    apply List.filter_ext. intros r. by destruct (keeps inc exc r).
Qed.

(** X4. Filter with both lists is the filter by the include list followed
    by the filter by the exclude list; excluding the labels of two lists
    is excluding those of the first and then those of the second, in
    either order. *)
Theorem Filter_in_stages (s : IPRangeSet) (inc exc exc' : list string) :
  Filter s inc exc = Filter (Filter s inc []) [] exc
  /\ Filter s inc (exc ++ exc') = Filter (Filter s inc exc) [] exc'
  /\ Filter s inc (exc ++ exc') = Filter s inc (exc' ++ exc).
Proof.
  split; [|split]; apply IPRangeSet_ext; rewrite !Filter_ranges.
  - rewrite filter_filter_and. apply List.filter_ext. intros r. apply keeps_staged.
  - rewrite filter_filter_and. apply List.filter_ext. intros r.
    rewrite (keeps_staged inc (exc ++ exc')), (keeps_staged inc exc), keeps_exclude_app.
    by rewrite andb_assoc.
  - apply List.filter_ext. intros r.
    rewrite (keeps_staged inc (exc ++ exc')), (keeps_staged inc (exc' ++ exc)),
      !keeps_exclude_app.
    f_equal. apply andb_comm.
Qed.

(** X5. Merge is the concatenation of the two sequences: it is
    associative, the empty set is its unit on both sides, and it removes
    no duplicate, so that the counts add up. *)
Theorem Merge_concatenates (a b c : IPRangeSet) :
  Merge (Merge a b) c = Merge a (Merge b c)
  /\ Merge NewIPRangeSet a = a /\ Merge a NewIPRangeSet = a
  /\ Count (Merge a b) = (Count a + Count b)%nat
  /\ GetCIDRs (Merge a b) = (GetCIDRs a ++ GetCIDRs b)%list.
Proof.
  split; [|split; [|split; [|split]]].
  - apply IPRangeSet_ext. rewrite !Merge_ranges. by rewrite app_assoc.
  - apply IPRangeSet_ext. by rewrite Merge_ranges.
  - apply IPRangeSet_ext. rewrite Merge_ranges. apply app_nil_r.
  - unfold Count. rewrite Merge_ranges. apply length_app.
  - unfold GetCIDRs. rewrite Merge_ranges. apply map_app.
Qed.


(** X7. The CIDRs of added and of removed depend only on which CIDRs the
    two operands hold, not on the labels, the order or the repetitions of
    their members: operands with the same CIDRs give the same CIDRs, up to
    the order of the result. *)
Theorem Diff_depends_on_cidrs (A A' B B' : IPRangeSet) :
  (forall c, c ∈ GetCIDRs A <-> c ∈ GetCIDRs A') ->
  (forall c, c ∈ GetCIDRs B <-> c ∈ GetCIDRs B') ->
  GetCIDRs (Diff A B).1 ≡ₚ GetCIDRs (Diff A' B').1
  /\ GetCIDRs (Diff A B).2 ≡ₚ GetCIDRs (Diff A' B').2.
Proof.
  intros HA HB. unfold Diff, GetCIDRs in *. cbn [fst snd].
  split; (apply NoDup_Permutation; [apply missing_from_NoDup..|]);
    intros c; rewrite !cidr_of_missing_index; by rewrite HA, HB.
Qed.

End Laws.

Lemma Diff_depends_on_cidrs_witness :
  GetCIDRs (@Diff script.sample {| Ranges := [scenario.web; scenario.api] |}
              {| Ranges := [scenario.api] |}).2
  ≡ₚ GetCIDRs (@Diff script.sample
                 {| Ranges := [scenario.api; scenario.web; scenario.api] |}
                 {| Ranges := [ {| CIDR := "10.1.0.0/16"; Labels := [] |} ] |}).2.
Proof.
  apply (@Diff_depends_on_cidrs script.sample).
  - intros c. cbn. rewrite !elem_of_cons. tauto.
  - intros c. cbn. rewrite !elem_of_cons. tauto.
Defined.

End set_laws.

Module trace_facts.
Import spec terms.
Import rt wire clock_facts.
Section Facts.
Context {lib : GoLib} {env : Env}.

Lemma yields_ret {A} (Q : Event -> Prop) (R : A -> Prop) (a : A) :
  R a -> yields Q R (ret a : M A).
Proof. intros Ha w. exists []. by rewrite app_nil_r. Qed.

Lemma yields_bind {A B} (Q : Event -> Prop) (R : A -> Prop) (R' : B -> Prop)
    (m : M A) (k : A -> M B) :
  yields Q R m -> (forall a, R a -> yields Q R' (k a)) -> yields Q R' (bind m k).
Proof.
  intros Hm Hk w. unfold bind. destruct (Hm w) as (evs & Ht & HQ & HR).
  destruct (m w) as [a w1]. cbn [fst snd] in *.
  destruct (Hk a HR w1) as (evs' & Ht' & HQ' & HR').
  exists (evs ++ evs')%list. rewrite Ht', Ht, app_assoc.
  split; [reflexivity|]. split; [by apply Forall_app|exact HR'].
Qed.

Lemma yields_weaken {A} (Q Q' : Event -> Prop) (R R' : A -> Prop) (m : M A) :
  (forall ev, Q ev -> Q' ev) -> (forall a, R a -> R' a) -> yields Q R m -> yields Q' R' m.
Proof.
  intros HQ HR Hm w. destruct (Hm w) as (evs & Ht & Hevs & Ha).
  exists evs. split; [exact Ht|]. split; [|by apply HR].
  eapply Forall_impl; [exact Hevs|exact HQ].
Qed.

Lemma yields_time_Now (Q : Event -> Prop) : yields Q (fun _ => True) time_Now.
Proof. intros w. exists []. by rewrite app_nil_r, time_Now_trace. Qed.

Lemma yields_cache_hit (Q : Event -> Prop) d lf ttl :
  yields Q (fun _ => True) (cache_hit d lf ttl).
Proof.
  intros w. exists []. rewrite app_nil_r. split; [|by split].
  destruct d as [data|]; [|by rewrite cache_hit_None].
  rewrite cache_hit_Some. apply pass_trace.
Qed.

Lemma yields_call {A} (Q : Event -> Prop) ev (op : Ext -> A * Ext) :
  Q ev -> yields Q (fun _ => True) (call ev op).
Proof.
  intros Hev w. exists [ev]. rewrite call_trace. split; [reflexivity|].
  split; [by constructor|exact I].
Qed.

Lemma appended_eq {A} (m : M A) (w : World) (evs : list Event) :
  trace (m w).2 = (trace w ++ evs)%list -> appended m w = evs.
Proof. intros Ht. unfold appended. rewrite Ht. apply drop_app_length. Qed.

End Facts.

End trace_facts.

Module zone_facts.
Import spec terms.
Import rt wire clock_facts apply_facts cloudflare cloudflare_facts expression_facts
  trace_facts.
Section Facts.
Context {lib : GoLib} {env : Env}.

Lemma zone_url (zone rest : string) :
  starts_with ("https://api.cloudflare.com/client/v4/zones/" ++ zone ++ "/")
    ("https://api.cloudflare.com/client/v4/zones/" ++ zone ++ String "/" rest).
Proof.
  exists rest. rewrite !append_assoc. do 2 f_equal.
Qed.

Lemma same_settings_refl c : same_settings c c.
Proof. exists (cachedData c), (lastFetch c). by destruct c. Qed.

Lemma same_settings_update c c' data t :
  same_settings c c' -> same_settings c (update_cache c' data t).
Proof. intros (d & t' & ->). by exists (Some data), t. Qed.

Lemma same_settings_trans c c' c'' :
  same_settings c c' -> same_settings c' c'' -> same_settings c c''.
Proof. intros (d & t & ->) (d' & t' & ->). by exists d', t'. Qed.

Lemma to_zone_same c c' ev : same_settings c c' -> to_zone c' ev -> to_zone c ev.
Proof. by intros (d & t & ->). Qed.

Lemma exchange_yields (Q : Event -> Prop) what req :
  Q (EvHttp req) -> yields Q (fun _ => True) (exchange what req).
Proof.
  intros Hreq. unfold exchange.
  destruct (url_error (URL req)); [by apply yields_ret|].
  apply yields_bind with (R := fun _ => True); [by apply yields_call|].
  intros [resp|err] _; [|by apply yields_ret].
  destruct (negb _); [by apply yields_ret|].
  destruct (Decode_CloudflareResponse resp) as [response|err]; [|by apply yields_ret].
  destruct (negb _); by apply yields_ret.
Qed.

Lemma findFilterID_yields c : yields (to_zone c) (fun _ => True) (findFilterID c).
Proof.
  unfold findFilterID. apply yields_bind with (R := fun _ => True).
  - apply exchange_yields. eexists. split; [reflexivity|]. cbn [Header URL Method].
    split; [reflexivity|]. split; [apply (zone_url _ "filters")|by left].
  - intros [response|err] _; [|by apply yields_ret].
    destruct (Unmarshal_Filters _); by apply yields_ret.
Qed.

Lemma getFilterDetails_yields c filterID :
  yields (to_zone c) (fun _ => True) (getFilterDetails c filterID).
Proof.
  unfold getFilterDetails. apply yields_bind with (R := fun _ => True).
  - apply exchange_yields. eexists. split; [reflexivity|]. cbn [Header URL Method].
    split; [reflexivity|]. split; [apply (zone_url _ ("filters/" ++ filterID))|by left].
  - intros [response|err] _; [|by apply yields_ret].
    destruct (Unmarshal_Filter _); by apply yields_ret.
Qed.

Lemma GetCurrentIPRanges_yields c :
  yields (to_zone c) (fun out => same_settings c out.2) (GetCurrentIPRanges c).
Proof.
  unfold GetCurrentIPRanges.
  apply yields_bind with (R := fun _ => True); [apply yields_cache_hit|].
  intros [data|] _; [apply yields_ret, same_settings_refl|].
  apply yields_bind with (R := fun _ => True); [apply yields_cache_hit|].
  intros [data|] _; [apply yields_ret, same_settings_refl|].
  apply yields_bind with (R := fun _ => True); [apply findFilterID_yields|].
  intros [filterID|err] _; [|apply yields_ret, same_settings_refl].
  destruct (String.eqb filterID "").
  { apply yields_bind with (R := fun _ => True); [apply yields_time_Now|].
    intros t _. apply yields_ret, same_settings_update, same_settings_refl. }
  apply yields_bind with (R := fun _ => True); [apply getFilterDetails_yields|].
  intros [details|err] _; [|apply yields_ret, same_settings_refl].
  apply yields_bind with (R := fun _ => True); [apply yields_time_Now|].
  intros t _. apply yields_ret, same_settings_update, same_settings_refl.
Qed.

Lemma refresh_cache_yields c expression :
  yields (to_zone c) (same_settings c) (refresh_cache c expression).
Proof.
  unfold refresh_cache.
  apply yields_bind with (R := fun _ => True); [apply yields_time_Now|].
  intros t _. apply yields_ret, same_settings_update, same_settings_refl.
Qed.

Lemma createFirewallRule_yields c filterID :
  yields (to_zone c) (fun out => same_settings c out.2) (createFirewallRule c filterID).
Proof.
  unfold createFirewallRule. apply yields_bind with (R := fun _ => True).
  - apply exchange_yields. eexists. split; [reflexivity|]. cbn [Header URL Method].
    split; [reflexivity|]. split; [apply (zone_url _ "firewall/rules")|by right; left].
  - intros [response|err] _; [|apply yields_ret, same_settings_refl].
    apply yields_bind with (R := same_settings c); [apply refresh_cache_yields|].
    intros c' Hc'. by apply yields_ret.
Qed.

Lemma createRule_yields c expression :
  yields (to_zone c) (fun out => same_settings c out.2) (createRule c expression).
Proof.
  unfold createRule. apply yields_bind with (R := fun _ => True).
  - apply exchange_yields. eexists. split; [reflexivity|]. cbn [Header URL Method].
    split; [reflexivity|]. split; [apply (zone_url _ "filters")|by right; left].
  - intros [response|err] _; [|apply yields_ret, same_settings_refl].
    destruct (Unmarshal_Filters _) as [[|first rest]|err];
      [apply yields_ret, same_settings_refl| |apply yields_ret, same_settings_refl].
    apply createFirewallRule_yields.
Qed.

Lemma updateRule_yields c filterID expression :
  yields (to_zone c) (fun out => same_settings c out.2) (updateRule c filterID expression).
Proof.
  unfold updateRule. apply yields_bind with (R := fun _ => True).
  - apply exchange_yields. eexists. split; [reflexivity|]. cbn [Header URL Method].
    split; [reflexivity|].
    split; [apply (zone_url _ ("filters/" ++ filterID))|by right; right].
  - intros [response|err] _; [|apply yields_ret, same_settings_refl].
    apply yields_bind with (R := same_settings c); [apply refresh_cache_yields|].
    intros c' Hc'. by apply yields_ret.
Qed.

Lemma createOrUpdateRule_yields c ipRanges :
  yields (to_zone c) (fun out => same_settings c out.2) (createOrUpdateRule c ipRanges).
Proof.
  unfold createOrUpdateRule.
  apply yields_bind with (R := fun _ => True); [apply findFilterID_yields|].
  intros [filterID|err] _; [|apply yields_ret, same_settings_refl].
  destruct (String.eqb filterID ""); [apply createRule_yields|apply updateRule_yields].
Qed.

(** A read of the applied set that fails leaves the instance as it was. *)
Lemma GetCurrentIPRanges_failed c w err c1 w1 :
  GetCurrentIPRanges c w = (Err err, c1, w1) -> c1 = c.
Proof.
  unfold GetCurrentIPRanges, bind.
  destruct (cache_hit _ _ _ w) as [[data|] w2]; [discriminate|].
  destruct (cache_hit _ _ _ w2) as [[data|] w3]; [discriminate|].
  destruct (findFilterID c w3) as [[filterID|e] w4];
    [|cbn [ret]; intros Heq; by inversion Heq].
  destruct (String.eqb filterID "").
  { destruct (time_Now w4). discriminate. }
  destruct (getFilterDetails c filterID w4) as [[details|e] w5];
    [|cbn [ret]; intros Heq; by inversion Heq].
  destruct (time_Now w5). discriminate.
Qed.

Lemma find_open_absent (e : string) (i : nat) : occurs "{" e = false -> find_open e i = 0%nat.
Proof.
  revert i. induction e as [|x e IH]; intros i; [reflexivity|].
  cbn [occurs find_open]. destruct (Ascii.eqb x "{"); [discriminate|]. apply IH.
Qed.

Lemma find_close_absent (e : string) (i : nat) : occurs "}" e = false -> find_close e i = 0%nat.
Proof.
  revert i. induction e as [|x e IH]; intros i; [reflexivity|].
  cbn [occurs find_close]. destruct (Ascii.eqb x "}"); [discriminate|].
  cbn [orb]. intros He. by rewrite IH.
Qed.

End Facts.
End zone_facts.

Module cloudflare_laws.
Import spec terms.
Import rt wire clock_facts apply_facts cloudflare cloudflare_facts expression_facts
  trace_facts zone_facts set_facts.
Section Laws.
Context {lib : GoLib} {env : Env}.

(** X8. parseFilterExpression returns the empty set for an expression
    without an opening brace, for one without a closing brace and for one
    whose first byte is the opening brace (offset 0 is taken for "not
    found"); the expression built from the empty set is such an
    expression. Whatever the expression, every member of the result has a
    CIDR that net.ParseCIDR accepts and the one label cloudflare. *)
Theorem parseFilterExpression_rejects :
  (forall e, occurs "{" e = false -> parseFilterExpression e = model.NewIPRangeSet)
  /\ (forall e, occurs "}" e = false -> parseFilterExpression e = model.NewIPRangeSet)
  /\ (forall rest, parseFilterExpression (String "{" rest) = model.NewIPRangeSet)
  /\ parseFilterExpression (buildFilterExpression model.NewIPRangeSet)
     = model.NewIPRangeSet
  /\ (forall e, Forall (fun r => Labels r = ["cloudflare"] /\ ParseCIDR_ok (CIDR r) = true)
                  (Ranges (parseFilterExpression e))).
Proof.
  split; [|split; [|split; [|split]]].
  - intros e He. unfold parseFilterExpression. by rewrite find_open_absent.
  - intros e He. unfold parseFilterExpression. rewrite (find_close_absent e 0 He).
    cbn [Nat.eqb]. by rewrite orb_true_r.
  - intros rest. reflexivity.
  - reflexivity.
  - intros e. unfold parseFilterExpression.
    destruct (_ || _ || _)%bool; [constructor|].
    rewrite add_each_ranges. cbn [model.NewIPRangeSet Ranges app]. apply tagged_Forall.
Qed.

(** X9. Every call that ApplyIPRanges of the rule-based target makes is an
    HTTP request by GET, POST or PUT to a URL under the zone of the
    instance on api.cloudflare.com, with the token of the instance as
    bearer; it makes no other call, so it deletes nothing. The instance
    it leaves differs from the one it was called on at most in the memo and
    its time. *)
Theorem ApplyIPRanges_stays_in_zone (c : CloudflareIngress) (ipRanges : IPRangeSet) :
  yields (to_zone c) (fun out => same_settings c out.2) (ApplyIPRanges c ipRanges).
Proof.
  unfold ApplyIPRanges.
  apply yields_bind with (R := fun out => same_settings c out.2);
    [apply GetCurrentIPRanges_yields|].
  intros [[current|err] c1] Hc1; cbn [snd] in Hc1; [|by apply yields_ret].
  destruct (model.Diff current ipRanges) as [added removed].
  assert (Hrule : yields (to_zone c) (fun out => same_settings c out.2)
                    (createOrUpdateRule c1 ipRanges)).
  { eapply yields_weaken; [| |apply createOrUpdateRule_yields].
    - intros ev. by apply to_zone_same.
    - intros out. by apply same_settings_trans. }
  destruct (_ && _)%bool; [by apply yields_ret|].
  destruct (_ || _)%bool; [exact Hrule|].
  destruct (String.eqb _ "incremental"); [exact Hrule|by apply yields_ret].
Qed.

(** X10. ApplyIPRanges of the rule-based target refuses without writing:
    when the applied set cannot be read, it returns that error behind
    "error getting current IP ranges: " and the instance is as it was;
    when there are changes and the update strategy is neither direct nor
    incremental, it returns "unknown update strategy: " and the strategy,
    unless the applied set is empty, in which case the strategy is not
    looked at and the rule is created or updated. Up to there it sent
    reads only. *)
Theorem ApplyIPRanges_refuses (c : CloudflareIngress) (ipRanges : IPRangeSet) (w : World) :
  let read := GetCurrentIPRanges c w in
  let out := ApplyIPRanges c ipRanges w in
  writes (appended (GetCurrentIPRanges c) w) = []
  /\ (forall err, read.1.1 = Err err ->
        out = (Some ("error getting current IP ranges: " ++ err), c, read.2))
  /\ (forall current, read.1.1 = Ok current ->
        no_changes current ipRanges = false ->
        updateStrategy c <> "direct" -> updateStrategy c <> "incremental" ->
        (model.Count current <> 0%nat ->
         out = (Some ("unknown update strategy: " ++ updateStrategy c), read.1.2, read.2))
        /\ (model.Count current = 0%nat ->
            out = createOrUpdateRule read.1.2 ipRanges read.2)).
Proof.
  cbn zeta. split; [|split].
  - destruct (cloudflare_reads_current c w) as (evs & Ht & Hw).
    by rewrite (appended_eq _ _ _ Ht).
  - intros err Herr. unfold ApplyIPRanges, bind.
    destruct (GetCurrentIPRanges c w) as [[r c1] w1] eqn:Hget. cbn [fst snd] in *.
    subst r. by rewrite (GetCurrentIPRanges_failed _ _ _ _ _ Hget).
  - intros current Hcur Hchanged Hdirect Hincr. unfold ApplyIPRanges, bind.
    destruct (GetCurrentIPRanges c w) as [[r c1] w1] eqn:Hget. cbn [fst snd] in *.
    subst r.
    assert (Hstrategy : updateStrategy c1 = updateStrategy c).
    { destruct (GetCurrentIPRanges_yields c w) as (evs & _ & _ & (d & t & Hc1)).
      rewrite Hget in Hc1. cbn [fst snd] in Hc1. by rewrite Hc1. }
    unfold no_changes in Hchanged.
    destruct (model.Diff current ipRanges) as [added removed]. cbn [fst snd] in Hchanged.
    rewrite Hchanged, Hstrategy.
    apply String.eqb_neq in Hdirect, Hincr. rewrite Hdirect, Hincr. cbn [orb].
    split; intros Hcount.
    + apply Nat.eqb_neq in Hcount. by rewrite Hcount.
    + by rewrite Hcount.
Qed.

End Laws.
End cloudflare_laws.

Module memo_facts.
Import spec terms.
Import rt wire clock_facts.
Section Facts.
Context {lib : GoLib} {env : Env}.

(** With a memo that is absent or as old as its time-to-live, the check
    of the memo and the second check under the write lock both miss: what
    runs is what follows them, after the clock was read. *)
Lemma miss_twice {A} (d : option IPRangeSet) (lf ttl : Z) (k1 k2 : IPRangeSet -> M A)
    (k : M A) (w : World) :
  expired d lf ttl w ->
  exists w2,
    trace w2 = trace w
    /\ bind (cache_hit d lf ttl)
         (fun hit => match hit with
                     | Some data => k1 data
                     | None => bind (cache_hit d lf ttl)
                                 (fun hit => match hit with
                                             | Some data => k2 data
                                             | None => k
                                             end)
                     end) w
       = k w2.
Proof.
  intros Hexp. unfold bind. destruct d as [data|].
  - destruct Hexp as [Hn|Hold]; [discriminate|].
    exists (pass (pass w).2).2. split; [by rewrite !pass_trace|].
    rewrite cache_hit_Some.
    destruct (Z.ltb_spec (time_Since lf w).1 ttl) as [?|_]; [lia|].
    rewrite cache_hit_Some.
    pose proof (time_Since_later lf w) as Hlater.
    by destruct (Z.ltb_spec (time_Since lf (pass w).2).1 ttl) as [?|_]; [lia|].
  - exists w. split; [reflexivity|]. by rewrite !cache_hit_None.
Qed.

End Facts.

(** For a goal about a computation that starts with the two checks of the
    memo: the computation is what follows the checks, in a world [w2] with
    the trace of [w]. *)
Ltac missed Hexp w2 Htr :=
  match goal with
  | |- context [bind (cache_hit ?d ?lf ?ttl)
                  (fun hit => match hit with
                              | Some data => @?k1 data
                              | None => bind _ (fun hit' => match hit' with
                                                            | Some data' => @?k2 data'
                                                            | None => ?k
                                                            end)
                              end) ?w] =>
      let Heq := fresh "Heq" in
      destruct (miss_twice d lf ttl k1 k2 k w Hexp) as (w2 & Htr & Heq);
      rewrite Heq; clear Heq
  end.

End memo_facts.

Module github_facts.
Import spec terms.
Import rt wire github clock_facts set_facts memo_facts.
Section Facts.
Context {lib : GoLib} {env : Env}.

Lemma FetchIPRanges_hit p w data :
  cachedData p = Some data ->
  (time_Since (lastFetch p) w).1 < cacheTTL p ->
  FetchIPRanges p w = (Ok data, p, (pass w).2).
Proof.
  intros Hd Hage. unfold FetchIPRanges, bind. rewrite Hd, cache_hit_Some.
  by destruct (Z.ltb_spec (time_Since (lastFetch p) w).1 (cacheTTL p)); [|lia].
Qed.

Lemma FetchIPRanges_memoises p w data p1 w1 :
  FetchIPRanges p w = (Ok data, p1, w1) -> cachedData p1 = Some data.
Proof.
  unfold FetchIPRanges, bind.
  destruct (cachedData p) as [memo|] eqn:Hd.
  - rewrite cache_hit_Some. destruct (_ <? _).
    { cbn [ret]. intros Heq. by inversion Heq; subst. }
    cbv beta iota. rewrite cache_hit_Some. destruct (_ <? _).
    { cbn [ret]. intros Heq. by inversion Heq; subst. }
    cbv beta iota. destruct (url_error _); [discriminate|].
    destruct (call _ _ _) as [[resp|err] w2]; [|discriminate].
    destruct (negb _); [discriminate|].
    destruct (Decode_GitHubIPMetadata resp); [|discriminate].
    destruct (time_Now w2). cbn [ret]. intros Heq. by inversion Heq.
  - rewrite !cache_hit_None. cbv beta iota. destruct (url_error _); [discriminate|].
    destruct (call _ _ _) as [[resp|err] w2]; [|discriminate].
    destruct (negb _); [discriminate|].
    destruct (Decode_GitHubIPMetadata resp); [|discriminate].
    destruct (time_Now w2). cbn [ret]. intros Heq. by inversion Heq.
Qed.

End Facts.
End github_facts.

Module github_laws.
Import spec terms cases.
Import rt wire github clock_facts set_facts memo_facts github_facts.
Section Laws.
Context {lib : GoLib} {env : Env}.

(** X11. The set that a fetch converts from the metadata holds, category
    by category in the order hooks, web, api, git, pages, importer,
    actions, dependabot, one member for each CIDR that net.ParseCIDR
    accepts, labelled with its category alone; a CIDR listed under two
    categories gives two members. Entries that are not CIDRs are left
    out. *)
Theorem convert_by_category (metadata : GitHubIPMetadata) :
  Ranges (convert metadata)
  = (tagged ["hooks"] (Hooks metadata) ++ tagged ["web"] (Web metadata)
     ++ tagged ["api"] (API metadata) ++ tagged ["git"] (Git metadata)
     ++ tagged ["pages"] (Pages metadata) ++ tagged ["importer"] (Importer metadata)
     ++ tagged ["actions"] (Actions metadata)
     ++ tagged ["dependabot"] (Dependabot metadata))%list
  /\ Forall (fun r => ParseCIDR_ok (CIDR r) = true
                      /\ exists l, Labels r = [l]
                           /\ l ∈ ["hooks"; "web"; "api"; "git"; "pages"; "importer";
                                   "actions"; "dependabot"])
       (Ranges (convert metadata)).
Proof.
  assert (Heq : Ranges (convert metadata)
    = (tagged ["hooks"] (Hooks metadata) ++ tagged ["web"] (Web metadata)
       ++ tagged ["api"] (API metadata) ++ tagged ["git"] (Git metadata)
       ++ tagged ["pages"] (Pages metadata) ++ tagged ["importer"] (Importer metadata)
       ++ tagged ["actions"] (Actions metadata)
       ++ tagged ["dependabot"] (Dependabot metadata))%list).
  { unfold convert. cbn zeta. rewrite !add_each_ranges.
    cbn [model.NewIPRangeSet Ranges app]. by rewrite <- !app_assoc. }
  split; [exact Heq|]. rewrite Heq.
  assert (Hcat : forall l cidrs,
            l ∈ ["hooks"; "web"; "api"; "git"; "pages"; "importer"; "actions"; "dependabot"] ->
            Forall (fun r => ParseCIDR_ok (CIDR r) = true
                      /\ exists l, Labels r = [l]
                           /\ l ∈ ["hooks"; "web"; "api"; "git"; "pages"; "importer";
                                   "actions"; "dependabot"])
              (tagged [l] cidrs)).
  { intros l cidrs Hl. eapply Forall_impl; [apply tagged_Forall|].
    intros r [Hlab Hok]. split; [exact Hok|]. by exists l. }
  repeat apply Forall_app_2; apply Hcat; set_solver.
Qed.


(** X13. After a fetch that returned a set, a second fetch made before
    the time-to-live has passed returns the same set and sends nothing. *)
Theorem FetchIPRanges_again (p : GitHubProvider) (w : World) data p1 w1 :
  FetchIPRanges p w = (Ok data, p1, w1) ->
  (time_Since (lastFetch p1) w1).1 < cacheTTL p1 ->
  FetchIPRanges p1 w1 = (Ok data, p1, (pass w1).2)
  /\ trace (pass w1).2 = trace w1.
Proof.
  intros Hfirst Hage. split; [|apply pass_trace].
  apply FetchIPRanges_hit; [|exact Hage]. by eapply FetchIPRanges_memoises.
Qed.

End Laws.


Lemma FetchIPRanges_again_witness :
  first_fetch.1.1 = Ok {| Ranges := [scenario.web; scenario.api] |}
  /\ trace (@FetchIPRanges script.sample script.scripted first_fetch.1.2 first_fetch.2).2
     = trace first_fetch.2.
Proof.
  split; [reflexivity|].
  destruct (@FetchIPRanges_again script.sample script.scripted octocat
              (script.start [script.gh_ok scenario.meta] [])
              (@convert script.sample scenario.meta) first_fetch.1.2 first_fetch.2
              eq_refl eq_refl)
    as [Heq Htr].
  rewrite Heq. exact Htr.
Defined.

End github_laws.

Module store_facts.
Import spec terms.
Import rt wire clock_facts apply_facts istio istio_facts trace_facts memo_facts set_facts.
Section Facts.
Context {lib : GoLib} {env : Env}.

Lemma GetCurrentIPRanges_quiet i :
  yields off_EnvoyFilter (fun out => xForwardedFor out.2 = xForwardedFor i) (GetCurrentIPRanges i).
Proof.
  unfold GetCurrentIPRanges.
  apply yields_bind with (R := fun _ => True); [apply yields_cache_hit|].
  intros [data|] _; [by apply yields_ret|].
  apply yields_bind with (R := fun _ => True); [apply yields_cache_hit|].
  intros [data|] _; [by apply yields_ret|].
  apply yields_bind with (R := fun _ => True); [by apply yields_call|].
  intros [configMap|err] _.
  - destruct (match cm_Data configMap with Some d => d !! "ip_ranges" | None => None end)
      as [rangesData|].
    + destruct (Unmarshal_strings rangesData); [|by apply yields_ret].
      apply yields_bind with (R := fun _ => True); [apply yields_time_Now|].
      intros t _. by apply yields_ret.
    + apply yields_bind with (R := fun _ => True); [apply yields_time_Now|].
      intros t _. by apply yields_ret.
  - apply yields_bind with (R := fun _ => True); [apply yields_time_Now|].
    intros t _. by apply yields_ret.
Qed.

Lemma updateConfigMap_quiet i ipRanges :
  yields off_EnvoyFilter (fun out => xForwardedFor out.2 = xForwardedFor i)
    (updateConfigMap i ipRanges).
Proof.
  unfold updateConfigMap.
  apply yields_bind with (R := fun _ => True); [by apply yields_call|].
  intros r _. apply yields_bind with (R := fun _ => True).
  - destruct r as [configMap|err].
    + apply yields_bind with (R := fun _ => True); [by apply yields_call|].
      intros [e|] _; by apply yields_ret.
    + apply yields_bind with (R := fun _ => True); [by apply yields_call|].
      intros [e|] _; by apply yields_ret.
  - intros [e|] _; [by apply yields_ret|].
    apply yields_bind with (R := fun _ => True); [apply yields_time_Now|].
    intros t _. by apply yields_ret.
Qed.

End Facts.
End store_facts.

Module istio_laws.
Import spec terms cases.
Import rt wire clock_facts apply_facts istio istio_facts trace_facts memo_facts set_facts
  store_facts.
Section Laws.
Context {lib : GoLib} {env : Env}.

(** X14. With the memo absent or stale, GetCurrentIPRanges of the
    document-based target reads the ConfigMap once. Whatever error that
    read returns, not only "not found", the applied set is taken to be
    empty; so it is when the ConfigMap has no ip_ranges entry. The only
    error is an ip_ranges entry that does not decode, and then the
    instance is as it was. An entry that decodes gives one member for each
    of its strings that net.ParseCIDR accepts, labelled istio. A set that
    is returned becomes the memo. *)
Theorem GetCurrentIPRanges_of_ConfigMap (i : IstioIngress) (w : World) :
  expired (cachedData i) (lastFetch i) (cacheTTL i) w ->
  exists w2,
    trace w2 = trace w
    /\ let configMapName := name i ++ "-" ++ resourceName i in
       let get := call (EvGet "ConfigMap" (namespace i) configMapName)
                    (Get_ConfigMap (namespace i) configMapName) w2 in
       let out := GetCurrentIPRanges i w in
       trace out.2 = (trace w ++ [EvGet "ConfigMap" (namespace i) configMapName])%list
       /\ match get.1 with
          | Err _ => out.1.1 = Ok model.NewIPRangeSet
          | Ok configMap =>
              match (match cm_Data configMap with
                     | Some d => d !! "ip_ranges" | None => None end) with
              | None => out.1.1 = Ok model.NewIPRangeSet
              | Some rangesData =>
                  match Unmarshal_strings rangesData with
                  | Err err => out.1 = (Err ("error unmarshaling IP ranges: " ++ err), i)
                  | Ok ranges => out.1.1 = Ok {| Ranges := tagged ["istio"] ranges |}
                  end
              end
          end
       /\ (forall set, out.1.1 = Ok set ->
           cachedData out.1.2 = Some set /\ lastFetch out.1.2 = now out.2).
Proof.
  intros Hexp. unfold GetCurrentIPRanges. missed Hexp w2 Htr. exists w2.
  split; [exact Htr|]. cbn zeta. unfold bind.
  pose proof (call_trace (EvGet "ConfigMap" (namespace i) (configMapName i))
                (Get_ConfigMap (namespace i) (configMapName i)) w2) as Hc.
  rewrite Htr in Hc.
  destruct (call _ _ w2) as [[configMap|err] w3]; cbn [fst snd] in *.
  - destruct (match cm_Data configMap with Some d => d !! "ip_ranges" | None => None end)
      as [rangesData|].
    + destruct (Unmarshal_strings rangesData) as [ranges|err].
      * pose proof (time_Now_trace w3) as Ht. pose proof (time_Now_now w3) as Hn.
        destruct (time_Now w3) as [t w4]. cbn [ret fst snd] in *.
        split; [by rewrite Ht|]. split.
        { f_equal. apply model_claims.IPRangeSet_ext. by rewrite add_each_ranges. }
        intros set Hset. inversion Hset; subst. by split.
      * cbn [ret fst snd]. split; [exact Hc|]. split; [reflexivity|discriminate].
    + pose proof (time_Now_trace w3) as Ht. pose proof (time_Now_now w3) as Hn.
      destruct (time_Now w3) as [t w4]. cbn [ret fst snd] in *.
      split; [by rewrite Ht|]. split; [reflexivity|].
      intros set Hset. inversion Hset; subst. by split.
  - pose proof (time_Now_trace w3) as Ht. pose proof (time_Now_now w3) as Hn.
    destruct (time_Now w3) as [t w4]. cbn [ret fst snd] in *.
    split; [by rewrite Ht|]. split; [reflexivity|].
    intros set Hset. inversion Hset; subst. by split.
Qed.

(** X15. What updateConfigMap writes and what GetCurrentIPRanges reads
    back. When the ConfigMap cannot be read, updateConfigMap creates it
    under the name of the instance and its resource, with the three
    managed-by labels and the one entry ip_ranges, the JSON of the CIDRs
    of the desired set; when it can, it updates it, replacing that entry
    and keeping its name, its labels and its other entries. If the JSON
    decodes to the CIDRs it was made of, an instance without a fresh memo
    that reads a ConfigMap with this entry gets the CIDRs of the desired
    set that net.ParseCIDR accepts, in their order; when it accepts them
    all, this set and the desired set diff as empty. *)
Theorem ConfigMap_round_trip (i : IstioIngress) (ipRanges : IPRangeSet) (w : World) :
  let rangesJSON := Marshal_strings (model.GetCIDRs ipRanges) in
  let configMapName := name i ++ "-" ++ resourceName i in
  let get := EvGet "ConfigMap" (namespace i) configMapName in
  let read := call get (Get_ConfigMap (namespace i) configMapName) in
  (forall err, (read w).1 = Err err ->
     appended (updateConfigMap i ipRanges) w
     = [get; EvCreateConfigMap
               {| cm_Name := configMapName; cm_Namespace := namespace i;
                  cm_Labels :=
                    {[ "app.kubernetes.io/name" := "ingress-meta-sync";
                       "app.kubernetes.io/instance" := name i;
                       "app.kubernetes.io/managed-by" := "ingress-meta-sync-controller" ]};
                  cm_Data := Some {[ "ip_ranges" := rangesJSON ]} |}])
  /\ (forall existing, (read w).1 = Ok existing ->
        exists data,
          appended (updateConfigMap i ipRanges) w
          = [get; EvUpdateConfigMap
                    {| cm_Name := cm_Name existing; cm_Namespace := cm_Namespace existing;
                       cm_Labels := cm_Labels existing; cm_Data := Some data |}]
          /\ data !! "ip_ranges" = Some rangesJSON
          /\ forall key, key <> "ip_ranges" ->
               data !! key = match cm_Data existing with
                             | Some old => old !! key
                             | None => None
                             end)
  /\ (Unmarshal_strings rangesJSON = Ok (model.GetCIDRs ipRanges) ->
      expired (cachedData i) (lastFetch i) (cacheTTL i) w ->
      exists w2,
        trace w2 = trace w
        /\ forall stored data,
             (read w2).1 = Ok stored ->
             cm_Data stored = Some data ->
             data !! "ip_ranges" = Some rangesJSON ->
             exists current,
               (GetCurrentIPRanges i w).1.1 = Ok current
               /\ model.GetCIDRs current
                  = List.filter ParseCIDR_ok (model.GetCIDRs ipRanges)
               /\ (Forall (fun c => ParseCIDR_ok c = true) (model.GetCIDRs ipRanges) ->
                   no_changes current ipRanges = true)).
Proof.
  cbn zeta. split; [|split].
  - intros err Hread. apply appended_eq. unfold updateConfigMap, bind.
    pose proof (call_trace (EvGet "ConfigMap" (namespace i) (configMapName i))
                  (Get_ConfigMap (namespace i) (configMapName i)) w) as Hc.
    destruct (call _ _ w) as [[configMap|e] w2]; [discriminate|]. cbn [snd] in Hc.
    match goal with
    | |- context [call ?ev ?op w2] =>
        pose proof (call_trace ev op w2) as Hc2; destruct (call ev op w2) as [[e'|] w3]
    end; cbn [ret fst snd] in *.
    + rewrite Hc2, Hc, <- app_assoc. by rewrite insert_empty.
    + pose proof (time_Now_trace w3) as Ht. destruct (time_Now w3) as [t w4].
      cbn [ret fst snd] in *. rewrite Ht, Hc2, Hc, <- app_assoc. by rewrite insert_empty.
  - intros existing Hread.
    exists (<["ip_ranges" := Marshal_strings (model.GetCIDRs ipRanges)]>
              (match cm_Data existing with Some d => d | None => ∅ end)).
    split; [|split].
    + apply appended_eq. unfold updateConfigMap, bind.
      pose proof (call_trace (EvGet "ConfigMap" (namespace i) (configMapName i))
                    (Get_ConfigMap (namespace i) (configMapName i)) w) as Hc.
      destruct (call _ _ w) as [[configMap|e] w2]; [|discriminate]. cbn [fst snd] in *.
      inversion Hread; subst configMap.
      match goal with
      | |- context [call ?ev ?op w2] =>
          pose proof (call_trace ev op w2) as Hc2; destruct (call ev op w2) as [[e'|] w3]
      end; cbn [ret fst snd] in *.
      * rewrite Hc2, Hc, <- app_assoc. reflexivity.
      * pose proof (time_Now_trace w3) as Ht. destruct (time_Now w3) as [t w4].
        cbn [ret fst snd] in *. rewrite Ht, Hc2, Hc, <- app_assoc. reflexivity.
    + apply lookup_insert_eq.
    + intros key Hkey. rewrite lookup_insert_ne by done.
      by destruct (cm_Data existing).
  - intros Hjson Hexp. unfold GetCurrentIPRanges. missed Hexp w2 Htr. exists w2.
    split; [exact Htr|]. intros stored data Hread Hdata Hentry. unfold bind.
    destruct (call _ _ w2) as [[configMap|e] w3]; [|discriminate]. cbn [fst] in Hread.
    inversion Hread; subst configMap. rewrite Hdata, Hentry, Hjson.
    destruct (time_Now w3) as [t w4]. cbn [ret fst snd].
    eexists. split; [reflexivity|].
    assert (Hcidrs : model.GetCIDRs
                       (model.add_each ["istio"] (model.GetCIDRs ipRanges)
                          model.NewIPRangeSet)
                     = List.filter ParseCIDR_ok (model.GetCIDRs ipRanges)).
    { unfold model.GetCIDRs at 1. rewrite add_each_ranges.
      cbn [model.NewIPRangeSet Ranges app]. unfold tagged.
      rewrite List.map_map. cbn [CIDR]. apply List.map_id. }
    split; [exact Hcidrs|]. intros Hvalid. apply no_changes_cidrs. intros c.
    rewrite Hcidrs. rewrite List.forallb_filter_id; [reflexivity|].
    apply forallb_forall. intros x Hx.
    rewrite Forall_forall in Hvalid. by apply Hvalid, list_elem_of_In.
Qed.

(** X16. When the X-Forwarded-For handling of the instance is off, or the
    desired set is empty, ApplyIPRanges of the document-based target makes
    no call on an EnvoyFilter: it neither reads, creates nor updates one.
    An EnvoyFilter that exists keeps the ranges it has. *)
Theorem ApplyIPRanges_leaves_EnvoyFilter (i : IstioIngress) (ipRanges : IPRangeSet) :
  xForwardedFor i = false \/ model.Count ipRanges = 0%nat ->
  yields off_EnvoyFilter (fun _ => True) (ApplyIPRanges i ipRanges).
Proof.
  intros Hoff. unfold ApplyIPRanges.
  apply yields_bind with (R := fun out => xForwardedFor out.2 = xForwardedFor i);
    [apply GetCurrentIPRanges_quiet|].
  intros [[current|err] i1] Hi1; cbn [snd] in Hi1; [|by apply yields_ret].
  destruct (model.Diff current ipRanges) as [added removed].
  destruct (_ && _)%bool; [by apply yields_ret|].
  apply yields_bind with (R := fun out => xForwardedFor out.2 = xForwardedFor i1);
    [apply updateConfigMap_quiet|].
  intros [[e|] i2] Hi2; cbn [snd] in Hi2; [by apply yields_ret|].
  destruct (xForwardedFor i2) eqn:Hx; [|by apply yields_ret].
  destruct Hoff as [Hoff|Hempty]; [congruence|].
  unfold updateEnvoyFilter. rewrite Hempty. cbn [Nat.eqb].
  apply yields_bind with (R := fun _ => True); [by apply yields_ret|].
  intros [e|] _; by apply yields_ret.
Qed.

End Laws.

Lemma GetCurrentIPRanges_of_ConfigMap_witness :
  expired (cachedData quiet_gateway) (lastFetch quiet_gateway) (cacheTTL quiet_gateway)
    forbidden
  /\ trace (@GetCurrentIPRanges script.sample script.scripted quiet_gateway forbidden).2
     = [EvGet "ConfigMap" "istio-system" "quiet-ip-ranges"].
Proof.
  split; [by left|].
  destruct (@GetCurrentIPRanges_of_ConfigMap script.sample script.scripted quiet_gateway
              forbidden (or_introl eq_refl))
    as (w2 & _ & Htr & _).
  exact Htr.
Defined.

Lemma ApplyIPRanges_leaves_EnvoyFilter_witness :
  xForwardedFor quiet_gateway = false
  /\ Forall off_EnvoyFilter
       (trace (@ApplyIPRanges script.sample script.scripted quiet_gateway scenario.desired
                 forbidden).2).
Proof.
  split; [reflexivity|].
  destruct (@ApplyIPRanges_leaves_EnvoyFilter script.sample script.scripted quiet_gateway
              scenario.desired (or_introl eq_refl) forbidden)
    as (evs & Htr & Hq & _).
  rewrite Htr. exact Hq.
Defined.

End istio_laws.

Module settle_facts.
Import spec terms.
Import rt wire clock_facts apply_facts model_facts diff_facts.
Section Facts.
Context {lib : GoLib} {env : Env}.

Lemma Count_zero (s : IPRangeSet) : Nat.eqb (model.Count s) 0 = true -> Ranges s = [].
Proof.
  unfold model.Count. destruct (Ranges s); [reflexivity|discriminate].
Qed.

(** Two sets that diff as empty hold the same CIDRs. *)
Lemma no_changes_same_cidrs (a b : IPRangeSet) :
  no_changes a b = true ->
  forall c, c ∈ model.GetCIDRs a <-> c ∈ model.GetCIDRs b.
Proof.
  unfold no_changes, model.Diff. cbn [fst snd]. intros Hnc c.
  apply andb_true_iff in Hnc as [Hadded Hremoved].
  apply Count_zero in Hadded, Hremoved.
  pose proof (cidr_of_missing_index (Ranges b) (Ranges a) c) as Hb.
  pose proof (cidr_of_missing_index (Ranges a) (Ranges b) c) as Ha.
  rewrite Hadded in Hb. rewrite Hremoved in Ha. cbn [map] in Ha, Hb.
  unfold model.GetCIDRs. split; intros Hc.
  - destruct (decide (c ∈ map CIDR (Ranges b))) as [|Hn]; [done|].
    exfalso. eapply not_elem_of_nil, Ha. by split.
  - destruct (decide (c ∈ map CIDR (Ranges a))) as [|Hn]; [done|].
    exfalso. eapply not_elem_of_nil, Hb. by split.
Qed.

Lemma no_changes_other (memo ipRanges again : IPRangeSet) :
  no_changes memo ipRanges = true ->
  (forall c, c ∈ model.GetCIDRs again <-> c ∈ model.GetCIDRs ipRanges) ->
  no_changes memo again = true.
Proof.
  intros Hnc Hsame. apply no_changes_cidrs. intros c.
  rewrite (no_changes_same_cidrs _ _ Hnc c). by rewrite Hsame.
Qed.

End Facts.
End settle_facts.

Module settle_laws.
Import spec terms cases.
Import rt wire clock_facts apply_facts settle_facts.
Section Laws.
Context {lib : GoLib} {env : Env}.

(** X17. The document-based target is idempotent while its memo is fresh:
    after an apply that succeeded, an apply of the same desired set, or of
    any set with the same CIDRs whatever its labels and order, made before
    the time-to-live has passed, succeeds, leaves the instance as it is
    and makes no external call at all. *)
Theorem istio_apply_settles (i : istio.IstioIngress) (ipRanges again : IPRangeSet)
    (w : World) i1 w1 :
  istio.ApplyIPRanges i ipRanges w = (None, i1, w1) ->
  (time_Since (istio.lastFetch i1) w1).1 < istio.cacheTTL i1 ->
  (forall c, c ∈ model.GetCIDRs again <-> c ∈ model.GetCIDRs ipRanges) ->
  istio.ApplyIPRanges i1 again w1 = (None, i1, (pass w1).2)
  /\ trace (pass w1).2 = trace w1.
Proof.
  intros Hfirst Hfresh Hsame. split; [|apply pass_trace].
  destruct (istio_facts.istio_apply_memo _ _ _ _ _ Hfirst) as (memo & Hm & Hnc).
  apply (istio_facts.istio_apply_no_changes _ _ _ memo).
  - by apply istio_facts.istio_current_hit.
  - by eapply no_changes_other.
Qed.

(** X18. The rule-based target is idempotent while its memo is fresh,
    except after the creation of the rule: after an apply that succeeded
    and left a memo other than the empty set (it found nothing to change,
    or it updated the filter), an apply of a set with the same CIDRs made
    before the time-to-live has passed succeeds, leaves the instance as it
    is and makes no external call. The CIDRs are such as net.ParseCIDR
    accepts, which accepts no empty string and no white space. *)
Theorem cloudflare_apply_settles (c : cloudflare.CloudflareIngress)
    (ipRanges again : IPRangeSet) (w : World) c1 w1 :
  (forall c, ParseCIDR_ok c = true -> c <> "" /\ no_space c = true) ->
  Forall (fun c => ParseCIDR_ok c = true) (model.GetCIDRs ipRanges) ->
  cloudflare.ApplyIPRanges c ipRanges w = (None, c1, w1) ->
  cloudflare.cachedData c1 <> Some model.NewIPRangeSet ->
  (time_Since (cloudflare.lastFetch c1) w1).1 < cloudflare.cacheTTL c1 ->
  (forall c, c ∈ model.GetCIDRs again <-> c ∈ model.GetCIDRs ipRanges) ->
  cloudflare.ApplyIPRanges c1 again w1 = (None, c1, (pass w1).2)
  /\ trace (pass w1).2 = trace w1.
Proof.
  intros Hplain Hvalid Hfirst Hmemo Hfresh Hsame.
  destruct (cloudflare_memo.cloudflare_apply_memo _ _ _ _ _ Hplain Hvalid Hfirst)
    as (memo & Hm & [Hnc|Hempty]); [|congruence].
  apply (cloudflare_memo.cloudflare_apply_memo_hit _ _ _ memo); [exact Hm| |exact Hfresh].
  by eapply no_changes_other.
Qed.

End Laws.

Lemma istio_apply_settles_witness :
  stored_apply.1.1 = None
  /\ trace (@istio.ApplyIPRanges script.sample script.scripted stored_apply.1.2
              {| Ranges := [ {| CIDR := "10.0.0.0/8"; Labels := [] |} ] |}
              stored_apply.2).2
     = trace stored_apply.2.
Proof.
  split; [reflexivity|].
  destruct (@istio_apply_settles script.sample script.scripted quiet_gateway
              scenario.desired {| Ranges := [ {| CIDR := "10.0.0.0/8"; Labels := [] |} ] |}
              bare_cluster stored_apply.1.2 stored_apply.2 eq_refl eq_refl
              (fun c => conj (fun H => H) (fun H => H)))
    as [Heq Htr].
  rewrite Heq. exact Htr.
Defined.

Lemma cloudflare_apply_settles_witness :
  updating_apply.1.1 = None
  /\ cloudflare.cachedData updating_apply.1.2
     = Some {| Ranges := [ {| CIDR := "10.0.0.0/8"; Labels := ["cloudflare"] |} ] |}
  /\ trace (@cloudflare.ApplyIPRanges script.sample script.scripted updating_apply.1.2
              scenario.desired updating_apply.2).2
     = trace updating_apply.2.
Proof.
  split; [vm_compute; reflexivity|]. split; [vm_compute; reflexivity|].
  assert (Hvalid : Forall (fun c => script.ipv4_cidr c = true)
                     (@model.GetCIDRs scenario.desired)) by (repeat constructor).
  assert (Hfirst : @cloudflare.ApplyIPRanges script.sample script.scripted scenario.edge
                     scenario.desired outdated_zone
                   = (None, updating_apply.1.2, updating_apply.2))
    by (vm_compute; reflexivity).
  assert (Hmemo : cloudflare.cachedData updating_apply.1.2 <> Some model.NewIPRangeSet)
    by (vm_compute; discriminate).
  assert (Hfresh : (@time_Since script.scripted
                      (cloudflare.lastFetch updating_apply.1.2) updating_apply.2).1
                   < cloudflare.cacheTTL updating_apply.1.2)
    by (vm_compute; reflexivity).
  destruct (@cloudflare_apply_settles script.sample script.scripted scenario.edge
              scenario.desired scenario.desired outdated_zone
              updating_apply.1.2 updating_apply.2
              sample_facts.ipv4_cidr_plain Hvalid Hfirst Hmemo Hfresh
              (fun c => conj (fun H => H) (fun H => H)))
    as [Heq Htr].
  rewrite Heq. exact Htr.
Defined.

End settle_laws.
